(** * The chat route of the AI chatbot: request handler, intent
      classifier and response cache

    A shallow embedding of the server-side route of the chat application
    (the handler [POST] with [generateText], [generateImage] and
    [generateAudio]) and the properties its specification states.  Two
    pieces of the client follow: [formatMessageContent] of the message
    view, and the handlers of the input form [ChatInput].

    Modelling conventions.
    - A JavaScript string is the list of its UTF-16 code units ([list N]);
      [length] is therefore [String.prototype.length].
    - The handler is [async], but it awaits one upstream call at a time; a
      request is modelled as running to completion, in a state-and-exception
      monad over the server state (the credential, the cache map, the clock
      read by [Date.now], the exchanges with the provider, the console).
      Requests interleaving at the [await] points are not modelled.
    - The provider (the OpenAI SDK) is an oracle: a record of functions from
      the exchanges so far and the new call to its outcome and duration.
    - The history of a request is whatever [JSON.parse] returns, so the
      messages sent upstream are JSON values, not a checked record type.
    - The wording of the errors the runtime itself raises ([TypeError],
      [RangeError]) is V8's and undici's; the handler only forwards it. *)

From stdpp Require Import base option list gmap strings.
From Stdlib Require Import ZArith NArith Lia.

Set Warnings "-register-all".
Local Open Scope N_scope.

(** ** JavaScript strings *)

Abbreviation jsstring := (list N).

(** A string literal of the source, as code units. *)
Definition lit (s : string) : jsstring :=
  (fun a : Ascii.ascii => Ascii.N_of_ascii a) <$> String.list_ascii_of_string s.

(** The same, each apostrophe standing for a double quote: the way JSON
    text is written down in the examples below. *)
Definition dq (s : string) : jsstring :=
  (fun c => if c =? 39 then 34 else c) <$> lit s.

Module JsString.

(** [String.prototype.includes] with a one-unit needle, as in
    [text.includes("?")]. *)
Definition includes_unit (c : N) (s : jsstring) : bool :=
  existsb (N.eqb c) s.

(** [s.slice(-n)]: the last [n] units, the whole string when shorter.
    The same function serves [Array.prototype.slice]. *)
Definition slice_last {A : Type} (n : nat) (l : list A) : list A :=
  drop (length l - n)%nat l.

(** WhiteSpace and LineTerminator code units, the ones
    [String.prototype.trim] strips. *)
Definition is_whitespace (c : N) : bool :=
  ((9 <=? c) && (c <=? 13)) || (c =? 32) || (c =? 160) || (c =? 5760)
  || ((8192 <=? c) && (c <=? 8202)) || (c =? 8232) || (c =? 8233)
  || (c =? 8239) || (c =? 8287) || (c =? 12288) || (c =? 65279).

Fixpoint trim_start (s : jsstring) : jsstring :=
  match s with
  | c :: s' => if is_whitespace c then trim_start s' else s
  | [] => []
  end.

Definition trim (s : jsstring) : jsstring :=
  rev (trim_start (rev (trim_start s))).

(** Truthiness of a string: non-empty. *)
Definition truthy (s : jsstring) : bool :=
  match s with [] => false | _ => true end.

(** Canonicalize of a regular expression with the [i] flag and without
    the [u] flag: a code unit is compared through its upper case, and a
    unit outside ASCII never folds onto an ASCII one.  The patterns of
    the handler hold ASCII letters and the space only, so folding the
    ASCII lower-case letters is all that can make two units agree. *)
Definition canonicalize (c : N) : N :=
  if (97 <=? c) && (c <=? 122) then c - 32 else c.

Fixpoint matches_at (pat s : jsstring) : bool :=
  match pat, s with
  | [], _ => true
  | p :: pat', c :: s' =>
      (canonicalize p =? canonicalize c) && matches_at pat' s'
  | _ :: _, [] => false
  end.

(** [/a1|a2|...|an/i.test(s)]: at each start position in turn, the
    alternatives in turn. *)
Fixpoint regex_test (alternatives : list jsstring) (s : jsstring) : bool :=
  existsb (fun pat => matches_at pat s) alternatives
  || match s with
     | [] => false
     | _ :: s' => regex_test alternatives s'
     end.

(** The string iterator, used by the spread [...s]: one element per code
    point, a surrogate pair staying together. *)
Definition is_high_surrogate (c : N) : bool := (55296 <=? c) && (c <=? 56319).
Definition is_low_surrogate (c : N) : bool := (56320 <=? c) && (c <=? 57343).

Fixpoint code_points (s : jsstring) : list jsstring :=
  match s with
  | [] => []
  | c :: s' =>
      match s' with
      | d :: s'' =>
          if is_high_surrogate c && is_low_surrogate d
          then [c; d] :: code_points s''
          else [c] :: code_points s'
      | [] => [[c]]
      end
  end.

(** [Buffer.prototype.toString('base64')]. *)
Definition base64_digit (n : N) : N :=
  if n <? 26 then 65 + n
  else if n <? 52 then 97 + (n - 26)
  else if n <? 62 then 48 + (n - 52)
  else if n =? 62 then 43 else 47.

Fixpoint base64 (bytes : list N) : jsstring :=
  match bytes with
  | [] => []
  | [a] =>
      [base64_digit (a / 4); base64_digit ((a mod 4) * 16); 61; 61]
  | [a; b] =>
      [base64_digit (a / 4); base64_digit ((a mod 4) * 16 + b / 16);
       base64_digit ((b mod 16) * 4); 61]
  | a :: b :: c :: rest =>
      base64_digit (a / 4) :: base64_digit ((a mod 4) * 16 + b / 16)
      :: base64_digit ((b mod 16) * 4 + c / 64) :: base64_digit (c mod 64)
      :: base64 rest
  end.

End JsString.

(** ** JSON values and [JSON.parse] *)

Module JSON.

(** A parsed value.  A number keeps its lexeme: the handler never reads
    the double it denotes.  An object keeps its members in source order. *)
Inductive json : Type :=
| JNull
| JBool (b : bool)
| JNumber (lexeme : jsstring)
| JString (s : jsstring)
| JArray (items : list json)
| JObject (members : list (jsstring * json)).

Inductive parsed (A : Type) : Type :=
| Parsed (a : A) (rest : jsstring)
| SyntaxError
| OutOfFuel.
Arguments Parsed {A} a rest.
Arguments SyntaxError {A}.
Arguments OutOfFuel {A}.

Definition is_ws (c : N) : bool :=
  (c =? 32) || (c =? 9) || (c =? 10) || (c =? 13).

Fixpoint skip_ws (s : jsstring) : jsstring :=
  match s with
  | c :: s' => if is_ws c then skip_ws s' else s
  | [] => []
  end.

Definition is_digit (c : N) : bool := (48 <=? c) && (c <=? 57).

Fixpoint digits (s : jsstring) : jsstring * jsstring :=
  match s with
  | c :: s' =>
      if is_digit c then let '(ds, r) := digits s' in (c :: ds, r)
      else ([], s)
  | [] => ([], [])
  end.

Definition hex_value (c : N) : option N :=
  if is_digit c then Some (c - 48)
  else if (97 <=? c) && (c <=? 102) then Some (c - 87)
  else if (65 <=? c) && (c <=? 70) then Some (c - 55)
  else None.

Definition hex4 (a b c d : N) : option N :=
  match hex_value a, hex_value b, hex_value c, hex_value d with
  | Some x, Some y, Some z, Some w => Some (((x * 16 + y) * 16 + z) * 16 + w)
  | _, _, _, _ => None
  end.

(** What follows a backslash, for the one-unit escapes. *)
Definition simple_escape (c : N) : option N :=
  if c =? 34 then Some 34          (* quote *)
  else if c =? 92 then Some 92     (* backslash *)
  else if c =? 47 then Some 47     (* slash *)
  else if c =? 98 then Some 8      (* b *)
  else if c =? 102 then Some 12    (* f *)
  else if c =? 110 then Some 10    (* n *)
  else if c =? 114 then Some 13    (* r *)
  else if c =? 116 then Some 9     (* t *)
  else None.

Definition push (c : N) (p : parsed jsstring) : parsed jsstring :=
  match p with
  | Parsed str r => Parsed (c :: str) r
  | other => other
  end.

(** The body of a string, after its opening quote, up to and including
    the closing one. *)
Fixpoint string_body (s : jsstring) : parsed jsstring :=
  match s with
  | [] => SyntaxError
  | c :: r =>
      if c =? 34 then Parsed [] r
      else if c =? 92 then
        match r with
        | [] => SyntaxError
        | e :: r' =>
            if e =? 117 then
              match r' with
              | h1 :: h2 :: h3 :: h4 :: r'' =>
                  match hex4 h1 h2 h3 h4 with
                  | Some u => push u (string_body r'')
                  | None => SyntaxError
                  end
              | _ => SyntaxError
              end
            else
              match simple_escape e with
              | Some u => push u (string_body r')
              | None => SyntaxError
              end
        end
      else if c <? 32 then SyntaxError
      else push c (string_body r)
  end.

(** A number: an optional minus; a zero, or a non-zero digit and more
    digits; an optional fraction, a dot and one digit at least; an optional
    exponent, [e] or [E], an optional sign and one digit at least. *)
Definition number (s : jsstring) : parsed jsstring :=
  let '(sign, r0) :=
    match s with
    | c :: r => if c =? 45 then ([c], r) else ([], s)
    | [] => ([], s)
    end in
  match r0 with
  | [] => SyntaxError
  | d :: r0' =>
      if negb (is_digit d) then SyntaxError else
      let '(int, r1) := if d =? 48 then ([d], r0') else digits r0 in
      let frac :=
        match r1 with
        | c :: r2 =>
            if c =? 46 then
              match digits r2 with
              | ([], _) => None
              | (ds, r3) => Some (c :: ds, r3)
              end
            else Some ([], r1)
        | [] => Some ([], r1)
        end in
      match frac with
      | None => SyntaxError
      | Some (fr, r3) =>
          match r3 with
          | c :: r4 =>
              if (c =? 101) || (c =? 69) then
                let '(esign, r5) :=
                  match r4 with
                  | g :: r4' =>
                      if (g =? 43) || (g =? 45) then ([g], r4') else ([], r4)
                  | [] => ([], r4)
                  end in
                match digits r5 with
                | ([], _) => SyntaxError
                | (ds, r6) => Parsed (sign ++ int ++ fr ++ c :: esign ++ ds) r6
                end
              else Parsed (sign ++ int ++ fr) r3
          | [] => Parsed (sign ++ int ++ fr) r3
          end
      end
  end.

(** [null], [true], [false]. *)
Fixpoint keyword (word s : jsstring) : option jsstring :=
  match word, s with
  | [], _ => Some s
  | w :: word', c :: s' => if w =? c then keyword word' s' else None
  | _ :: _, [] => None
  end.

(** Recursive descent.  [value] expects no leading white space;
    [elements] and [members] parse what follows an opening bracket or a
    comma, through the closing bracket. *)
Fixpoint value (fuel : nat) (s : jsstring) : parsed json :=
  match fuel with
  | O => OutOfFuel
  | S fuel' =>
      match s with
      | [] => SyntaxError
      | c :: r =>
          if c =? 110 then
            match keyword (lit "ull") r with
            | Some r' => Parsed JNull r' | None => SyntaxError end
          else if c =? 116 then
            match keyword (lit "rue") r with
            | Some r' => Parsed (JBool true) r' | None => SyntaxError end
          else if c =? 102 then
            match keyword (lit "alse") r with
            | Some r' => Parsed (JBool false) r' | None => SyntaxError end
          else if c =? 34 then
            match string_body r with
            | Parsed str r' => Parsed (JString str) r'
            | SyntaxError => SyntaxError
            | OutOfFuel => OutOfFuel
            end
          else if c =? 91 then
            match skip_ws r with
            | d :: r' =>
                if d =? 93 then Parsed (JArray []) r'
                else
                  match elements fuel' (d :: r') with
                  | Parsed items r'' => Parsed (JArray items) r''
                  | SyntaxError => SyntaxError
                  | OutOfFuel => OutOfFuel
                  end
            | [] => SyntaxError
            end
          else if c =? 123 then
            match skip_ws r with
            | d :: r' =>
                if d =? 125 then Parsed (JObject []) r'
                else
                  match members fuel' (d :: r') with
                  | Parsed ms r'' => Parsed (JObject ms) r''
                  | SyntaxError => SyntaxError
                  | OutOfFuel => OutOfFuel
                  end
            | [] => SyntaxError
            end
          else
            match number s with
            | Parsed lexeme r' => Parsed (JNumber lexeme) r'
            | SyntaxError => SyntaxError
            | OutOfFuel => OutOfFuel
            end
      end
  end
with elements (fuel : nat) (s : jsstring) : parsed (list json) :=
  match fuel with
  | O => OutOfFuel
  | S fuel' =>
      match value fuel' s with
      | Parsed v r =>
          match skip_ws r with
          | c :: r' =>
              if c =? 93 then Parsed [v] r'
              else if c =? 44 then
                match elements fuel' (skip_ws r') with
                | Parsed vs r'' => Parsed (v :: vs) r''
                | other => other
                end
              else SyntaxError
          | [] => SyntaxError
          end
      | SyntaxError => SyntaxError
      | OutOfFuel => OutOfFuel
      end
  end
with members (fuel : nat) (s : jsstring) : parsed (list (jsstring * json)) :=
  match fuel with
  | O => OutOfFuel
  | S fuel' =>
      match s with
      | q :: r0 =>
          if negb (q =? 34) then SyntaxError else
          match string_body r0 with
          | Parsed key r1 =>
              match skip_ws r1 with
              | colon :: r2 =>
                  if negb (colon =? 58) then SyntaxError else
                  match value fuel' (skip_ws r2) with
                  | Parsed v r =>
                      match skip_ws r with
                      | c :: r' =>
                          if c =? 125 then Parsed [(key, v)] r'
                          else if c =? 44 then
                            match members fuel' (skip_ws r') with
                            | Parsed ms r'' => Parsed ((key, v) :: ms) r''
                            | other => other
                            end
                          else SyntaxError
                      | [] => SyntaxError
                      end
                  | SyntaxError => SyntaxError
                  | OutOfFuel => OutOfFuel
                  end
              | [] => SyntaxError
              end
          | _ => SyntaxError
          end
      | [] => SyntaxError
      end
  end.

(** [JSON.parse(text)]: [None] stands for the [SyntaxError] it throws.
    The fuel given is always enough (lemma [parse_fuel] below). *)
Definition parse (text : jsstring) : option json :=
  match value (2 * length text + 2) (skip_ws text) with
  | Parsed v r => match skip_ws r with [] => Some v | _ :: _ => None end
  | _ => None
  end.

End JSON.

Import JSON.
Local Open Scope Z_scope.

(** ** Values thrown, server state, and the monad of the handler *)

(** What a [catch] clause can receive.  The handler tells three things
    apart: an instance of [OpenAI.APIError] (itself an [Error]), with its
    [status], [code] and [message]; any other instance of [Error]
    ([TypeError], [RangeError] and [SyntaxError] included), with its
    [message]; a thrown value that is no [Error] at all. *)
Inductive thrown : Type :=
| APIError (status : option Z) (code : option jsstring) (message : jsstring)
| Error (message : jsstring)
| NonError.

(** [error instanceof Error], then [error.message]. *)
Definition Error_message (error : thrown) : option jsstring :=
  match error with
  | APIError _ _ message => Some message
  | Error message => Some message
  | NonError => None
  end.

Inductive completion (A : Type) : Type :=
| Return (a : A)
| Throw (error : thrown).
Arguments Return {A} a.
Arguments Throw {A} error.

Inductive Voice : Type := alloy | echo | fable | onyx | nova | shimmer.

(** The parameters of [openai.chat.completions.create] that vary.  All
    three call sites pass [temperature: 0.7] and both penalties [0]. *)
Record ChatParams : Type := {
  model : jsstring;
  messages : list json;
  max_tokens : Z
}.

(** A call to the provider.  [images.generate] and [audio.speech.create]
    are always issued with the same model, size, quality, speed and
    formats, so only their varying arguments are recorded. *)
Inductive UpstreamCall : Type :=
| chat_completions_create (params : ChatParams)
| images_generate (prompt : jsstring)
| audio_speech_create (voice : Voice) (input : jsstring).

(** A call that went upstream, with what it raised, if it did. *)
Record Exchange : Type := { call : UpstreamCall; raised : option thrown }.

(** The provider.  Each function receives the exchanges so far and
    answers the new call: for a completion, [choices[0]?.message?.content];
    for an image, [data[0]?.b64_json]; for speech, the bytes of the
    [arrayBuffer].  [elapsed] is the time, in milliseconds, the call takes. *)
Record Provider : Type := {
  chat_reply : list Exchange -> ChatParams -> completion (option jsstring);
  image_reply : list Exchange -> jsstring -> completion (option jsstring);
  speech_reply : list Exchange -> Voice -> jsstring -> completion (list N);
  elapsed : list Exchange -> UpstreamCall -> N
}.

Definition raised_by {A : Type} (reply : completion A) : option thrown :=
  match reply with
  | Return _ => None
  | Throw error => Some error
  end.

Record CacheEntry : Type := { data : jsstring; timestamp : Z }.

(** The state of the server process: the environment variable, the
    module-level [responseCache], the clock [Date.now] reads, the
    exchanges with the provider so far (oldest first) and the lines of
    [console.error]. *)
Record Server : Type := {
  OPENAI_API_KEY : option jsstring;
  responseCache : gmap jsstring CacheEntry;
  clock : Z;
  upstream : list Exchange;
  console : list (jsstring * thrown)
}.

Definition M (A : Type) : Type := Server -> completion A * Server.

#[global] Instance M_ret : MRet M := fun A a σ => (Return a, σ).

#[global] Instance M_bind : MBind M := fun A B f m σ =>
  match m σ with
  | (Return a, σ') => f a σ'
  | (Throw error, σ') => (Throw error, σ')
  end.

Definition throw {A : Type} (error : thrown) : M A :=
  fun σ => (Throw error, σ).

(** [try { body } catch (error) { handler }]. *)
Definition try_catch {A : Type} (body : M A) (handler : thrown -> M A) : M A :=
  fun σ =>
    match body σ with
    | (Return a, σ') => (Return a, σ')
    | (Throw error, σ') => handler error σ'
    end.

(** [responseCache.get], [responseCache.set], [Date.now], [console.error],
    [process.env.OPENAI_API_KEY]. *)
Definition responseCache_get (key : jsstring) : M (option CacheEntry) :=
  fun σ => (Return (responseCache σ !! key), σ).

Definition stored (key : jsstring) (entry : CacheEntry) (σ : Server) : Server :=
  {| OPENAI_API_KEY := OPENAI_API_KEY σ;
     responseCache := <[key := entry]> (responseCache σ);
     clock := clock σ;
     upstream := upstream σ;
     console := console σ |}.

Definition responseCache_set (key : jsstring) (entry : CacheEntry) : M unit :=
  fun σ => (Return tt, stored key entry σ).

Definition Date_now : M Z := fun σ => (Return (clock σ), σ).

Definition logged (label : jsstring) (error : thrown) (σ : Server) : Server :=
  {| OPENAI_API_KEY := OPENAI_API_KEY σ;
     responseCache := responseCache σ;
     clock := clock σ;
     upstream := upstream σ;
     console := console σ ++ [(label, error)] |}.

Definition console_error (label : jsstring) (error : thrown) : M unit :=
  fun σ => (Return tt, logged label error σ).

Definition process_env_OPENAI_API_KEY : M (option jsstring) :=
  fun σ => (Return (OPENAI_API_KEY σ), σ).

(** The state once a call has gone upstream and its answer has come. *)
Definition sent (openai : Provider) (c : UpstreamCall) (r : option thrown)
    (σ : Server) : Server :=
  {| OPENAI_API_KEY := OPENAI_API_KEY σ;
     responseCache := responseCache σ;
     clock := clock σ + Z.of_N (elapsed openai (upstream σ) c);
     upstream := upstream σ ++ [{| call := c; raised := r |}];
     console := console σ |}.

(** [await] of a call: the provider answers, the exchange is on record. *)
Definition await {A : Type} (openai : Provider) (c : UpstreamCall)
    (reply : list Exchange -> completion A) : M A :=
  fun σ =>
    let answer := reply (upstream σ) in
    (answer, sent openai c (raised_by answer) σ).

(** ** The route *)

Module ERROR_MESSAGES.
Definition MISSING_API_KEY := lit "Missing API key in server configuration.".
Definition INVALID_REQUEST := lit "Invalid request format or empty message.".
Definition PROCESSING_ERROR := lit "An error occurred while processing your request.".
Definition MEDIA_ERROR := lit "Unable to process the uploaded media. Please try again.".
Definition NO_RESPONSE := lit "Unable to generate a response. Please try again.".
Definition MODEL_ERROR :=
  lit "The language model is currently unavailable. Please try again later.".
Definition NETWORK_ERROR :=
  lit "Network connection error. Please check your connection and try again.".
Definition INVALID_RESPONSE := lit "Received an invalid response from the model.".
Definition RATE_LIMIT := lit "Rate limit exceeded. Please try again in a moment.".
Definition INVALID_API_KEY :=
  lit "Invalid API key. Please check your API key configuration.".
Definition CONTENT_POLICY :=
  lit "Your request could not be processed due to content policy restrictions.".
Definition SAFETY_ERROR := lit "The request was flagged by our safety system.".
Definition REGION_ERROR :=
  lit "OpenAI services are not available in your region. Please use a VPN or contact support.".
End ERROR_MESSAGES.
Import ERROR_MESSAGES.

Definition CACHE_TTL : Z := 5 * 60 * 1000.

(** The [type] of a cache key and of a response envelope. *)
Inductive ResponseType : Type := text | image | audio.

Definition ResponseType_name (type : ResponseType) : jsstring :=
  match type with
  | text => lit "text"
  | image => lit "image"
  | audio => lit "audio"
  end.

Definition generateCacheKey (prompt : jsstring) (type : ResponseType) : jsstring :=
  ResponseType_name type ++ lit ":" ++ prompt.

Definition unsupported_country_region_territory : jsstring :=
  lit "unsupported_country_region_territory".

(** [error instanceof OpenAI.APIError && error.code === code]. *)
Definition APIError_with_code (error : thrown) (code : jsstring) : bool :=
  match error with
  | APIError _ (Some c) _ => bool_decide (c = code)
  | _ => false
  end.

(** [error instanceof Error && error.message === message]. *)
Definition Error_with_message (error : thrown) (message : jsstring) : bool :=
  match Error_message error with
  | Some m => bool_decide (m = message)
  | None => false
  end.

(** [if (!value) throw new Error(ERROR_MESSAGES.NO_RESPONSE)]: an absent
    or empty string is falsy. *)
Definition or_NO_RESPONSE (value : option jsstring) : M jsstring :=
  match value with
  | Some (c :: s) => mret (c :: s)
  | Some [] | None => throw (Error NO_RESPONSE)
  end.

(** The two pairs of patterns of the classifier. *)
Definition image_action : list jsstring :=
  [lit "generate"; lit "create"; lit "make"; lit "draw"; lit "show";
   lit "give me"; lit "imagine"].
Definition image_subject : list jsstring :=
  [lit "image"; lit "picture"; lit "photo"; lit "artwork"; lit "drawing";
   lit "illustration"; lit "logo"; lit "icon"].
Definition audio_action : list jsstring :=
  [lit "generate"; lit "create"; lit "make"; lit "speak"; lit "say";
   lit "tell"; lit "read"].
Definition audio_subject : list jsstring :=
  [lit "audio"; lit "speech"; lit "voice"; lit "sound"; lit "speak";
   lit "talk"].

Definition isImageRequest (prompt : jsstring) : bool :=
  JsString.regex_test image_action prompt
  && JsString.regex_test image_subject prompt.

Definition isAudioRequest (prompt : jsstring) : bool :=
  JsString.regex_test audio_action prompt
  && JsString.regex_test audio_subject prompt.

(** The response envelope [{type, content, url?}]. *)
Record Envelope : Type := {
  type : ResponseType;
  content : jsstring;
  url : option jsstring
}.

(** The message objects the handler builds itself. *)
Definition user_message (prompt : jsstring) : json :=
  JObject [(lit "role", JString (lit "user")); (lit "content", JString prompt)].

Definition system_message (instruction name : jsstring) : json :=
  JObject [(lit "role", JString (lit "system"));
           (lit "content", JString instruction);
           (lit "name", JString name)].

Definition imagePrompt_instruction : jsstring :=
  lit "Create a concise image description for DALL-E 3. Focus on key visual elements. Keep it under 100 words.".

Definition audioPrompt_instruction : jsstring :=
  lit "Generate a brief, natural response for text-to-speech. Keep it under 100 words.".

Definition gpt_3_5_turbo : jsstring := lit "gpt-3.5-turbo".

(** [history.slice(-5)] on whatever [JSON.parse] gave: arrays and strings
    have a [slice]; [null] has no properties; on anything else [slice] is
    not a function (the wording of the two [TypeError]s is V8's). *)
Definition slice_minus_5 (history : json) : M json :=
  match history with
  | JArray items => mret (JArray (JsString.slice_last 5 items))
  | JString s => mret (JString (JsString.slice_last 5 s))
  | JNull => throw (Error (lit "Cannot read properties of null (reading 'slice')"))
  | JBool _ | JNumber _ | JObject _ =>
      throw (Error (lit "history.slice is not a function"))
  end.

(** The spread [...recentHistory] inside an array literal. *)
Definition spread (recentHistory : json) : M (list json) :=
  match recentHistory with
  | JArray items => mret items
  | JString s => mret (JString <$> JsString.code_points s)
  | _ => throw (Error (lit "recentHistory is not iterable"))
  end.

(** The voice [generateAudio] picks. *)
Definition voice_for (text : jsstring) : Voice :=
  if JsString.includes_unit 63 text then shimmer
  else if (200 <? Z.of_nat (length text)) then onyx
  else if JsString.includes_unit 33 text then fable
  else nova.

(** A value of the form: a [File], or a string. *)
Inductive FormDataEntryValue : Type :=
| FileEntry
| StringEntry (value : jsstring).

(** The two fields the handler reads; [None] is the [null] that
    [formData.get] returns for a field that is absent. *)
Record FormData : Type := {
  message : option FormDataEntryValue;
  history : option FormDataEntryValue
}.

(** A request, as far as the handler looks at it: what [await
    req.formData()] gives, a form or a rejection. *)
Record Request : Type := { formData : completion FormData }.

Inductive ResponseBody : Type :=
| body_envelope (response : Envelope)
| body_error (error : jsstring).

Record NextResponse : Type := { status : Z; body : ResponseBody }.

Definition content_policy_violation : jsstring := lit "content_policy_violation".

(** The [SyntaxError] of [JSON.parse].  The handler only logs it; V8's
    wording, which names the offending token, is not reproduced. *)
Definition JSON_SyntaxError : thrown := Error (lit "Unexpected token in JSON").

(** [await req.formData()]. *)
Definition req_formData (req : Request) : M FormData :=
  fun σ => (formData req, σ).

(** The history of the request: [[]], unless the field is a non-empty
    string, which goes through [JSON.parse]; when that throws, the error is
    logged and the history stays [[]]. *)
Definition read_history (historyStr : option FormDataEntryValue) : M json :=
  match historyStr with
  | Some (StringEntry historyStr) =>
      if JsString.truthy historyStr then
        match JSON.parse historyStr with
        | Some parsed => mret parsed
        | None =>
            console_error (lit "History parsing error:") JSON_SyntaxError;;
            mret (JArray [])
        end
      else mret (JArray [])
  | Some FileEntry | None => mret (JArray [])
  end.

Section Route.

Variable openai : Provider.

Definition openai_chat_completions_create (params : ChatParams)
  : M (option jsstring) :=
  await openai (chat_completions_create params)
    (fun before => chat_reply openai before params).

Definition openai_images_generate (prompt : jsstring) : M (option jsstring) :=
  await openai (images_generate prompt)
    (fun before => image_reply openai before prompt).

Definition openai_audio_speech_create (voice : Voice) (input : jsstring)
  : M (list N) :=
  await openai (audio_speech_create voice input)
    (fun before => speech_reply openai before voice input).

(** The [catch] clause [generateImage] and [generateAudio] share. *)
Definition media_catch (label : jsstring) (error : thrown) : M jsstring :=
  console_error label error;;
  if APIError_with_code error unsupported_country_region_territory
  then throw (Error REGION_ERROR)
  else throw (Error MEDIA_ERROR).

Definition generateImage (prompt : jsstring) : M jsstring :=
  let cacheKey := generateCacheKey prompt image in
  let generate : M jsstring :=
    try_catch
      (response ← openai_images_generate prompt;
       base64Image ← or_NO_RESPONSE response;
       now ← Date_now;
       responseCache_set cacheKey {| data := base64Image; timestamp := now |};;
       mret base64Image)
      (media_catch (lit "Image generation error:")) in
  cached ← responseCache_get cacheKey;
  match cached with
  | Some cached =>
      now ← Date_now;
      if now - timestamp cached <? CACHE_TTL then mret (data cached)
      else generate
  | None => generate
  end.

Definition generateAudio (text : jsstring) : M jsstring :=
  let cacheKey := generateCacheKey text audio in
  let generate : M jsstring :=
    try_catch
      (let voice := voice_for text in
       mp3Response ← openai_audio_speech_create voice text;
       let base64Audio := JsString.base64 mp3Response in
       now ← Date_now;
       responseCache_set cacheKey {| data := base64Audio; timestamp := now |};;
       mret base64Audio)
      (media_catch (lit "Audio generation error:")) in
  cached ← responseCache_get cacheKey;
  match cached with
  | Some cached =>
      now ← Date_now;
      if now - timestamp cached <? CACHE_TTL then mret (data cached)
      else generate
  | None => generate
  end.

Definition region_envelope : Envelope :=
  {| type := text; content := REGION_ERROR; url := None |}.

(** The [catch] clause around each of the two-stage flows. *)
Definition flow_catch (error : thrown) : M Envelope :=
  if Error_with_message error REGION_ERROR then mret region_envelope
  else throw error.

Definition generateText (prompt : jsstring) (history : json) : M Envelope :=
  try_catch
    (recentHistory ← slice_minus_5 history;
     if isImageRequest prompt then
       try_catch
         (earlier ← spread recentHistory;
          imagePromptResponse ← openai_chat_completions_create
            {| model := gpt_3_5_turbo;
               messages := earlier ++
                 [user_message prompt;
                  system_message imagePrompt_instruction (lit "imagePrompt")];
               max_tokens := 150 |};
          imagePrompt ← or_NO_RESPONSE imagePromptResponse;
          imageBase64 ← generateImage imagePrompt;
          mret {| type := image;
                  content := lit "Here's the generated image based on your request.";
                  url := Some (lit "data:image/png;base64," ++ imageBase64) |})
         flow_catch
     else if isAudioRequest prompt then
       try_catch
         (earlier ← spread recentHistory;
          textResponse ← openai_chat_completions_create
            {| model := gpt_3_5_turbo;
               messages := earlier ++
                 [user_message prompt;
                  system_message audioPrompt_instruction (lit "audioPrompt")];
               max_tokens := 150 |};
          textContent ← or_NO_RESPONSE textResponse;
          audioBase64 ← generateAudio textContent;
          mret {| type := audio;
                  content := textContent;
                  url := Some (lit "data:audio/mp3;base64," ++ audioBase64) |})
         flow_catch
     else
       earlier ← spread recentHistory;
       completion ← openai_chat_completions_create
         {| model := gpt_3_5_turbo;
            messages := earlier ++ [user_message prompt];
            max_tokens := 500 |};
       content ← or_NO_RESPONSE completion;
       mret {| type := text; content := content; url := None |})
    (fun error =>
       console_error (lit "Text generation error:") error;;
       if APIError_with_code error unsupported_country_region_territory
       then mret region_envelope
       else throw error).

(** *** The endpoint *)

(** [NextResponse.json(body, {status})].  The status goes through the
    conversion to an unsigned 16-bit integer; the [Response] constructor
    then refuses a status outside 200..599 with a [RangeError] and a
    null-body status (204, 205, 304) with a [TypeError] (undici's wording).
    Without
    [init] the status is 200. *)
Definition NextResponse_json (body : ResponseBody) (init_status : option Z)
  : M NextResponse :=
  let status := match init_status with
                | Some s => s mod 65536
                | None => 200
                end in
  if (status <? 200) || (599 <? status) then
    throw (Error (dq "init['status'] must be in the range of 200 to 599, inclusive."))
  else if status =? 204 then
    throw (Error (lit "Response constructor: Invalid response status code 204"))
  else if status =? 205 then
    throw (Error (lit "Response constructor: Invalid response status code 205"))
  else if status =? 304 then
    throw (Error (lit "Response constructor: Invalid response status code 304"))
  else mret {| status := status; body := body |}.

(** [error.status || 500]. *)
Definition status_or_500 (status : option Z) : Z :=
  match status with
  | Some s => if s =? 0 then 500 else s
  | None => 500
  end.

(** The [catch] clause around the call of [generateText]. *)
Definition generation_catch (error : thrown) : M NextResponse :=
  console_error (lit "Generation error:") error;;
  match error with
  | APIError status code _ =>
      let errorMessage := MODEL_ERROR in
      let errorMessage :=
        if bool_decide (status = Some 401) then INVALID_API_KEY
        else errorMessage in
      let errorMessage :=
        if bool_decide (status = Some 429) then RATE_LIMIT
        else errorMessage in
      if bool_decide (code = Some content_policy_violation) then
        NextResponse_json (body_error CONTENT_POLICY) (Some 400)
      else
        let errorMessage :=
          if bool_decide (code = Some unsupported_country_region_territory)
          then REGION_ERROR else errorMessage in
        NextResponse_json (body_error errorMessage)
          (Some (status_or_500 status))
  | Error _ | NonError =>
      NextResponse_json
        (body_error (default PROCESSING_ERROR (Error_message error)))
        (Some 500)
  end.

(** The outermost [catch] clause of the handler. *)
Definition POST_catch (error : thrown) : M NextResponse :=
  console_error (lit "Chat API Error:") error;;
  NextResponse_json
    (body_error (default PROCESSING_ERROR (Error_message error)))
    (Some 500).

Definition POST (req : Request) : M NextResponse :=
  try_catch
    (key ← process_env_OPENAI_API_KEY;
     if negb (from_option JsString.truthy false key) then
       NextResponse_json (body_error MISSING_API_KEY) (Some 500)
     else
       formData ← req_formData req;
       let invalid := NextResponse_json (body_error INVALID_REQUEST) (Some 400) in
       match message formData with
       | None => invalid
       | Some FileEntry => invalid
       | Some (StringEntry message) =>
           if negb (JsString.truthy message)
              || negb (JsString.truthy (JsString.trim message))
           then invalid
           else
             history ← read_history (history formData);
             try_catch
               (response ← generateText message history;
                NextResponse_json (body_envelope response) None)
               generation_catch
       end)
    POST_catch.

End Route.

(** ** Vocabulary of the statements *)

(** The time comparison of a cache lookup. *)
Definition fresh (σ : Server) (entry : CacheEntry) : bool :=
  clock σ - timestamp entry <? CACHE_TTL.

(** A lookup finds nothing usable: no entry, or a stale one. *)
Definition miss (σ : Server) (key : jsstring) : Prop :=
  match responseCache σ !! key with
  | Some entry => fresh σ entry = false
  | None => True
  end.

(** The exchanges of a run that took the server from [σ] to [σ']. *)
Definition exchanged (σ σ' : Server) : list Exchange :=
  drop (length (upstream σ)) (upstream σ').

(** A history [slice] works on: an array or a string. *)
Definition sliceable (history : json) : Prop :=
  match history with
  | JArray _ | JString _ => True
  | JNull | JBool _ | JNumber _ | JObject _ => False
  end.

(** What [...history.slice(-5)] puts in front of the user's message. *)
Definition recent_messages (history : json) : list json :=
  match history with
  | JArray items => JsString.slice_last 5 items
  | JString s => JString <$> JsString.code_points (JsString.slice_last 5 s)
  | JNull | JBool _ | JNumber _ | JObject _ => []
  end.

(** The completion request that opens a two-stage flow. *)
Definition stage_one (history : json) (prompt instruction name : jsstring)
  : ChatParams :=
  {| model := gpt_3_5_turbo;
     messages := recent_messages history ++
                 [user_message prompt; system_message instruction name];
     max_tokens := 150 |}.

Definition image_stage_one (history : json) (prompt : jsstring) : ChatParams :=
  stage_one history prompt imagePrompt_instruction (lit "imagePrompt").

Definition audio_stage_one (history : json) (prompt : jsstring) : ChatParams :=
  stage_one history prompt audioPrompt_instruction (lit "audioPrompt").

Definition is_chat (x : Exchange) : Prop :=
  match call x with
  | chat_completions_create _ => True
  | images_generate _ | audio_speech_create _ _ => False
  end.

(** An exchange of the image flow: a completion request closed by the
    image instruction, or an image synthesis; never speech. *)
Definition image_flow (x : Exchange) : Prop :=
  match call x with
  | chat_completions_create params =>
      last (messages params)
      = Some (system_message imagePrompt_instruction (lit "imagePrompt"))
  | images_generate _ => True
  | audio_speech_create _ _ => False
  end.

(** The provider raised the region restriction in this exchange. *)
Definition region_raised (x : Exchange) : Prop :=
  exists status message,
    raised x
    = Some (APIError status (Some unsupported_country_region_territory) message).

(** The [message] field fails the handler's test: missing, a file, or
    nothing but white space. *)
Definition invalid_message (message : option FormDataEntryValue) : Prop :=
  match message with
  | None | Some FileEntry => True
  | Some (StringEntry s) => JsString.trim s = []
  end.

(** The server has its credential and the form carries a message that
    passes the test. *)
Definition accepted (σ : Server) (req : Request) (form : FormData)
    (prompt : jsstring) : Prop :=
  from_option JsString.truthy false (OPENAI_API_KEY σ) = true
  /\ formData req = Return form
  /\ message form = Some (StringEntry prompt)
  /\ JsString.trim prompt <> [].

(** The history [read_history] comes back with. *)
Definition history_value (historyStr : option FormDataEntryValue) : json :=
  match historyStr with
  | Some (StringEntry historyStr) =>
      if JsString.truthy historyStr
      then default (JArray []) (JSON.parse historyStr)
      else JArray []
  | Some FileEntry | None => JArray []
  end.

(** A status the [Response] constructor takes with a body. *)
Definition response_status (status : Z) : Prop :=
  200 <= status <= 599 /\ status <> 204 /\ status <> 205 /\ status <> 304.

(** Two servers that differ in their console at most. *)
Definition same_but_console (σ1 σ2 : Server) : Prop :=
  OPENAI_API_KEY σ1 = OPENAI_API_KEY σ2
  /\ responseCache σ1 = responseCache σ2
  /\ clock σ1 = clock σ2
  /\ upstream σ1 = upstream σ2.

(** A computation that does not read the console. *)
Definition console_blind {A : Type} (m : M A) : Prop :=
  forall σ1 σ2, same_but_console σ1 σ2 ->
    (m σ1).1 = (m σ2).1 /\ same_but_console (m σ1).2 (m σ2).2.

(** A computation that removes no key from the cache. *)
Definition keeps_keys {A : Type} (m : M A) : Prop :=
  forall σ k,
    is_Some (responseCache σ !! k) -> is_Some (responseCache (m σ).2 !! k).

(** ** Sample servers, providers and requests *)

Module Sample.

Definition server : Server :=
  {| OPENAI_API_KEY := Some (lit "sk-sample");
     responseCache := ∅;
     clock := 1000;
     upstream := [];
     console := [] |}.

(** The environment variable is set, to the empty string. *)
Definition server_with_empty_key : Server :=
  {| OPENAI_API_KEY := Some [];
     responseCache := ∅;
     clock := 1000;
     upstream := [];
     console := [] |}.

(** Answers every call, each in a quarter of a second. *)
Definition provider : Provider :=
  {| chat_reply := fun _ _ => Return (Some (lit "A red fox!"));
     image_reply := fun _ _ => Return (Some (lit "QUJD"));
     speech_reply := fun _ _ _ => Return [77; 97; 110]%N;
     elapsed := fun _ _ => 250%N |}.

(** Describes a cat when the conversation is new and a dog otherwise. *)
Definition moody_provider : Provider :=
  {| chat_reply := fun _ params =>
       match messages params with
       | [_; _] => Return (Some (lit "A cat"))
       | _ => Return (Some (lit "A dog"))
       end;
     image_reply := fun _ prompt => Return (Some (lit "cGl4" ++ prompt));
     speech_reply := fun _ _ _ => Return [77; 97; 110]%N;
     elapsed := fun _ _ => 250%N |}.

Definition region_error : thrown :=
  APIError (Some 403) (Some unsupported_country_region_territory)
    (lit "Country, region, or territory not supported").

(** Completes the text, then refuses the media for the region. *)
Definition region_blocked_provider : Provider :=
  {| chat_reply := fun _ _ => Return (Some (lit "A red fox!"));
     image_reply := fun _ _ => Throw region_error;
     speech_reply := fun _ _ _ => Throw region_error;
     elapsed := fun _ _ => 250%N |}.

(** Answers the completion with no content. *)
Definition silent_provider : Provider :=
  {| chat_reply := fun _ _ => Return None;
     image_reply := fun _ _ => Return None;
     speech_reply := fun _ _ _ => Return [];
     elapsed := fun _ _ => 250%N |}.

(** Refuses the completion with a status the handler has no entry for. *)
Definition overloaded_provider : Provider :=
  {| chat_reply := fun _ _ =>
       Throw (APIError (Some 503) None (lit "The server is overloaded"));
     image_reply := fun _ _ => Return None;
     speech_reply := fun _ _ _ => Return [];
     elapsed := fun _ _ => 250%N |}.

Definition form (message : jsstring) (history : option jsstring) : FormData :=
  {| message := Some (StringEntry message);
     history := StringEntry <$> history |}.

Definition request (message : jsstring) (history : option jsstring) : Request :=
  {| formData := Return (form message history) |}.

Definition stale_entry : CacheEntry :=
  {| data := lit "b2xk"; timestamp := 1000 - 300000 |}.

Definition recent_entry : CacheEntry :=
  {| data := lit "bmV3"; timestamp := 1000 - 299999 |}.

(** A recent image and a stale recording under the same text. *)
Definition cached_server : Server :=
  {| OPENAI_API_KEY := Some (lit "sk-sample");
     responseCache :=
       <[generateCacheKey (lit "a fox") image := recent_entry]>
         (<[generateCacheKey (lit "a fox") audio := stale_entry]> ∅);
     clock := 1000;
     upstream := [];
     console := [] |}.

(** The server once the sample provider has drawn a first picture. *)
Definition after_first_drawing : Server :=
  (generateText provider (lit "draw a picture") (JArray []) server).2.

Definition pet_prompt : jsstring := lit "draw a picture of a pet".

Definition dog_history : jsstring :=
  dq "[{'role':'user','content':'I like dogs'}]".

(** The server once the moody provider has drawn a pet for a new
    conversation. *)
Definition after_first_pet : Server :=
  (POST moody_provider (request pet_prompt None) server).2.

End Sample.

(** ** Vocabulary of the further properties *)

(** Every value the computation returns satisfies [Q]. *)
Definition answers {A : Type} (Q : A -> Prop) (m : M A) : Prop :=
  forall σ r σ', m σ = (Return r, σ') -> Q r.

(** A response the runtime accepts and a client can read: a status from
    200 to 599, and an envelope only under status 200. *)
Definition well_formed_response (response : NextResponse) : Prop :=
  response_status (status response)
  /\ match body response with
     | body_envelope _ => status response = 200
     | body_error _ => True
     end.

(** The completion request of the text flow: the recent history and the
    user's message, no system message. *)
Definition text_request (history : json) (prompt : jsstring) : ChatParams :=
  {| model := gpt_3_5_turbo;
     messages := recent_messages history ++ [user_message prompt];
     max_tokens := 500 |}.

(** The completion request [generateText] opens with, by the intent of
    the prompt. *)
Definition first_request (history : json) (prompt : jsstring) : ChatParams :=
  if isImageRequest prompt then image_stage_one history prompt
  else if isAudioRequest prompt then audio_stage_one history prompt
  else text_request history prompt.

Definition is_media (x : Exchange) : Prop :=
  match call x with
  | chat_completions_create _ => False
  | images_generate _ | audio_speech_create _ _ => True
  end.

(** No exchange; one completion; or one completion that did not throw
    and then one synthesis. *)
Definition one_or_two_exchanges (l : list Exchange) : Prop :=
  l = []
  \/ (exists x, l = [x] /\ is_chat x)
  \/ (exists x y, l = [x; y] /\ is_chat x /\ raised x = None /\ is_media y).

(** The [url] of a media envelope. *)
Definition data_url (kind : ResponseType) (payload : jsstring) : jsstring :=
  match kind with
  | image => lit "data:image/png;base64," ++ payload
  | audio => lit "data:audio/mp3;base64," ++ payload
  | text => payload
  end.

(** The cache after a run is the cache before it, or the cache before it
    with the payload of the media envelope the run returned stored under
    a key of that kind, dated at the end of the run. *)
Definition cache_written (σ σ' : Server) (result : completion Envelope)
  : Prop :=
  responseCache σ' = responseCache σ
  \/ exists kind key_text payload response,
       (kind = image \/ kind = audio)
       /\ responseCache σ'
          = <[generateCacheKey key_text kind
              := {| data := payload; timestamp := clock σ' |}]>
              (responseCache σ)
       /\ result = Return response
       /\ type response = kind
       /\ url response = Some (data_url kind payload).

(** The flow [generateText] takes: the image test comes first, the audio
    test is read only when it fails, and text is what is left. *)
Definition intent (prompt : jsstring) : ResponseType :=
  if isImageRequest prompt then image
  else if isAudioRequest prompt then audio
  else text.

(** The server [ms] milliseconds later, nothing else having happened. *)
Definition after_idle (ms : Z) (σ : Server) : Server :=
  {| OPENAI_API_KEY := OPENAI_API_KEY σ;
     responseCache := responseCache σ;
     clock := clock σ + ms;
     upstream := upstream σ;
     console := console σ |}.

(** Equal code unit by code unit, letter case apart: what a pattern with
    the [i] flag takes for the same text. *)
Definition same_letters (a b : jsstring) : Prop :=
  Forall2 (fun x y => JsString.canonicalize x = JsString.canonicalize y) a b.

(** Equal but for the case of the ASCII letters, code units outside ASCII
    standing at the same places, whichever they are. *)
Definition same_ascii_letters (a b : jsstring) : Prop :=
  Forall2 (fun x y => JsString.canonicalize x = JsString.canonicalize y
                      \/ (128 <= x /\ 128 <= y)%N) a b.

(** [word] stands somewhere in [s], letter case apart. *)
Definition occurs (word s : jsstring) : Prop :=
  exists before mid after, s = before ++ mid ++ after /\ same_letters word mid.

(** ** The message view: [formatMessageContent] *)

(** [s.startsWith(prefix)] and [s.endsWith(suffix)], code unit by code
    unit. *)
Fixpoint starts_with (prefix s : jsstring) : bool :=
  match prefix, s with
  | [], _ => true
  | p :: prefix', c :: s' => (p =? c)%N && starts_with prefix' s'
  | _ :: _, [] => false
  end.

Definition ends_with (suffix s : jsstring) : bool :=
  (length suffix <=? length s)%nat
  && bool_decide (JsString.slice_last (length suffix) s = suffix).

Module ChatMessage.

(** The grave accent is the code unit 96; a fence is three of them. *)
Definition backtick : N := 96.
Definition fence : jsstring := [backtick; backtick; backtick].

(** The lazy [[\s\S]*?```] of both patterns: the text up to the first
    place where a fence stands, and the text after that fence. *)
Fixpoint find_fence (s : jsstring) : option (jsstring * jsstring) :=
  if starts_with fence s then Some ([], drop 3 s)
  else match s with
       | [] => None
       | c :: s' => prod_map (cons c) id <$> find_fence s'
       end.

(** One sticky attempt of [/(```[\s\S]*?```)/] at the start of [s]: the
    matched text, which is also its only capture, and what follows it. *)
Definition fenced_here (s : jsstring) : option (jsstring * jsstring) :=
  if starts_with fence s then
    '(inner, rest) ← find_fence (drop 3 s);
    Some (fence ++ inner ++ fence, rest)
  else None.

(** The loop of [String.prototype.split] with that pattern: [pending] is
    the text between the end [p] of the last match and the position [q]
    under test, [s] the text from [q] on.  A match pushes the pending
    text and the capture and restarts after the match; no match moves
    [q] one code unit on; at the end of the text the pending text is
    pushed.  Every round consumes at least one code unit, so one unit of
    [fuel] more than the length of [s] is never used up. *)
Fixpoint split_loop (fuel : nat) (pending s : jsstring) : list jsstring :=
  match fuel with
  | O => []
  | S fuel' =>
      match fenced_here s with
      | Some (matched, rest) => pending :: matched :: split_loop fuel' [] rest
      | None =>
          match s with
          | [] => [pending]
          | c :: s' => split_loop fuel' (pending ++ [c]) s'
          end
      end
  end.

Definition split_from (pending s : jsstring) : list jsstring :=
  split_loop (S (length s)) pending s.

(** [content.split(/(```[\s\S]*?```)/g)]. *)
Definition split_fences (content : jsstring) : list jsstring :=
  split_from [] content.

(** [\w] without the [i] and [u] flags: a letter, a digit or the low
    line. *)
Definition is_word (c : N) : bool :=
  (((48 <=? c) && (c <=? 57)) || ((65 <=? c) && (c <=? 90)) || (c =? 95)
   || ((97 <=? c) && (c <=? 122)))%N.

(** The longest run of word characters at the start of [s], and the
    rest. *)
Fixpoint word_run (s : jsstring) : jsstring * jsstring :=
  match s with
  | c :: s' =>
      if is_word c then let '(word, rest) := word_run s' in (c :: word, rest)
      else ([], s)
  | [] => ([], [])
  end.

(** [part.match(/^```(\w+)?\n([\s\S]*?)```$/)]: the captures 1 and 2 of a
    match.  The greedy [(\w+)?] can only be followed by the line feed
    after the whole run of word characters, and takes part in the match
    only when that run is not empty; the lazy body can only stop three
    code units before the end of the text, where the last fence is. *)
Definition match_block (part : jsstring)
  : option (option jsstring * jsstring) :=
  if starts_with fence part then
    let '(word, rest) := word_run (drop 3 part) in
    match rest with
    | 10%N :: body =>
        if ends_with fence body
        then Some (if JsString.truthy word then Some word else None,
                   take (length body - 3) body)
        else None
    | _ => None
    end
  else None.

(** [part.slice(3, -3)]. *)
Definition slice_3_minus_3 (part : jsstring) : jsstring :=
  drop 3 (take (length part - 3) part).

(** What a part is rendered as; the [key] of an element is its place in
    the list. *)
Inductive Element : Type :=
  | CodeBlock (code : jsstring) (language : option jsstring)
  | Paragraph (text : jsstring).

Definition format_part (part : jsstring) : Element :=
  if starts_with fence part && ends_with fence part then
    let match_ := match_block part in
    let language := match_ ≫= fst in
    let code :=
      match snd <$> match_ with
      | Some body => if JsString.truthy body then body
                     else slice_3_minus_3 part
      | None => slice_3_minus_3 part
      end in
    CodeBlock code language
  else Paragraph part.

Definition formatMessageContent (content : jsstring) : list Element :=
  format_part <$> split_fences content.

Definition is_code (element : Element) : Prop :=
  match element with CodeBlock _ _ => True | Paragraph _ => False end.

(** An odd number of elements, every second one a code block. *)
Fixpoint alternating (elements : list Element) : Prop :=
  match elements with
  | [_] => True
  | _ :: block :: elements' => is_code block /\ alternating elements'
  | [] => False
  end.

Definition newline : jsstring := [10%N].

End ChatMessage.

(** ** The input form: the handlers of [ChatInput]

    The state of the component is the record of its [useState] cells and
    refs.  An event is handled on the state the previous event left: the
    handlers are those of the latest render. *)

Module ChatInput.

(** A [Blob], of which a [File] is one: only its size in bytes and its
    media type are looked at. *)
Record Blob : Type := { size : N; type : jsstring }.

Record State : Type := {
  input : jsstring;
  mediaFile : option Blob;
  isRecording : bool;
  preview : option jsstring;
  microphoneAvailable : bool;
  mediaRecorderRef : bool;
  chunksRef : list Blob
}.

(** What a handler does outside the state of the component. *)
Inductive Effect : Type :=
  | onSend (message : jsstring) (file : option Blob)
  | console_error (text : jsstring)
  | readAsDataURL (file : Blob)
  | recorder_start
  | recorder_stop
  | reset_file_input.

Definition initial : State :=
  {| input := []; mediaFile := None; isRecording := false; preview := None;
     microphoneAvailable := true; mediaRecorderRef := false;
     chunksRef := [] |}.

Definition set_input (value : jsstring) (s : State) : State :=
  {| input := value; mediaFile := mediaFile s; isRecording := isRecording s;
     preview := preview s; microphoneAvailable := microphoneAvailable s;
     mediaRecorderRef := mediaRecorderRef s; chunksRef := chunksRef s |}.

Definition set_mediaFile (file : option Blob) (s : State) : State :=
  {| input := input s; mediaFile := file; isRecording := isRecording s;
     preview := preview s; microphoneAvailable := microphoneAvailable s;
     mediaRecorderRef := mediaRecorderRef s; chunksRef := chunksRef s |}.

Definition set_isRecording (b : bool) (s : State) : State :=
  {| input := input s; mediaFile := mediaFile s; isRecording := b;
     preview := preview s; microphoneAvailable := microphoneAvailable s;
     mediaRecorderRef := mediaRecorderRef s; chunksRef := chunksRef s |}.

Definition set_preview (p : option jsstring) (s : State) : State :=
  {| input := input s; mediaFile := mediaFile s; isRecording := isRecording s;
     preview := p; microphoneAvailable := microphoneAvailable s;
     mediaRecorderRef := mediaRecorderRef s; chunksRef := chunksRef s |}.

Definition set_microphoneAvailable (b : bool) (s : State) : State :=
  {| input := input s; mediaFile := mediaFile s; isRecording := isRecording s;
     preview := preview s; microphoneAvailable := b;
     mediaRecorderRef := mediaRecorderRef s; chunksRef := chunksRef s |}.

(** [mediaRecorderRef.current = mediaRecorder; chunksRef.current = []]. *)
Definition set_recorder (chunks : list Blob) (s : State) : State :=
  {| input := input s; mediaFile := mediaFile s; isRecording := isRecording s;
     preview := preview s; microphoneAvailable := microphoneAvailable s;
     mediaRecorderRef := true; chunksRef := chunks |}.

(** The guard is [(input.trim() || mediaFile) && !isLoading]. *)
Definition handleSubmit (isLoading : bool) (s : State)
  : State * list Effect :=
  if (JsString.truthy (JsString.trim (input s))
      || bool_decide (is_Some (mediaFile s)))
     && negb isLoading
  then (set_preview None (set_mediaFile None (set_input [] s)),
        [onSend (input s) (mediaFile s)])
  else (s, []).

Definition handleKeyDown (key : jsstring) (shiftKey isLoading : bool)
    (s : State) : State * list Effect :=
  if bool_decide (key = lit "Enter") && negb shiftKey
  then handleSubmit isLoading s
  else (s, []).

(** [e.target.files?.[0]] is the head of the list of files. *)
Definition handleFileChange (files : list Blob) (s : State)
  : State * list Effect :=
  match files with
  | [] => (s, [])
  | file :: _ =>
      if (5 * 1024 * 1024 <? size file)%N
      then (s, [console_error (lit "File size exceeds 5MB limit")])
      else (set_mediaFile (Some file) s,
            if starts_with (lit "image/") (type file)
            then [readAsDataURL file] else [])
  end.

(** [reader.onload]. *)
Definition reader_onload (result : jsstring) (s : State) : State :=
  set_preview (Some result) s.

(** How far [startRecording] gets: [getUserMedia] or the constructor of
    the recorder throws, before anything is assigned; [start] throws,
    after the two refs are assigned; or nothing throws. *)
Inductive Attempt : Type := no_recorder | start_failed | started.

Definition startRecording (attempt : Attempt) (s : State)
  : State * list Effect :=
  match attempt with
  | no_recorder =>
      (set_microphoneAvailable false s,
       [console_error (lit "Error accessing microphone:")])
  | start_failed =>
      (set_microphoneAvailable false (set_recorder [] s),
       [console_error (lit "Error accessing microphone:")])
  | started =>
      (set_isRecording true (set_recorder [] s), [recorder_start])
  end.

(** [mediaRecorder.ondataavailable] and [mediaRecorder.onstop]. *)
Definition ondataavailable (data : Blob) (s : State) : State :=
  {| input := input s; mediaFile := mediaFile s; isRecording := isRecording s;
     preview := preview s; microphoneAvailable := microphoneAvailable s;
     mediaRecorderRef := mediaRecorderRef s;
     chunksRef := chunksRef s ++ [data] |}.

(** [new Blob(chunks, { type })]: the chunks one after the other. *)
Definition new_Blob (chunks : list Blob) (type_ : jsstring) : Blob :=
  {| size := foldr (fun chunk total => (size chunk + total)%N) 0%N chunks;
     type := type_ |}.

Definition onstop (s : State) : State :=
  set_mediaFile (Some (new_Blob (chunksRef s) (lit "audio/webm"))) s.

Definition stopRecording (s : State) : State * list Effect :=
  if mediaRecorderRef s && isRecording s
  then (set_isRecording false s, [recorder_stop])
  else (s, []).

Definition clearMedia (s : State) : State * list Effect :=
  (set_preview None (set_mediaFile None s), [reset_file_input]).

(** The [disabled] attributes of the send, attach and microphone
    buttons. *)
Definition send_disabled (isLoading : bool) (s : State) : bool :=
  isLoading
  || (negb (JsString.truthy (JsString.trim (input s)))
      && negb (bool_decide (is_Some (mediaFile s)))).

Definition attach_disabled (isLoading : bool) (s : State) : bool :=
  isLoading || isRecording s.

Definition microphone_disabled (isLoading : bool) (s : State) : bool :=
  isLoading || bool_decide (is_Some (mediaFile s))
  || negb (microphoneAvailable s).

(** What can happen to the component: the answer of the microphone
    probe made on mounting, the events of the form with the [isLoading]
    it is rendered with at that time, and the callbacks of the file
    reader and of the recorder. *)
Inductive Event : Type :=
  | Probe (available : bool)
  | Change (value : jsstring)
  | Submit (isLoading : bool)
  | KeyDown (key : jsstring) (shiftKey isLoading : bool)
  | FileChange (files : list Blob)
  | ReaderLoad (result : jsstring)
  | StartRecording (attempt : Attempt)
  | StopRecording
  | DataAvailable (data : Blob)
  | RecorderStop
  | ClearMedia.

Definition handle (event : Event) (s : State) : State * list Effect :=
  match event with
  | Probe available => (set_microphoneAvailable available s, [])
  | Change value => (set_input value s, [])
  | Submit isLoading => handleSubmit isLoading s
  | KeyDown key shiftKey isLoading => handleKeyDown key shiftKey isLoading s
  | FileChange files => handleFileChange files s
  | ReaderLoad result => (reader_onload result s, [])
  | StartRecording attempt => startRecording attempt s
  | StopRecording => stopRecording s
  | DataAvailable data => (ondataavailable data s, [])
  | RecorderStop => (onstop s, [])
  | ClearMedia => clearMedia s
  end.

(** The events one after the other, each on the state the previous one
    left, and the effects in order. *)
Fixpoint run (events : list Event) (s : State) : State * list Effect :=
  match events with
  | [] => (s, [])
  | event :: events' =>
      let '(s', effects) := handle event s in
      let '(s'', effects') := run events' s' in
      (s'', effects ++ effects')
  end.

(** A file the picker lets through, or a recording. *)
Definition within_limit_or_recording (file : Blob) : Prop :=
  (size file <= 5242880)%N \/ type file = lit "audio/webm".

Definition sample_photo : Blob :=
  {| size := 204800; type := lit "image/png" |}.

Definition sample_draft : State := set_input (lit "hi") initial.

End ChatInput.

(** ** More sample data *)

Module Scenario.

(** A request whose body cannot be decoded as form data. *)
Definition broken_request : Request :=
  {| formData := Throw (Error (lit "Failed to parse body as FormData.")) |}.

(** Refuses every call for the region. *)
Definition region_locked_provider : Provider :=
  {| chat_reply := fun _ _ => Throw Sample.region_error;
     image_reply := fun _ _ => Throw Sample.region_error;
     speech_reply := fun _ _ _ => Throw Sample.region_error;
     elapsed := fun _ _ => 250%N |}.

(** Refuses the completion for the credential. *)
Definition unauthorized_provider : Provider :=
  {| chat_reply := fun _ _ =>
       Throw (APIError (Some 401) (Some (lit "invalid_api_key"))
                (lit "Incorrect API key provided"));
     image_reply := fun _ _ => Return None;
     speech_reply := fun _ _ _ => Return [];
     elapsed := fun _ _ => 250%N |}.

(** Completes the text, then returns no image and fails the speech. *)
Definition failing_media_provider : Provider :=
  {| chat_reply := fun _ _ => Return (Some (lit "A red fox!"));
     image_reply := fun _ _ => Return None;
     speech_reply := fun _ _ _ => Throw (Error (lit "socket hang up"));
     elapsed := fun _ _ => 250%N |}.

(** Refuses the completion with a status no response with a body can
    carry. *)
Definition not_modified_provider : Provider :=
  {| chat_reply := fun _ _ =>
       Throw (APIError (Some 304) None (lit "Not Modified"));
     image_reply := fun _ _ => Return None;
     speech_reply := fun _ _ _ => Return [];
     elapsed := fun _ _ => 250%N |}.

(** The same request in capitals, and in small letters. *)
Definition shouted_prompt : jsstring :=
  lit "DRAW A PICTURE OF A CAF" ++ [201%N].
Definition quiet_prompt : jsstring :=
  lit "draw a picture of a caf" ++ [233%N].

Definition speak_prompt : jsstring := lit "Do you speak French?".
Definition photo_prompt : jsstring :=
  lit "show me a photo of people who speak French".

Definition fox_prompt : jsstring := lit "draw a picture of a fox".

Definition voice_prompt : jsstring := lit "say it with your voice".

End Scenario.

(** * Properties *)

#[local] Arguments generateCacheKey : simpl never.
#[local] Arguments isImageRequest : simpl never.
#[local] Arguments isAudioRequest : simpl never.
#[local] Arguments voice_for : simpl never.
#[local] Arguments JsString.base64 : simpl never.
#[local] Arguments JsString.slice_last : simpl never.
#[local] Arguments JsString.code_points : simpl never.
#[local] Arguments JsString.trim : simpl never.
#[local] Arguments JSON.parse : simpl never.
#[local] Arguments Z.sub : simpl never.
#[local] Arguments Z.add : simpl never.
#[local] Arguments Z.ltb : simpl never.
#[local] Arguments Z.modulo : simpl never.
#[local] Arguments generateImage : simpl never.
#[local] Arguments generateAudio : simpl never.
#[local] Arguments generateText : simpl never.
Opaque lit.

(** Unfolding the monad down to functions on states. *)
Ltac run :=
  unfold try_catch, mbind, M_bind, mret, M_ret, throw, await,
    responseCache_get, responseCache_set, Date_now, console_error,
    process_env_OPENAI_API_KEY, req_formData in *;
  simpl in *.

Ltac cases := repeat (case_match; simplify_eq/=).

(** ** Strings and lists *)

Lemma includes_unit_spec (c : N) (s : jsstring) :
  JsString.includes_unit c s = true <-> c ∈ s.
Proof.
  unfold JsString.includes_unit. rewrite existsb_exists. split.
  - intros (x & Hin & Heq). apply N.eqb_eq in Heq. subst x.
    now apply list_elem_of_In.
  - intros Hin. exists c. split; [now apply list_elem_of_In | apply N.eqb_refl].
Qed.

Lemma slice_last_length {A : Type} (n : nat) (l : list A) :
  (length (JsString.slice_last n l) <= n)%nat.
Proof. unfold JsString.slice_last. rewrite length_drop. lia. Qed.

Lemma slice_last_suffix {A : Type} (n : nat) (l : list A) :
  exists earlier, l = earlier ++ JsString.slice_last n l.
Proof.
  unfold JsString.slice_last. exists (take (length l - n) l).
  now rewrite take_drop.
Qed.

(** ** The parser never runs out of fuel *)

Section Fuel.

Local Open Scope nat_scope.

Lemma skip_ws_length (s : jsstring) : length (skip_ws s) <= length s.
Proof.
  induction s as [|c s IH]; simpl; [lia|].
  destruct (is_ws c); simpl; lia.
Qed.

Lemma digits_length (s : jsstring) : length (digits s).2 <= length s.
Proof.
  induction s as [|c s IH]; simpl; [lia|].
  destruct (is_digit c); simpl; [|lia].
  destruct (digits s) as [ds r]. simpl in *. lia.
Qed.

Lemma push_parsed c p str r :
  push c p = Parsed str r -> exists str', p = Parsed str' r.
Proof. destruct p; simpl; intros [= <- <-] || intros [=]; eauto. Qed.

Lemma push_fuel c p : push c p = OutOfFuel -> p = OutOfFuel.
Proof. now destruct p. Qed.

Lemma string_body_fuel (s : jsstring) : string_body s <> OutOfFuel.
Proof.
  induction s as [s IH] using (induction_ltof1 _ (@length N)).
  unfold ltof in IH.
  destruct s as [|c r]; simpl; [done|].
  repeat case_match; try done; intros Hpush%push_fuel; revert Hpush;
    apply IH; simpl; lia.
Qed.

Lemma string_body_length (s : jsstring) str r :
  string_body s = Parsed str r -> length r < length s.
Proof.
  revert str r.
  induction s as [s IH] using (induction_ltof1 _ (@length N)).
  unfold ltof in IH. intros str r.
  destruct s as [|c s']; simpl; [done|].
  repeat case_match; try done; intros Heq;
    first
      [ injection Heq as <- <-; simpl; lia
      | apply push_parsed in Heq as (str' & Hpush); apply IH in Hpush;
        simpl in *; lia ].
Qed.

Lemma number_fuel (s : jsstring) : number s <> OutOfFuel.
Proof. unfold number. repeat case_match; done. Qed.

Lemma digits_rest (s ds r : jsstring) :
  digits s = (ds, r) -> length r <= length s.
Proof. intros H. pose proof (digits_length s) as Hd. now rewrite H in Hd. Qed.

Lemma digits_cons_rest (d : N) (s ds r : jsstring) :
  negb (is_digit d) = false -> digits (d :: s) = (ds, r) -> length r <= length s.
Proof.
  simpl. destruct (is_digit d); [intros _|done].
  destruct (digits s) as [ds' r'] eqn:Hd. intros [= <- <-].
  now apply digits_rest in Hd.
Qed.

Lemma number_length (s : jsstring) lexeme r :
  number s = Parsed lexeme r -> length r < length s.
Proof.
  unfold number. intros Hnumber.
  repeat case_match; simplify_eq;
    repeat match goal with
    | Hd : negb (is_digit ?d) = false, H : digits (?d :: _) = (_, _) |- _ =>
        apply (digits_cons_rest _ _ _ _ Hd) in H
    | H : digits _ = (_, _) |- _ => apply digits_rest in H
    end; simpl in *; lia.
Qed.

Lemma keyword_length (word s r : jsstring) :
  keyword word s = Some r -> length r <= length s.
Proof.
  revert s. induction word as [|w word IH]; intros s; simpl.
  - intros [= ->]. lia.
  - destruct s as [|c s]; [done|]. destruct (w =? c)%N; [|done].
    intros H%IH. simpl. lia.
Qed.

Ltac shorter :=
  repeat match goal with
  | H : keyword _ _ = Some _ |- _ => apply keyword_length in H
  | H : string_body _ = Parsed _ _ |- _ => apply string_body_length in H
  | H : number _ = Parsed _ _ |- _ => apply number_length in H
  | H : skip_ws ?s = _ :: _ |- _ =>
      let Hs := fresh "Hs" in
      pose proof (skip_ws_length s) as Hs; rewrite H in Hs; clear H
  | |- context [skip_ws ?s] =>
      lazymatch goal with
      | _ : length (skip_ws s) <= length s |- _ => fail
      | _ => pose proof (skip_ws_length s)
      end
  | H : context [skip_ws ?s] |- _ =>
      lazymatch goal with
      | _ : length (skip_ws s) <= length s |- _ => fail
      | _ => pose proof (skip_ws_length s)
      end
  end.

Lemma descent_length (fuel : nat) :
  (forall s v r, value fuel s = Parsed v r -> length r < length s)
  /\ (forall s vs r, elements fuel s = Parsed vs r -> length r < length s)
  /\ (forall s ms r, members fuel s = Parsed ms r -> length r < length s).
Proof.
  induction fuel as [|fuel (IHvalue & IHelements & IHmembers)]; [done|].
  split; [|split]; intros s x r; simpl; intros Hparsed.
  - repeat case_match; simplify_eq;
      repeat match goal with
      | H : elements fuel _ = Parsed _ _ |- _ => apply IHelements in H
      | H : members fuel _ = Parsed _ _ |- _ => apply IHmembers in H
      end; shorter; simpl in *; lia.
  - repeat case_match; simplify_eq;
      repeat match goal with
      | H : value fuel _ = Parsed _ _ |- _ => apply IHvalue in H
      | H : elements fuel _ = Parsed _ _ |- _ => apply IHelements in H
      end; shorter; simpl in *; lia.
  - repeat case_match; simplify_eq;
      repeat match goal with
      | H : value fuel _ = Parsed _ _ |- _ => apply IHvalue in H
      | H : members fuel _ = Parsed _ _ |- _ => apply IHmembers in H
      end; shorter; simpl in *; lia.
Qed.

Lemma descent_fuel (fuel : nat) :
  (forall s, 2 * length s + 1 <= fuel -> value fuel s <> OutOfFuel)
  /\ (forall s, 2 * length s + 2 <= fuel -> elements fuel s <> OutOfFuel)
  /\ (forall s, 2 * length s + 2 <= fuel -> members fuel s <> OutOfFuel).
Proof.
  induction fuel as [|fuel (IHvalue & IHelements & IHmembers)];
    [repeat split; intros; lia|].
  destruct (descent_length fuel) as (Lvalue & Lelements & Lmembers).
  split; [|split]; intros s Hfuel; simpl;
    repeat case_match; try done; simplify_eq;
    repeat match goal with
    | H : value fuel _ = Parsed _ _ |- _ => apply Lvalue in H
    end;
    shorter;
    exfalso;
    match goal with
    | H : string_body _ = OutOfFuel |- _ => now apply string_body_fuel in H
    | H : number _ = OutOfFuel |- _ => now apply number_fuel in H
    | H : value fuel _ = OutOfFuel |- _ => revert H; apply IHvalue
    | H : elements fuel _ = OutOfFuel |- _ => revert H; apply IHelements
    | H : members fuel _ = OutOfFuel |- _ => revert H; apply IHmembers
    end; simpl in *; lia.
Qed.

(** [JSON.parse] never gives up for want of fuel. *)
Lemma parse_fuel (text : jsstring) :
  value (2 * length text + 2) (skip_ws text) <> OutOfFuel.
Proof.
  apply (descent_fuel (2 * length text + 2)).
  pose proof (skip_ws_length text). lia.
Qed.

End Fuel.

(** ** The media generators and the cache *)

Section Cache.

Variable openai : Provider.

Lemma generateImage_hit prompt σ entry :
  responseCache σ !! generateCacheKey prompt image = Some entry ->
  fresh σ entry = true ->
  generateImage openai prompt σ = (Return (data entry), σ).
Proof.
  unfold fresh, generateImage. intros Hget Hfresh. run.
  rewrite Hget. simpl. now rewrite Hfresh.
Qed.

(** What a miss does, by the provider's answer. *)
Lemma generateImage_miss prompt σ :
  miss σ (generateCacheKey prompt image) ->
  generateImage openai prompt σ =
  let answer := image_reply openai (upstream σ) prompt in
  let σ1 := sent openai (images_generate prompt) (raised_by answer) σ in
  match answer with
  | Return (Some (c :: s)) =>
      (Return (c :: s),
       stored (generateCacheKey prompt image)
         {| data := c :: s; timestamp := clock σ1 |} σ1)
  | Return (Some []) | Return None =>
      (Throw (Error MEDIA_ERROR),
       logged (lit "Image generation error:") (Error NO_RESPONSE) σ1)
  | Throw error =>
      (Throw (Error (if APIError_with_code error
                          unsupported_country_region_territory
                     then REGION_ERROR else MEDIA_ERROR)),
       logged (lit "Image generation error:") error σ1)
  end.
Proof.
  unfold miss, fresh, generateImage, openai_images_generate, media_catch,
    or_NO_RESPONSE.
  intros Hmiss. run.
  destruct (responseCache σ !! generateCacheKey prompt image) as [e|] eqn:Hget.
  - rewrite Hmiss.
    destruct (image_reply openai (upstream σ) prompt) as [[[|c s]|]|error];
      simpl; try done.
    now destruct (APIError_with_code _ _).
  - destruct (image_reply openai (upstream σ) prompt) as [[[|c s]|]|error];
      simpl; try done.
    now destruct (APIError_with_code _ _).
Qed.

Lemma generateAudio_hit text0 σ entry :
  responseCache σ !! generateCacheKey text0 audio = Some entry ->
  fresh σ entry = true ->
  generateAudio openai text0 σ = (Return (data entry), σ).
Proof.
  unfold fresh, generateAudio. intros Hget Hfresh. run.
  rewrite Hget. simpl. now rewrite Hfresh.
Qed.

Lemma generateAudio_miss text0 σ :
  miss σ (generateCacheKey text0 audio) ->
  generateAudio openai text0 σ =
  let voice := voice_for text0 in
  let answer := speech_reply openai (upstream σ) voice text0 in
  let σ1 := sent openai (audio_speech_create voice text0) (raised_by answer) σ in
  match answer with
  | Return mp3 =>
      (Return (JsString.base64 mp3),
       stored (generateCacheKey text0 audio)
         {| data := JsString.base64 mp3; timestamp := clock σ1 |} σ1)
  | Throw error =>
      (Throw (Error (if APIError_with_code error
                          unsupported_country_region_territory
                     then REGION_ERROR else MEDIA_ERROR)),
       logged (lit "Audio generation error:") error σ1)
  end.
Proof.
  unfold miss, fresh, generateAudio, openai_audio_speech_create, media_catch.
  intros Hmiss. run.
  destruct (responseCache σ !! generateCacheKey text0 audio) as [e|] eqn:Hget.
  - rewrite Hmiss.
    destruct (speech_reply openai (upstream σ) _ text0) as [mp3|error];
      simpl; try done.
    now destruct (APIError_with_code _ _).
  - destruct (speech_reply openai (upstream σ) _ text0) as [mp3|error];
      simpl; try done.
    now destruct (APIError_with_code _ _).
Qed.

(** Every lookup is a hit or a miss. *)
Lemma hit_or_miss σ key :
  (exists entry, responseCache σ !! key = Some entry /\ fresh σ entry = true)
  \/ miss σ key.
Proof.
  unfold miss. destruct (responseCache σ !! key) as [entry|]; [|now right].
  destruct (fresh σ entry) eqn:Hf; [left; eauto | now right].
Qed.

Lemma fresh_spec σ entry :
  fresh σ entry = true <-> clock σ - timestamp entry < 300000.
Proof. unfold fresh, CACHE_TTL. rewrite Z.ltb_lt. reflexivity. Qed.

Lemma stale_spec σ entry :
  fresh σ entry = false <-> 300000 <= clock σ - timestamp entry.
Proof. unfold fresh, CACHE_TTL. rewrite Z.ltb_ge. reflexivity. Qed.

Lemma stale_miss σ key entry :
  responseCache σ !! key = Some entry ->
  300000 <= clock σ - timestamp entry ->
  miss σ key.
Proof. unfold miss. intros -> Hle. now apply stale_spec. Qed.

End Cache.

(** Splitting on the lookup of a media generator in the goal. *)
Ltac media_cases :=
  match goal with
  | |- context [generateImage ?o ?p ?s] =>
      let Hget := fresh "Hget" in
      let Hfresh := fresh "Hfresh" in
      let Hmiss := fresh "Hmiss" in
      let Hmedia := fresh "Hmedia" in
      destruct (hit_or_miss s (generateCacheKey p image))
        as [(? & Hget & Hfresh) | Hmiss];
      [ rewrite (generateImage_hit o p s _ Hget Hfresh)
      | rewrite (generateImage_miss o p s Hmiss); simpl;
        destruct (image_reply o _ p) as [[[|? ?]|]|?] eqn:Hmedia ]
  | |- context [generateAudio ?o ?p ?s] =>
      let Hget := fresh "Hget" in
      let Hfresh := fresh "Hfresh" in
      let Hmiss := fresh "Hmiss" in
      let Hmedia := fresh "Hmedia" in
      destruct (hit_or_miss s (generateCacheKey p audio))
        as [(? & Hget & Hfresh) | Hmiss];
      [ rewrite (generateAudio_hit o p s _ Hget Hfresh)
      | rewrite (generateAudio_miss o p s Hmiss); simpl;
        destruct (speech_reply o _ _ p) as [?|?] eqn:Hmedia ]
  end.

(** ** No key leaves the cache *)

Lemma keeps_mret {A : Type} (a : A) : keeps_keys (mret a).
Proof. now intros σ k H. Qed.

Lemma keeps_throw {A : Type} (e : thrown) : keeps_keys (@throw A e).
Proof. now intros σ k H. Qed.

Lemma keeps_bind {A B : Type} (m : M A) (f : A -> M B) :
  keeps_keys m -> (forall a, keeps_keys (f a)) -> keeps_keys (m ≫= f).
Proof.
  intros Hm Hf σ k H. specialize (Hm σ k H).
  unfold mbind, M_bind. destruct (m σ) as [[a|e] σ']; simpl in *;
    [now apply Hf | done].
Qed.

Lemma keeps_try_catch {A : Type} (m : M A) (h : thrown -> M A) :
  keeps_keys m -> (forall e, keeps_keys (h e)) -> keeps_keys (try_catch m h).
Proof.
  intros Hm Hh σ k H. specialize (Hm σ k H).
  unfold try_catch. destruct (m σ) as [[a|e] σ']; simpl in *;
    [done | now apply Hh].
Qed.

Lemma keeps_get key : keeps_keys (responseCache_get key).
Proof. now intros σ k H. Qed.

Lemma keeps_set key entry : keeps_keys (responseCache_set key entry).
Proof.
  intros σ k H. simpl. apply lookup_insert_is_Some.
  destruct (decide (key = k)); [now left | now right].
Qed.

Lemma keeps_now : keeps_keys Date_now.
Proof. now intros σ k H. Qed.

Lemma keeps_console label error : keeps_keys (console_error label error).
Proof. now intros σ k H. Qed.

Lemma keeps_env : keeps_keys process_env_OPENAI_API_KEY.
Proof. now intros σ k H. Qed.

Lemma keeps_formData req : keeps_keys (req_formData req).
Proof. now intros σ k H. Qed.

Lemma keeps_await {A : Type} openai c (reply : list Exchange -> completion A) :
  keeps_keys (await openai c reply).
Proof. now intros σ k H. Qed.

Create HintDb keeps.
#[local] Hint Resolve keeps_mret keeps_throw keeps_get keeps_set keeps_now
  keeps_console keeps_env keeps_formData keeps_await : keeps.

Ltac keeps :=
  repeat first
    [ solve [auto with keeps]
    | apply keeps_bind | apply keeps_try_catch
    | progress intros | case_match ].

Lemma POST_keeps_keys openai req : keeps_keys (POST openai req).
Proof.
  unfold POST, POST_catch, generation_catch, NextResponse_json, read_history,
    generateText, flow_catch, slice_minus_5, spread, generateImage,
    generateAudio, media_catch, or_NO_RESPONSE,
    openai_chat_completions_create, openai_images_generate,
    openai_audio_speech_create.
  keeps.
Qed.

(** ** The time to live *)

(** C2.  Time is in milliseconds, so five minutes are 300000.  For the
    image and for the audio generator alike: when the cache holds an entry
    under the key of (kind, prompt), a lookup less than five minutes after
    the entry's timestamp returns the stored payload and leaves the server
    as it was, no call going upstream; a lookup five minutes or more after
    it is a miss, exactly one fresh call goes upstream, and the key is
    still in the map afterwards.  The entry that a successful generation
    stores carries the payload returned and the time of the store.  And
    no request, whatever it is, removes a key from the cache. *)
Theorem cache_hit_within_five_minutes_miss_after
    (openai : Provider) (prompt : jsstring) (σ : Server) :
  (forall entry,
     responseCache σ !! generateCacheKey prompt image = Some entry ->
     (clock σ - timestamp entry < 300000 ->
      generateImage openai prompt σ = (Return (data entry), σ))
     /\ (300000 <= clock σ - timestamp entry ->
         let σ' := (generateImage openai prompt σ).2 in
         (exists r, upstream σ' =
                    upstream σ ++ [{| call := images_generate prompt; raised := r |}])
         /\ is_Some (responseCache σ' !! generateCacheKey prompt image)))
  /\ (forall entry,
     responseCache σ !! generateCacheKey prompt audio = Some entry ->
     (clock σ - timestamp entry < 300000 ->
      generateAudio openai prompt σ = (Return (data entry), σ))
     /\ (300000 <= clock σ - timestamp entry ->
         let σ' := (generateAudio openai prompt σ).2 in
         (exists r, upstream σ' =
                    upstream σ ++
                    [{| call := audio_speech_create (voice_for prompt) prompt;
                        raised := r |}])
         /\ is_Some (responseCache σ' !! generateCacheKey prompt audio)))
  /\ (forall payload σ',
      miss σ (generateCacheKey prompt image) ->
      generateImage openai prompt σ = (Return payload, σ') ->
      responseCache σ' !! generateCacheKey prompt image
      = Some {| data := payload; timestamp := clock σ' |})
  /\ (forall payload σ',
      miss σ (generateCacheKey prompt audio) ->
      generateAudio openai prompt σ = (Return payload, σ') ->
      responseCache σ' !! generateCacheKey prompt audio
      = Some {| data := payload; timestamp := clock σ' |})
  /\ (forall req k,
      is_Some (responseCache σ !! k) ->
      is_Some (responseCache (POST openai req σ).2 !! k)).
Proof.
  split; [|split; [|split; [|split]]].
  - intros entry Hget. split.
    + intros Hlt. apply generateImage_hit; [done | now apply fresh_spec].
    + intros Hle. rewrite generateImage_miss by eauto using stale_miss.
      simpl. destruct (image_reply openai (upstream σ) prompt) as [[[|c s]|]|e];
        simpl; rewrite ?lookup_insert_eq, ?Hget; eauto.
  - intros entry Hget. split.
    + intros Hlt. apply generateAudio_hit; [done | now apply fresh_spec].
    + intros Hle. rewrite generateAudio_miss by eauto using stale_miss.
      simpl. destruct (speech_reply openai (upstream σ) _ prompt) as [mp3|e];
        simpl; rewrite ?lookup_insert_eq, ?Hget; eauto.
  - intros payload σ' Hmiss. rewrite (generateImage_miss _ _ _ Hmiss). simpl.
    destruct (image_reply openai (upstream σ) prompt) as [[[|c s]|]|e];
      simpl; intros [= <- <-]. simpl. now rewrite lookup_insert_eq.
  - intros payload σ' Hmiss. rewrite (generateAudio_miss _ _ _ Hmiss). simpl.
    destruct (speech_reply openai (upstream σ) _ prompt) as [mp3|e];
      simpl; intros [= <- <-]. simpl. now rewrite lookup_insert_eq.
  - intros req k. apply POST_keeps_keys.
Qed.

(** On a server holding, under the text "a fox", an image stored 299999
    milliseconds ago and a recording stored 300000 milliseconds ago: the
    image is served from the cache, the recording is generated again. *)
Lemma cache_hit_within_five_minutes_miss_after_witness :
  generateImage Sample.provider (lit "a fox") Sample.cached_server
  = (Return (lit "bmV3"), Sample.cached_server)
  /\ exists r,
      upstream (generateAudio Sample.provider (lit "a fox") Sample.cached_server).2
      = [{| call := audio_speech_create nova (lit "a fox"); raised := r |}].
Proof.
  destruct (cache_hit_within_five_minutes_miss_after
              Sample.provider (lit "a fox") Sample.cached_server)
    as (Himage & Haudio & _).
  split.
  - apply (Himage Sample.recent_entry); vm_compute; reflexivity.
  - apply (Haudio Sample.stale_entry); [vm_compute; reflexivity|].
    vm_compute. discriminate.
Defined.

(** ** The voice *)

Lemma voice_for_spec (text0 : jsstring) :
  (63%N ∈ text0 -> voice_for text0 = shimmer)
  /\ (63%N ∉ text0 -> (200 < length text0)%nat -> voice_for text0 = onyx)
  /\ (63%N ∉ text0 -> (length text0 <= 200)%nat -> 33%N ∈ text0 ->
      voice_for text0 = fable)
  /\ (63%N ∉ text0 -> (length text0 <= 200)%nat -> 33%N ∉ text0 ->
      voice_for text0 = nova).
Proof.
  unfold voice_for.
  destruct (JsString.includes_unit 63 text0) eqn:Hq;
    [apply includes_unit_spec in Hq
    | assert (63%N ∉ text0)
        by (intros Hin; apply includes_unit_spec in Hin; congruence)].
  { repeat split; intros; tauto. }
  destruct (200 <? Z.of_nat (length text0)) eqn:Hlen;
    [apply Z.ltb_lt in Hlen | apply Z.ltb_ge in Hlen].
  { repeat split; intros; try tauto; lia. }
  destruct (JsString.includes_unit 33 text0) eqn:Hb;
    [apply includes_unit_spec in Hb
    | assert (33%N ∉ text0)
        by (intros Hin; apply includes_unit_spec in Hin; congruence)].
  all: repeat split; intros; try tauto; lia.
Qed.

(** C9.  The voice of the speech request is a function of the text
    alone.  Whenever [generateAudio] does not answer from the cache, it
    sends exactly one speech request, for that text, and its voice is:
    "shimmer" if the text holds a question mark (code unit 63); else
    "onyx" if the text is longer than 200 code units; else "fable" if it
    holds an exclamation mark (code unit 33); else "nova". *)
Theorem voice_chosen_from_text_alone
    (openai : Provider) (text0 : jsstring) (σ : Server) :
  miss σ (generateCacheKey text0 audio) ->
  exists voice r,
    upstream (generateAudio openai text0 σ).2
    = upstream σ ++ [{| call := audio_speech_create voice text0; raised := r |}]
    /\ (63%N ∈ text0 -> voice = shimmer)
    /\ (63%N ∉ text0 -> (200 < length text0)%nat -> voice = onyx)
    /\ (63%N ∉ text0 -> (length text0 <= 200)%nat -> 33%N ∈ text0 ->
        voice = fable)
    /\ (63%N ∉ text0 -> (length text0 <= 200)%nat -> 33%N ∉ text0 ->
        voice = nova).
Proof.
  intros Hmiss. rewrite (generateAudio_miss _ _ _ Hmiss). simpl.
  exists (voice_for text0).
  destruct (speech_reply openai (upstream σ) _ text0) as [mp3|e]; simpl;
    eexists; (split; [reflexivity | apply voice_for_spec]).
Qed.

(** A question that is also an exclamation is read by "shimmer". *)
Lemma voice_chosen_from_text_alone_witness :
  exists r,
    upstream (generateAudio Sample.provider (lit "Really?!") Sample.server).2
    = [{| call := audio_speech_create shimmer (lit "Really?!"); raised := r |}].
Proof.
  destruct (voice_chosen_from_text_alone
              Sample.provider (lit "Really?!") Sample.server)
    as (voice & r & Hup & Hquestion & _).
  - vm_compute. exact I.
  - exists r. rewrite <- Hquestion; [exact Hup|].
    apply includes_unit_spec. vm_compute. reflexivity.
Defined.

(** ** The text of the errors *)

Lemma Error_with_message_same (m : jsstring) :
  Error_with_message (Error m) m = true.
Proof. unfold Error_with_message. simpl. now apply bool_decide_eq_true. Qed.

Lemma MEDIA_ERROR_not_REGION_ERROR :
  Error_with_message (Error MEDIA_ERROR) REGION_ERROR = false.
Proof. vm_compute. reflexivity. Qed.

Lemma NO_RESPONSE_not_REGION_ERROR :
  Error_with_message (Error NO_RESPONSE) REGION_ERROR = false.
Proof. vm_compute. reflexivity. Qed.

Lemma APIError_with_code_same status code message :
  APIError_with_code (APIError status (Some code) message) code = true.
Proof. simpl. now apply bool_decide_eq_true. Qed.

Lemma region_raised_inv (c : UpstreamCall) (r : option thrown) :
  region_raised {| call := c; raised := r |} ->
  exists error, r = Some error
    /\ APIError_with_code error unsupported_country_region_territory = true.
Proof.
  intros (status & message & Hr). simpl in Hr. subst r.
  eexists. split; [reflexivity | apply APIError_with_code_same].
Qed.

Create Rewrite HintDb route.
#[local] Hint Rewrite Error_with_message_same MEDIA_ERROR_not_REGION_ERROR
  NO_RESPONSE_not_REGION_ERROR APIError_with_code_same : route.

(** ** Runs of [generateText] *)

(** Opening [generateText] on the three intents and the answer of the
    first completion request. *)
Ltac open_generateText openai prompt σ :=
  unfold generateText, openai_chat_completions_create, flow_catch,
    or_NO_RESPONSE in *;
  run;
  destruct (isImageRequest prompt) eqn:?;
    [|destruct (isAudioRequest prompt) eqn:?];
  (destruct (chat_reply openai (upstream σ) _) as [[[|? ?]|]|?] eqn:?);
  simpl in *; autorewrite with route in *; simpl in *.

Ltac finish_exchanges :=
  simpl; rewrite <- ?app_assoc; simpl;
  do 3 eexists; split; [reflexivity|]; split;
  [ eexists; split;
    [ reflexivity
    | first [left; reflexivity | right; do 2 eexists; reflexivity] ]
  | repeat (apply List.Forall_cons; [intros []|]); apply List.Forall_nil ].

(** On a history that [slice] takes, the first exchange of a run is a
    completion request, no later one is, and its messages are the recent
    ones, the user's, and the instruction of a two-stage flow if any. *)
Lemma generateText_exchanges openai prompt history σ :
  sliceable history ->
  let σ' := (generateText openai prompt history σ).2 in
  exists params r rest,
    upstream σ'
    = upstream σ ++ {| call := chat_completions_create params; raised := r |} :: rest
    /\ (exists tail,
          messages params = recent_messages history ++ user_message prompt :: tail
          /\ (tail = []
              \/ exists instruction name, tail = [system_message instruction name]))
    /\ Forall (fun x => ~ is_chat x) rest.
Proof.
  intros Hslice.
  destruct history as [| | |s|items|]; try destruct Hslice; simpl.
  - open_generateText openai prompt σ.
    all: try (cases; finish_exchanges).
    all: media_cases; simpl; autorewrite with route; cases; finish_exchanges.
  - open_generateText openai prompt σ.
    all: try (cases; finish_exchanges).
    all: media_cases; simpl; autorewrite with route; cases; finish_exchanges.
Qed.

(** C4.  Whatever the length of the history array, a run of
    [generateText] sends exactly one completion request upstream, and its
    message list is: the last five entries of the history (all of them when
    there are fewer), then the user's prompt, then, in the two-stage flows,
    one system message.  No earlier entry is sent. *)
Theorem upstream_history_is_last_five
    (openai : Provider) (prompt : jsstring) (items : list json) (σ : Server) :
  let σ' := (generateText openai prompt (JArray items) σ).2 in
  exists params r rest recent tail,
    upstream σ'
    = upstream σ ++ {| call := chat_completions_create params; raised := r |} :: rest
    /\ Forall (fun x => ~ is_chat x) rest
    /\ messages params = recent ++ user_message prompt :: tail
    /\ (tail = []
        \/ exists instruction name, tail = [system_message instruction name])
    /\ recent = drop (length items - 5) items
    /\ (length recent <= 5)%nat
    /\ (exists earlier, items = earlier ++ recent).
Proof.
  destruct (generateText_exchanges openai prompt (JArray items) σ I)
    as (params & r & rest & Hup & (tail & Hmessages & Htail) & Hrest).
  exists params, r, rest, (JsString.slice_last 5 items), tail.
  repeat split; try done.
  - apply slice_last_length.
  - apply slice_last_suffix.
Qed.

(** ** The classifier *)

Ltac norm_exchanged :=
  unfold exchanged in *; simpl in *; rewrite <- ?app_assoc in *;
  rewrite ?drop_app_length, ?drop_all in *; simpl in *.

Lemma image_flow_stage_one earlier prompt r :
  image_flow {| call := chat_completions_create
                  {| model := gpt_3_5_turbo;
                     messages := earlier ++
                       [user_message prompt;
                        system_message imagePrompt_instruction (lit "imagePrompt")];
                     max_tokens := 150 |};
                raised := r |}.
Proof.
  unfold image_flow. simpl.
  change (earlier ++ [user_message prompt; system_message imagePrompt_instruction (lit "imagePrompt")])
    with (earlier ++ [user_message prompt] ++ [system_message imagePrompt_instruction (lit "imagePrompt")]).
  rewrite app_assoc. apply last_snoc.
Qed.

Ltac finish_image_flow :=
  norm_exchanged;
  split; [intros ? [= <-]; discriminate || done | split;
  [ repeat (apply List.Forall_cons; [first [apply image_flow_stage_one | exact I]|]); apply List.Forall_nil
  | intros _; do 2 eexists; reflexivity ]].

(** C1.  A prompt that matches the image action and subject patterns and
    the audio action and subject patterns as well is handled as an image
    request: the response is never of type audio; every exchange with the
    provider is a completion request closed by the image instruction or an
    image synthesis, never a speech synthesis; and, on a history that
    [slice] takes, the run opens with the stage-one request of the image
    flow. *)
Theorem image_intent_before_audio_intent
    (openai : Provider) (prompt : jsstring) (history : json) (σ : Server) :
  JsString.regex_test image_action prompt = true ->
  JsString.regex_test image_subject prompt = true ->
  JsString.regex_test audio_action prompt = true ->
  JsString.regex_test audio_subject prompt = true ->
  let run := generateText openai prompt history σ in
  (forall response, run.1 = Return response -> type response <> audio)
  /\ Forall image_flow (exchanged σ run.2)
  /\ (sliceable history ->
      exists r rest,
        exchanged σ run.2
        = {| call := chat_completions_create (image_stage_one history prompt);
             raised := r |} :: rest).
Proof.
  intros Hia His Haa Has.
  assert (Himage : isImageRequest prompt = true)
    by (unfold isImageRequest; now rewrite Hia, His).
  unfold image_stage_one, stage_one.
  destruct history as [| | |s|items|]; simpl.
  1-3,6: unfold generateText; run;
     (split; [done | split; [norm_exchanged; apply List.Forall_nil | intros []]]).
  - open_generateText openai prompt σ; try done.
    all: try (cases; finish_image_flow).
    all: media_cases; simpl; autorewrite with route; cases; finish_image_flow.
  - open_generateText openai prompt σ; try done.
    all: try (cases; finish_image_flow).
    all: media_cases; simpl; autorewrite with route; cases; finish_image_flow.
Qed.

(** "generate a picture with a voice" matches all four patterns. *)
Lemma image_intent_before_audio_intent_witness :
  Forall image_flow
    (exchanged Sample.server
       (generateText Sample.provider (lit "generate a picture with a voice")
          (JArray []) Sample.server).2)
  /\ exists r rest,
      exchanged Sample.server
        (generateText Sample.provider (lit "generate a picture with a voice")
           (JArray []) Sample.server).2
      = {| call := chat_completions_create
                     (image_stage_one (JArray [])
                        (lit "generate a picture with a voice"));
           raised := r |} :: rest.
Proof.
  destruct (image_intent_before_audio_intent Sample.provider
              (lit "generate a picture with a voice") (JArray []) Sample.server)
    as (_ & Hflow & Hfirst); try (vm_compute; reflexivity).
  split; [exact Hflow | exact (Hfirst I)].
Defined.

(** ** The region restriction *)

Ltac region_contradiction :=
  repeat match goal with
  | H : Exists _ [] |- _ => apply Exists_nil in H; destruct H
  | H : Exists _ (_ :: _) |- _ => apply Exists_cons in H; destruct H as [H|H]
  | H : region_raised {| call := _; raised := None |} |- _ =>
      destruct H as (? & ? & [=])
  | H : region_raised {| call := _; raised := Some _ |} |- _ =>
      apply region_raised_inv in H; destruct H as (? & [= <-] & H); simpl in H; congruence
  end.

Ltac finish_region :=
  norm_exchanged; intros Hraised; first [done | solve [region_contradiction]].

Lemma generateText_region openai prompt history σ :
  isImageRequest prompt || isAudioRequest prompt = true ->
  let run := generateText openai prompt history σ in
  Exists region_raised (exchanged σ run.2) ->
  run.1 = Return region_envelope.
Proof.
  intros Hintent.
  destruct history as [| | |s|items|]; simpl.
  1-3,6: unfold generateText; run; finish_region.
  - open_generateText openai prompt σ; try done.
    all: try (cases; finish_region).
    all: media_cases; simpl; autorewrite with route; cases; finish_region.
  - open_generateText openai prompt σ; try done.
    all: try (cases; finish_region).
    all: media_cases; simpl; autorewrite with route; cases; finish_region.
Qed.

(** ** The endpoint *)

Lemma NextResponse_json_status body (s : Z) σ :
  response_status s ->
  NextResponse_json body (Some s) σ = (Return {| status := s; body := body |}, σ).
Proof.
  unfold response_status, NextResponse_json. intros (Hrange & H204 & H205 & H304).
  rewrite Z.mod_small by lia.
  replace (s <? 200) with false by (symmetry; apply Z.ltb_ge; lia).
  replace (599 <? s) with false by (symmetry; apply Z.ltb_ge; lia).
  replace (s =? 204) with false by (symmetry; apply Z.eqb_neq; lia).
  replace (s =? 205) with false by (symmetry; apply Z.eqb_neq; lia).
  replace (s =? 304) with false by (symmetry; apply Z.eqb_neq; lia).
  reflexivity.
Qed.

Lemma response_status_500 : response_status 500.
Proof. unfold response_status. lia. Qed.

Lemma trim_nonempty (s : jsstring) :
  JsString.trim s <> [] ->
  JsString.truthy s = true /\ JsString.truthy (JsString.trim s) = true.
Proof.
  intros Htrim. split.
  - destruct s; [now destruct Htrim | reflexivity].
  - destruct (JsString.trim s); [now destruct Htrim | reflexivity].
Qed.

Lemma read_history_run (historyStr : option FormDataEntryValue) (σ : Server) :
  exists σh,
    read_history historyStr σ = (Return (history_value historyStr), σh)
    /\ (σh = σ \/ σh = logged (lit "History parsing error:") JSON_SyntaxError σ).
Proof.
  unfold read_history, history_value.
  destruct historyStr as [[|s]|]; run; eauto.
  destruct (JsString.truthy s); eauto.
  destruct (JSON.parse s); run; eauto.
Qed.

(** The catch clauses answer, and touch nothing but the console. *)
Lemma POST_catch_run error σ :
  POST_catch error σ
  = (Return {| status := 500;
               body := body_error (default PROCESSING_ERROR (Error_message error)) |},
     logged (lit "Chat API Error:") error σ).
Proof.
  unfold POST_catch. run. now rewrite NextResponse_json_status by apply response_status_500.
Qed.

Lemma NextResponse_json_state body init_status σ :
  exists r, NextResponse_json body init_status σ = (r, σ).
Proof. unfold NextResponse_json. run. cases; eauto. Qed.

Lemma generation_catch_run error σ :
  exists response σ',
    try_catch (generation_catch error) POST_catch σ = (Return response, σ')
    /\ same_but_console σ σ'.
Proof.
  assert (Hjson : forall body init_status σ0,
    same_but_console σ σ0 ->
    exists response σ',
      try_catch (NextResponse_json body init_status) POST_catch σ0
      = (Return response, σ') /\ same_but_console σ σ').
  { intros body0 init_status σ0 Hsame. unfold try_catch.
    destruct (NextResponse_json_state body0 init_status σ0) as ([response|e] & ->).
    - eauto.
    - rewrite POST_catch_run. eauto. }
  unfold generation_catch. run.
  destruct error as [status code message|message|]; simpl;
    [destruct (bool_decide (code = Some content_policy_violation))| |];
    first [apply Hjson; done | do 2 eexists; split; [reflexivity | done]].
Qed.

(** A request the handler takes up: the history is read, then the text
    is generated inside the two [try] blocks. *)
Lemma POST_accepted openai req σ form prompt h σh :
  accepted σ req form prompt ->
  read_history (history form) σ = (Return h, σh) ->
  POST openai req σ
  = try_catch
      (try_catch
         (response ← generateText openai prompt h;
          NextResponse_json (body_envelope response) None)
         generation_catch)
      POST_catch σh.
Proof.
  intros (Hkey & Hform & Hmessage & Htrim) Hread.
  destruct (trim_nonempty _ Htrim) as [Ht1 Ht2].
  unfold POST. run. rewrite Hkey. simpl. rewrite Hform. simpl.
  rewrite Hmessage. simpl. rewrite Ht1, Ht2. simpl. now rewrite Hread.
Qed.

Lemma POST_accepted_run openai req σ form prompt h σh :
  accepted σ req form prompt ->
  read_history (history form) σ = (Return h, σh) ->
  POST openai req σ
  = match generateText openai prompt h σh with
    | (Return response, σ1) =>
        (Return {| status := 200; body := body_envelope response |}, σ1)
    | (Throw error, σ1) => try_catch (generation_catch error) POST_catch σ1
    end.
Proof.
  intros Haccepted Hread. rewrite (POST_accepted _ _ _ _ _ _ _ Haccepted Hread).
  run. now destruct (generateText openai prompt h σh) as [[response|error] σ1].
Qed.



(** C6, as the code has it.  When the server has its credential and the
    body decodes as a form: a request whose message is missing, is a file,
    or is empty after trimming white space gets the invalid-request error
    with status 400, and the server is left exactly as it was (no call
    upstream, the cache untouched, nothing logged). *)
Theorem invalid_message_is_rejected
    (openai : Provider) (req : Request) (σ : Server) (form : FormData) :
  from_option JsString.truthy false (OPENAI_API_KEY σ) = true ->
  formData req = Return form ->
  invalid_message (message form) ->
  POST openai req σ
  = (Return {| status := 400; body := body_error INVALID_REQUEST |}, σ).
Proof.
  intros Hkey Hform Hinvalid. unfold POST. run.
  rewrite Hkey. simpl. rewrite Hform. simpl.
  destruct (message form) as [[|s]|]; simpl in *; try reflexivity.
  rewrite Hinvalid. simpl. now rewrite orb_true_r.
Qed.

(** Three spaces. *)
Lemma invalid_message_is_rejected_witness :
  POST Sample.provider (Sample.request (lit "   ") None) Sample.server
  = (Return {| status := 400; body := body_error INVALID_REQUEST |},
     Sample.server).
Proof.
  apply (invalid_message_is_rejected Sample.provider
           (Sample.request (lit "   ") None) Sample.server
           (Sample.form (lit "   ") None));
    vm_compute; reflexivity.
Defined.

(** C6 as stated fails: the test of the credential comes first, so on a
    server whose credential is empty a blank message gets status 500 and
    the missing-credential message, not status 400. *)
Lemma invalid_message_without_credential_is_500 :
  invalid_message (message (Sample.form (lit "   ") None))
  /\ (POST Sample.provider (Sample.request (lit "   ") None)
        Sample.server_with_empty_key).1
     = Return {| status := 500; body := body_error MISSING_API_KEY |}
  /\ (POST Sample.provider (Sample.request (lit "   ") None)
        Sample.server_with_empty_key).1
     <> Return {| status := 400; body := body_error INVALID_REQUEST |}.
Proof.
  split; [vm_compute; reflexivity|]. split; [vm_compute; reflexivity|].
  vm_compute. discriminate.
Qed.

(** C8, as the code has it.  When [generateText] throws, on a request
    the handler took up: a thrown [Error] that is no provider API error is
    answered with status 500 and the error's own message (the
    empty-upstream-response message, the media-processing message, the
    text of a [TypeError]); the generic processing-failure message is used
    only for a thrown value that is no [Error] at all.  A provider API
    error whose status and code match no entry of the handler is answered
    with the model-unavailable message and the provider's status, 500 when
    it carries none or 0, as long as a response with a body can carry that
    status: 200 to 599, except 204, 205 and 304.  With any other status
    the construction of the response throws, and the endpoint answers
    with status 500 and the message of that error.  (The constructor takes
    the status modulo 65536; for a status from 0 to 65535 that is the
    status itself.) *)
Theorem generation_failure_response
    (openai : Provider) (req : Request) (σ : Server) (form : FormData)
    (prompt : jsstring) (h : json) (σh : Server) (error : thrown) (σ1 : Server) :
  accepted σ req form prompt ->
  read_history (history form) σ = (Return h, σh) ->
  generateText openai prompt h σh = (Throw error, σ1) ->
  match error with
  | APIError status code _ =>
      status <> Some 401 -> status <> Some 429 ->
      code <> Some content_policy_violation ->
      code <> Some unsupported_country_region_territory ->
      let s := status_or_500 status mod 65536 in
      (response_status s ->
       (POST openai req σ).1
       = Return {| status := s; body := body_error MODEL_ERROR |})
      /\ (s < 200 \/ 599 < s ->
          (POST openai req σ).1
          = Return {| status := 500;
                      body := body_error
                                (dq "init['status'] must be in the range of 200 to 599, inclusive.") |})
      /\ (s = 204 ->
          (POST openai req σ).1
          = Return {| status := 500;
                      body := body_error
                                (lit "Response constructor: Invalid response status code 204") |})
      /\ (s = 205 ->
          (POST openai req σ).1
          = Return {| status := 500;
                      body := body_error
                                (lit "Response constructor: Invalid response status code 205") |})
      /\ (s = 304 ->
          (POST openai req σ).1
          = Return {| status := 500;
                      body := body_error
                                (lit "Response constructor: Invalid response status code 304") |})
  | Error message =>
      (POST openai req σ).1
      = Return {| status := 500; body := body_error message |}
  | NonError =>
      (POST openai req σ).1
      = Return {| status := 500; body := body_error PROCESSING_ERROR |}
  end.
Proof.
  intros Haccepted Hread Hrun.
  rewrite (POST_accepted_run _ _ _ _ _ _ _ Haccepted Hread), Hrun.
  unfold generation_catch. run.
  destruct error as [status code message|message|]; simpl.
  - intros H401 H429 Hpolicy Hregion.
    rewrite !bool_decide_eq_false_2 by done.
    unfold NextResponse_json.
    set (s := status_or_500 status mod 65536).
    repeat split.
    + intros (Hrange & H204 & H205 & H304).
      replace (s <? 200) with false by (symmetry; apply Z.ltb_ge; lia).
      replace (599 <? s) with false by (symmetry; apply Z.ltb_ge; lia).
      replace (s =? 204) with false by (symmetry; apply Z.eqb_neq; lia).
      replace (s =? 205) with false by (symmetry; apply Z.eqb_neq; lia).
      replace (s =? 304) with false by (symmetry; apply Z.eqb_neq; lia).
      reflexivity.
    + intros Hout.
      replace ((s <? 200) || (599 <? s)) with true
        by (symmetry; apply orb_true_iff; rewrite !Z.ltb_lt; lia).
      reflexivity.
    + intros ->. reflexivity.
    + intros ->. reflexivity.
    + intros ->. reflexivity.
  - reflexivity.
  - reflexivity.
Qed.

(** A completion without content, a provider answering 503, and one
    answering 304. *)
Lemma generation_failure_response_witness :
  (POST Sample.silent_provider (Sample.request (lit "hello") None) Sample.server).1
  = Return {| status := 500; body := body_error NO_RESPONSE |}
  /\ (POST Sample.overloaded_provider (Sample.request (lit "hello") None)
        Sample.server).1
     = Return {| status := 503; body := body_error MODEL_ERROR |}
  /\ (POST Scenario.not_modified_provider (Sample.request (lit "hello") None)
        Sample.server).1
     = Return {| status := 500;
                 body := body_error
                           (lit "Response constructor: Invalid response status code 304") |}.
Proof.
  split; [|split].
  - apply (generation_failure_response Sample.silent_provider
             (Sample.request (lit "hello") None) Sample.server
             (Sample.form (lit "hello") None) (lit "hello") (JArray [])
             Sample.server (Error NO_RESPONSE)
             (generateText Sample.silent_provider (lit "hello") (JArray [])
                Sample.server).2).
    + repeat split; try (vm_compute; reflexivity). vm_compute. discriminate.
    + vm_compute. reflexivity.
    + vm_compute. reflexivity.
  - destruct (generation_failure_response Sample.overloaded_provider
             (Sample.request (lit "hello") None) Sample.server
             (Sample.form (lit "hello") None) (lit "hello") (JArray [])
             Sample.server
             (APIError (Some 503) None (lit "The server is overloaded"))
             (generateText Sample.overloaded_provider (lit "hello") (JArray [])
                Sample.server).2) as (Hvalid & _).
    + repeat split; try (vm_compute; reflexivity). vm_compute. discriminate.
    + vm_compute. reflexivity.
    + vm_compute. reflexivity.
    + discriminate.
    + discriminate.
    + discriminate.
    + discriminate.
    + apply Hvalid. unfold response_status. vm_compute.
      repeat split; discriminate.
  - destruct (generation_failure_response Scenario.not_modified_provider
             (Sample.request (lit "hello") None) Sample.server
             (Sample.form (lit "hello") None) (lit "hello") (JArray [])
             Sample.server
             (APIError (Some 304) None (lit "Not Modified"))
             (generateText Scenario.not_modified_provider (lit "hello")
                (JArray []) Sample.server).2) as (_ & _ & _ & _ & H304).
    + repeat split; try (vm_compute; reflexivity). vm_compute. discriminate.
    + vm_compute. reflexivity.
    + vm_compute. reflexivity.
    + discriminate.
    + discriminate.
    + discriminate.
    + discriminate.
    + apply H304. reflexivity.
Defined.

(** C8 as stated fails.  A completion without content makes
    [generateText] throw a plain [Error], no provider API error: the
    endpoint answers with that error's message, which is not the generic
    processing-failure message.  A provider API error with status 503 and
    no code is answered with status 503, not 500, and the
    model-unavailable message. *)
Lemma unclassified_error_keeps_its_own_message :
  (generateText Sample.silent_provider (lit "hello") (JArray []) Sample.server).1
  = Throw (Error NO_RESPONSE)
  /\ (POST Sample.silent_provider (Sample.request (lit "hello") None)
        Sample.server).1
     = Return {| status := 500; body := body_error NO_RESPONSE |}
  /\ NO_RESPONSE <> PROCESSING_ERROR
  /\ (generateText Sample.overloaded_provider (lit "hello") (JArray [])
        Sample.server).1
     = Throw (APIError (Some 503) None (lit "The server is overloaded"))
  /\ (POST Sample.overloaded_provider (Sample.request (lit "hello") None)
        Sample.server).1
     = Return {| status := 503; body := body_error MODEL_ERROR |}.
Proof.
  repeat split; try (vm_compute; reflexivity). vm_compute. discriminate.
Qed.

(** ** A history that is not an array *)

Lemma read_history_parsed (historyStr : jsstring) (parsed : json) (σ : Server) :
  historyStr <> [] ->
  JSON.parse historyStr = Some parsed ->
  read_history (Some (StringEntry historyStr)) σ = (Return parsed, σ).
Proof.
  intros Hne Hparse. unfold read_history.
  destruct historyStr; [done|]. simpl. now rewrite Hparse.
Qed.

Lemma generateText_unsliceable openai prompt history σ :
  ~ sliceable history ->
  exists message,
    generateText openai prompt history σ
    = (Throw (Error message),
       logged (lit "Text generation error:") (Error message) σ).
Proof.
  intros Hslice. unfold generateText. run.
  destruct history; simpl in *; try (now destruct Hslice); eauto.
Qed.

(** C10, as the code has it.  On a request the handler took up, a
    history field that parses as JSON is used as parsed, whatever it is.
    When the value is [null], a boolean, a number or an object, the
    [slice] call fails with a [TypeError]: the endpoint answers with an
    [{error}] body and status 500, no call has gone upstream and the cache
    is as before.  When the value is a string, [slice] succeeds: the last
    five code units of the string are spread, one message per character, in
    front of the user's message of the completion request that goes
    upstream. *)
Theorem non_array_history_is_used_unvalidated
    (openai : Provider) (req : Request) (σ : Server) (form : FormData)
    (prompt historyStr : jsstring) (parsed : json) :
  accepted σ req form prompt ->
  history form = Some (StringEntry historyStr) ->
  historyStr <> [] ->
  JSON.parse historyStr = Some parsed ->
  let run := POST openai req σ in
  match parsed with
  | JArray _ => True
  | JString s =>
      exists params r rest tail,
        upstream run.2
        = upstream σ
          ++ {| call := chat_completions_create params; raised := r |} :: rest
        /\ messages params
           = (JString <$> JsString.code_points (JsString.slice_last 5 s))
             ++ user_message prompt :: tail
  | JNull | JBool _ | JNumber _ | JObject _ =>
      (exists message,
         run.1 = Return {| status := 500; body := body_error message |})
      /\ upstream run.2 = upstream σ
      /\ responseCache run.2 = responseCache σ
  end.
Proof.
  intros Haccepted Hhistory Hne Hparse.
  assert (Hread : read_history (history form) σ = (Return parsed, σ))
    by (rewrite Hhistory; now apply read_history_parsed).
  simpl. rewrite (POST_accepted_run _ _ _ _ _ _ _ Haccepted Hread).
  destruct parsed as [|b|lexeme|s|items|members]; [| | | |done|].
  1-3,5:
    match goal with
    | |- context [generateText ?o ?p ?h ?s] =>
        destruct (generateText_unsliceable o p h s) as (message & ->);
        [simpl; tauto|]
    end;
    unfold generation_catch; run;
    (split; [eexists; reflexivity | split; reflexivity]).
  destruct (generateText_exchanges openai prompt (JString s) σ I)
    as (params & r & rest & Hup & (tail & Hmessages & _) & _).
  exists params, r, rest, tail. split; [|exact Hmessages].
  destruct (generateText openai prompt (JString s) σ) as [[response|error] σ1];
    simpl in *; [exact Hup|].
  destruct (generation_catch_run error σ1) as (response & σ' & -> & Hsame).
  simpl. destruct Hsame as (_ & _ & _ & <-). exact Hup.
Qed.

(** The history field holds the number 42. *)
Lemma non_array_history_is_used_unvalidated_witness :
  (exists message,
     (POST Sample.provider (Sample.request (lit "hello") (Some (lit "42")))
        Sample.server).1
     = Return {| status := 500; body := body_error message |})
  /\ upstream (POST Sample.provider
                 (Sample.request (lit "hello") (Some (lit "42")))
                 Sample.server).2 = [].
Proof.
  destruct (non_array_history_is_used_unvalidated Sample.provider
              (Sample.request (lit "hello") (Some (lit "42"))) Sample.server
              (Sample.form (lit "hello") (Some (lit "42"))) (lit "hello")
              (lit "42") (JNumber (lit "42")))
    as (Hresponse & Hupstream & _).
  - repeat split; try (vm_compute; reflexivity). vm_compute. discriminate.
  - reflexivity.
  - vm_compute. discriminate.
  - vm_compute. reflexivity.
  - split; [exact Hresponse | exact Hupstream].
Defined.

(** C10 as stated fails on a JSON string: a history field holding the
    two characters of the empty JSON string parses to a value that is no
    array, [slice] works on it, and the endpoint answers with the generated
    reply and status 200. *)
Lemma string_history_gets_a_reply :
  JSON.parse (dq "''") = Some (JString [])
  /\ (POST Sample.provider (Sample.request (lit "hello") (Some (dq "''")))
        Sample.server).1
     = Return {| status := 200;
                 body := body_envelope
                           {| type := text; content := lit "A red fox!";
                              url := None |} |}.
Proof. split; vm_compute; reflexivity. Qed.

(** ** A history that does not parse *)

Lemma same_but_console_refl σ : same_but_console σ σ.
Proof. now unfold same_but_console. Qed.

Lemma same_but_console_logged label error σ :
  same_but_console (logged label error σ) σ.
Proof. now unfold same_but_console. Qed.

Lemma blind_mret {A : Type} (a : A) : console_blind (mret a).
Proof. intros σ1 σ2 H. now split. Qed.

Lemma blind_throw {A : Type} (e : thrown) : console_blind (@throw A e).
Proof. intros σ1 σ2 H. now split. Qed.

Lemma blind_bind {A B : Type} (m : M A) (f : A -> M B) :
  console_blind m -> (forall a, console_blind (f a)) -> console_blind (m ≫= f).
Proof.
  intros Hm Hf σ1 σ2 H. destruct (Hm σ1 σ2 H) as [Hr Hs].
  unfold mbind, M_bind. destruct (m σ1) as [r1 s1], (m σ2) as [r2 s2].
  simpl in *. subst r2. destruct r1; [now apply Hf | now split].
Qed.

Lemma blind_try_catch {A : Type} (m : M A) (h : thrown -> M A) :
  console_blind m -> (forall e, console_blind (h e)) ->
  console_blind (try_catch m h).
Proof.
  intros Hm Hf σ1 σ2 H. destruct (Hm σ1 σ2 H) as [Hr Hs].
  unfold try_catch. destruct (m σ1) as [r1 s1], (m σ2) as [r2 s2].
  simpl in *. subst r2. destruct r1; [now split | now apply Hf].
Qed.

Lemma blind_get key : console_blind (responseCache_get key).
Proof.
  intros σ1 σ2 (? & Hc & ? & ?). unfold responseCache_get; simpl.
  rewrite Hc. now split.
Qed.

Lemma blind_set key entry : console_blind (responseCache_set key entry).
Proof.
  intros σ1 σ2 (? & Hc & ? & ?).
  unfold responseCache_set, same_but_console; simpl. rewrite Hc.
  now repeat split.
Qed.

Lemma blind_now : console_blind Date_now.
Proof.
  intros σ1 σ2 (? & ? & Hc & ?). unfold Date_now; simpl. rewrite Hc. now split.
Qed.

Lemma blind_console label error : console_blind (console_error label error).
Proof. intros σ1 σ2 (? & ? & ? & ?). now unfold console_error, same_but_console. Qed.

Lemma blind_env : console_blind process_env_OPENAI_API_KEY.
Proof.
  intros σ1 σ2 (Hk & ? & ? & ?). unfold process_env_OPENAI_API_KEY; simpl.
  rewrite Hk. now split.
Qed.

Lemma blind_formData req : console_blind (req_formData req).
Proof. intros σ1 σ2 H. now split. Qed.

Lemma blind_await {A : Type} openai c (reply : list Exchange -> completion A) :
  console_blind (await openai c reply).
Proof.
  intros σ1 σ2 (? & ? & ? & Hu). unfold await, same_but_console; simpl.
  rewrite Hu. repeat split; congruence.
Qed.

Create HintDb blind.
#[local] Hint Resolve blind_mret blind_throw blind_get blind_set blind_now
  blind_console blind_env blind_formData blind_await : blind.

Ltac blind :=
  repeat first
    [ solve [auto with blind]
    | apply blind_bind | apply blind_try_catch
    | progress intros | case_match ].

Lemma or_NO_RESPONSE_blind value : console_blind (or_NO_RESPONSE value).
Proof. unfold or_NO_RESPONSE. blind. Qed.

Lemma chat_blind openai params :
  console_blind (openai_chat_completions_create openai params).
Proof. apply blind_await. Qed.

Lemma images_blind openai prompt :
  console_blind (openai_images_generate openai prompt).
Proof. apply blind_await. Qed.

Lemma speech_blind openai voice input :
  console_blind (openai_audio_speech_create openai voice input).
Proof. apply blind_await. Qed.

#[local] Hint Resolve or_NO_RESPONSE_blind chat_blind images_blind speech_blind
  : blind.

Lemma generateImage_blind openai prompt :
  console_blind (generateImage openai prompt).
Proof. unfold generateImage, media_catch. blind. Qed.

Lemma generateAudio_blind openai text0 :
  console_blind (generateAudio openai text0).
Proof. unfold generateAudio, media_catch. blind. Qed.

#[local] Hint Resolve generateImage_blind generateAudio_blind : blind.

Lemma generateText_blind openai prompt history :
  console_blind (generateText openai prompt history).
Proof. unfold generateText, flow_catch, slice_minus_5, spread. blind. Qed.

Lemma NextResponse_json_blind body init_status :
  console_blind (NextResponse_json body init_status).
Proof. unfold NextResponse_json. blind. Qed.

#[local] Hint Resolve generateText_blind NextResponse_json_blind : blind.

Lemma generation_catch_blind error : console_blind (generation_catch error).
Proof. unfold generation_catch. blind. Qed.

Lemma POST_catch_blind error : console_blind (POST_catch error).
Proof. unfold POST_catch. blind. Qed.

#[local] Hint Resolve generation_catch_blind POST_catch_blind : blind.

(** What the handler does once the message is accepted and the history
    is read. *)
Lemma respond_blind openai prompt history :
  console_blind
    (try_catch
       (response ← generateText openai prompt history;
        NextResponse_json (body_envelope response) None)
       generation_catch).
Proof. blind. Qed.

(** C7.  A history field that is a string [JSON.parse] rejects does not
    abort the request.  Whatever the message and the server, the response
    is the one the same request gets without a history field, and the one
    it gets with the history "[]"; the servers left behind agree on the
    credential, the cache, the clock and the exchanges with the provider
    (the console alone holds one more line, the parsing error).  And the
    request is taken up with the empty history: with a credential and a
    message that is not blank, a completion request goes upstream, and
    its messages open with the user's message, no entry of a history
    before it, followed by the system message of a two-stage flow at
    most. *)
Theorem malformed_history_is_empty_history
    (openai : Provider) (σ : Server) (message : option FormDataEntryValue)
    (historyStr : jsstring) :
  JSON.parse historyStr = None ->
  let request history :=
    {| formData := Return {| message := message; history := history |} |} in
  let malformed := request (Some (StringEntry historyStr)) in
  let absent := request None in
  let empty := request (Some (StringEntry (lit "[]"))) in
  (POST openai malformed σ).1 = (POST openai absent σ).1
  /\ same_but_console (POST openai malformed σ).2 (POST openai absent σ).2
  /\ (POST openai malformed σ).1 = (POST openai empty σ).1
  /\ same_but_console (POST openai malformed σ).2 (POST openai empty σ).2
  /\ (forall prompt,
        from_option JsString.truthy false (OPENAI_API_KEY σ) = true ->
        message = Some (StringEntry prompt) ->
        JsString.trim prompt <> [] ->
        exists params r rest tail,
          exchanged σ (POST openai malformed σ).2
          = {| call := chat_completions_create params; raised := r |} :: rest
          /\ messages params = user_message prompt :: tail
          /\ (tail = []
              \/ exists instruction name,
                   tail = [system_message instruction name])).
Proof.
  intros Hparse. simpl.
  assert (Hvalue : history_value (Some (StringEntry historyStr)) = JArray [])
    by (simpl; rewrite Hparse; now destruct (JsString.truthy historyStr)).
  destruct (read_history_run (Some (StringEntry historyStr)) σ)
    as (σh & Hread & Hσh).
  rewrite Hvalue in Hread.
  assert (Hsame : same_but_console σh σ)
    by (destruct Hσh as [-> | ->];
        [apply same_but_console_refl | apply same_but_console_logged]).
  assert (Haccepted : forall prompt history,
    from_option JsString.truthy false (OPENAI_API_KEY σ) = true ->
    JsString.trim prompt <> [] ->
    accepted σ {| formData := Return {| message := Some (StringEntry prompt);
                                        history := history |} |}
      {| message := Some (StringEntry prompt); history := history |} prompt)
    by (intros prompt history Hk Ht; repeat split; done).
  match goal with
  | |- ?A /\ ?B /\ ?C /\ ?D /\ _ =>
      assert (A /\ B /\ C /\ D) as (H1 & H2 & H3 & H4);
      [|repeat (split; [assumption|])]
  end.
  - destruct (from_option JsString.truthy false (OPENAI_API_KEY σ)) eqn:Hkey;
      [|unfold POST; run; rewrite Hkey; simpl;
        repeat split; apply same_but_console_refl].
    destruct message as [[|prompt]|];
      try (unfold POST; run; rewrite Hkey; simpl;
           repeat split; apply same_but_console_refl).
    destruct (JsString.trim prompt) as [|c rest] eqn:Htrim.
    { unfold POST; run; rewrite Hkey; simpl. rewrite Htrim. simpl.
      rewrite orb_true_r. repeat split; apply same_but_console_refl. }
    assert (Htrim' : JsString.trim prompt <> []) by now rewrite Htrim.
    rewrite (POST_accepted _ _ _ _ _ _ _ (Haccepted _ _ eq_refl Htrim') Hread).
    rewrite (POST_accepted openai _ σ _ _ (JArray []) σ
               (Haccepted _ None eq_refl Htrim')) by reflexivity.
    rewrite (POST_accepted openai _ σ _ _ (JArray []) σ
               (Haccepted _ (Some (StringEntry (lit "[]"))) eq_refl Htrim'))
      by (vm_compute; reflexivity).
    pose proof (blind_try_catch _ _ (respond_blind openai prompt (JArray []))
                  POST_catch_blind σh σ Hsame) as [Hresponse Hstate].
    split; [exact Hresponse | split; [exact Hstate | split; assumption]].
  - intros prompt Hkey -> Htrim.
    rewrite (POST_accepted_run _ _ _ _ _ _ _ (Haccepted _ _ Hkey Htrim) Hread).
    destruct (generateText_exchanges openai prompt (JArray []) σh I)
      as (params & r & rest & Hup & (tail & Hmessages & Htail) & _).
    assert (Hσ : upstream σh = upstream σ) by now destruct Hsame as (_ & _ & _ & ?).
    exists params, r, rest, tail. split; [|now split].
    destruct (generateText openai prompt (JArray []) σh) as [[response|error] σ1];
      simpl in Hup |- *.
    + unfold exchanged. simpl. rewrite Hup, Hσ. apply drop_app_length.
    + destruct (generation_catch_run error σ1) as (resp & σ' & -> & Hσ').
      unfold exchanged. simpl. destruct Hσ' as (_ & _ & _ & <-).
      rewrite Hup, Hσ. apply drop_app_length.
Qed.

(** A history cut short. *)
Lemma malformed_history_is_empty_history_witness :
  (POST Sample.provider (Sample.request (lit "hello") (Some (lit "{role:")))
     Sample.server).1
  = (POST Sample.provider (Sample.request (lit "hello") None) Sample.server).1
  /\ exists params r,
       exchanged Sample.server
         (POST Sample.provider
            (Sample.request (lit "hello") (Some (lit "{role:")))
            Sample.server).2
       = [{| call := chat_completions_create params; raised := r |}]
       /\ messages params = [user_message (lit "hello")].
Proof.
  destruct (malformed_history_is_empty_history Sample.provider Sample.server
              (Some (StringEntry (lit "hello"))) (lit "{role:"))
    as (Hresponse & _ & _ & _ & Htaken).
  - vm_compute. reflexivity.
  - split; [exact Hresponse|].
    destruct (Htaken (lit "hello")) as (params & r & rest & tail & Hex & Hm & _).
    + vm_compute. reflexivity.
    + reflexivity.
    + vm_compute. discriminate.
    + vm_compute in Hex. injection Hex as <- <- <-.
      do 2 eexists. split; reflexivity.
Defined.

(** ** The key of the cache *)

Lemma generateText_image_flow openai prompt history σ description :
  sliceable history ->
  description <> [] ->
  isImageRequest prompt = true ->
  chat_reply openai (upstream σ) (image_stage_one history prompt)
  = Return (Some description) ->
  generateText openai prompt history σ
  = match generateImage openai description
            (sent openai (chat_completions_create (image_stage_one history prompt))
               None σ) with
    | (Return imageBase64, σ2) =>
        (Return {| type := image;
                   content := lit "Here's the generated image based on your request.";
                   url := Some (lit "data:image/png;base64," ++ imageBase64) |},
         σ2)
    | (Throw error, σ2) =>
        if Error_with_message error REGION_ERROR
        then (Return region_envelope, σ2)
        else (Throw error, logged (lit "Text generation error:") error σ2)
    end.
Proof.
  intros Hslice Hne Himage Hchat.
  unfold image_stage_one, stage_one in *.
  destruct description as [|c d]; [done|].
  destruct history as [| | |s|items|]; try destruct Hslice; simpl in *.
  all: unfold generateText, openai_chat_completions_create, flow_catch,
         or_NO_RESPONSE; run; rewrite Himage, Hchat; simpl.
  all: media_cases; simpl; autorewrite with route; try reflexivity.
  all: cases; try reflexivity.
Qed.

Lemma generateText_audio_flow openai prompt history σ description :
  sliceable history ->
  description <> [] ->
  isImageRequest prompt = false ->
  isAudioRequest prompt = true ->
  chat_reply openai (upstream σ) (audio_stage_one history prompt)
  = Return (Some description) ->
  generateText openai prompt history σ
  = match generateAudio openai description
            (sent openai (chat_completions_create (audio_stage_one history prompt))
               None σ) with
    | (Return audioBase64, σ2) =>
        (Return {| type := audio;
                   content := description;
                   url := Some (lit "data:audio/mp3;base64," ++ audioBase64) |},
         σ2)
    | (Throw error, σ2) =>
        if Error_with_message error REGION_ERROR
        then (Return region_envelope, σ2)
        else (Throw error, logged (lit "Text generation error:") error σ2)
    end.
Proof.
  intros Hslice Hne Himage Haudio Hchat.
  unfold audio_stage_one, stage_one in *.
  destruct description as [|c d]; [done|].
  destruct history as [| | |s|items|]; try destruct Hslice; simpl in *.
  all: unfold generateText, openai_chat_completions_create, flow_catch,
         or_NO_RESPONSE; run; rewrite Himage, Haudio, Hchat; simpl.
  all: media_cases; simpl; autorewrite with route; try reflexivity.
  all: cases; try reflexivity.
Qed.

Lemma generateImage_other_keys openai prompt σ k :
  k <> generateCacheKey prompt image ->
  responseCache (generateImage openai prompt σ).2 !! k = responseCache σ !! k.
Proof.
  intros Hk.
  destruct (hit_or_miss σ (generateCacheKey prompt image))
    as [(entry & Hget & Hfresh) | Hmiss].
  - now rewrite (generateImage_hit _ _ _ _ Hget Hfresh).
  - rewrite (generateImage_miss _ _ _ Hmiss). simpl.
    destruct (image_reply openai (upstream σ) prompt) as [[[|c s]|]|error];
      simpl; try done.
    now rewrite lookup_insert_ne.
Qed.

Lemma generateAudio_other_keys openai text0 σ k :
  k <> generateCacheKey text0 audio ->
  responseCache (generateAudio openai text0 σ).2 !! k = responseCache σ !! k.
Proof.
  intros Hk.
  destruct (hit_or_miss σ (generateCacheKey text0 audio))
    as [(entry & Hget & Hfresh) | Hmiss].
  - now rewrite (generateAudio_hit _ _ _ _ Hget Hfresh).
  - rewrite (generateAudio_miss _ _ _ Hmiss). simpl.
    destruct (speech_reply openai (upstream σ) _ text0) as [mp3|error];
      simpl; try done.
    now rewrite lookup_insert_ne.
Qed.

(** C3, as the code has it.  In the two-stage flows the text under
    which the cache is read and written is the one the stage-one completion
    returned, paired with the kind; it is not the user's prompt, and prompt
    and history bear on it through that completion only.  For a request of
    image intent whose stage-one completion returns [description]: an entry
    that is in the cache under (image, description) and still fresh is
    served, with no media call; on a miss, a successful generation stores
    its payload under (image, description); no other key of the cache
    changes.  The same holds for audio intent with the key
    (audio, description).  Two requests whose stage-one texts coincide
    therefore share a cached result, whatever their prompts and
    histories. *)
Theorem cache_key_is_the_stage_one_text
    (openai : Provider) (prompt : jsstring) (history : json) (σ : Server)
    (description : jsstring) :
  sliceable history ->
  description <> [] ->
  let run := generateText openai prompt history σ in
  (isImageRequest prompt = true ->
   chat_reply openai (upstream σ) (image_stage_one history prompt)
   = Return (Some description) ->
   let σ1 := sent openai (chat_completions_create (image_stage_one history prompt))
               None σ in
   let key := generateCacheKey description image in
   (forall entry,
      responseCache σ !! key = Some entry -> fresh σ1 entry = true ->
      run = (Return {| type := image;
                       content := lit "Here's the generated image based on your request.";
                       url := Some (lit "data:image/png;base64," ++ data entry) |},
             σ1))
   /\ (forall c payload,
         miss σ1 key ->
         image_reply openai (upstream σ1) description = Return (Some (c :: payload)) ->
         responseCache run.2
         = <[key := {| data := c :: payload; timestamp := clock run.2 |}]>
             (responseCache σ))
   /\ (forall k, k <> key -> responseCache run.2 !! k = responseCache σ !! k))
  /\ (isImageRequest prompt = false ->
      isAudioRequest prompt = true ->
      chat_reply openai (upstream σ) (audio_stage_one history prompt)
      = Return (Some description) ->
      let σ1 := sent openai (chat_completions_create (audio_stage_one history prompt))
                  None σ in
      let key := generateCacheKey description audio in
      (forall entry,
         responseCache σ !! key = Some entry -> fresh σ1 entry = true ->
         run = (Return {| type := audio;
                          content := description;
                          url := Some (lit "data:audio/mp3;base64," ++ data entry) |},
                σ1))
      /\ (forall mp3,
            miss σ1 key ->
            speech_reply openai (upstream σ1) (voice_for description) description
            = Return mp3 ->
            responseCache run.2
            = <[key := {| data := JsString.base64 mp3; timestamp := clock run.2 |}]>
                (responseCache σ))
      /\ (forall k, k <> key -> responseCache run.2 !! k = responseCache σ !! k)).
Proof.
  intros Hslice Hne. simpl. split.
  - intros Himage Hchat.
    rewrite (generateText_image_flow _ _ _ _ _ Hslice Hne Himage Hchat).
    split; [|split].
    + intros entry Hget Hfresh.
      now rewrite (generateImage_hit openai description
                     (sent openai
                        (chat_completions_create (image_stage_one history prompt))
                        None σ) entry Hget Hfresh).
    + intros c payload Hmiss Hreply.
      rewrite (generateImage_miss _ _ _ Hmiss). simpl in *. now rewrite Hreply.
    + intros k Hk.
      pose proof (generateImage_other_keys openai description
        (sent openai (chat_completions_create (image_stage_one history prompt)) None σ)
        k Hk) as Hother.
      destruct (generateImage openai description _) as [[b64|error] σ2];
        simpl in *; [exact Hother|].
      now destruct (Error_with_message error REGION_ERROR).
  - intros Himage Haudio Hchat.
    rewrite (generateText_audio_flow _ _ _ _ _ Hslice Hne Himage Haudio Hchat).
    split; [|split].
    + intros entry Hget Hfresh.
      now rewrite (generateAudio_hit openai description
                     (sent openai
                        (chat_completions_create (audio_stage_one history prompt))
                        None σ) entry Hget Hfresh).
    + intros mp3 Hmiss Hreply.
      rewrite (generateAudio_miss _ _ _ Hmiss). simpl in *. now rewrite Hreply.
    + intros k Hk.
      pose proof (generateAudio_other_keys openai description
        (sent openai (chat_completions_create (audio_stage_one history prompt)) None σ)
        k Hk) as Hother.
      destruct (generateAudio openai description _) as [[b64|error] σ2];
        simpl in *; [exact Hother|].
      now destruct (Error_with_message error REGION_ERROR).
Qed.

(** After a first picture, another prompt in another conversation, given
    the same description by the provider, is served the stored image. *)
Lemma cache_key_is_the_stage_one_text_witness :
  generateText Sample.provider (lit "show me a logo") (JArray [JNull])
    Sample.after_first_drawing
  = (Return {| type := image;
               content := lit "Here's the generated image based on your request.";
               url := Some (lit "data:image/png;base64," ++ lit "QUJD") |},
     sent Sample.provider
       (chat_completions_create
          (image_stage_one (JArray [JNull]) (lit "show me a logo")))
       None Sample.after_first_drawing).
Proof.
  destruct (cache_key_is_the_stage_one_text Sample.provider
              (lit "show me a logo") (JArray [JNull])
              Sample.after_first_drawing (lit "A red fox!"))
    as ((Hlookup & _) & _).
  - exact I.
  - vm_compute. discriminate.
  - vm_compute. reflexivity.
  - reflexivity.
  - apply (Hlookup {| data := lit "QUJD"; timestamp := 1500 |});
      vm_compute; reflexivity.
Defined.

(** C3 as stated fails.  The same literal prompt, of image intent, is
    sent in a new conversation and then in one with a history.  The
    provider describes a cat the first time and a dog the second: nothing
    is stored under the literal prompt, the first image is stored under
    the cat's description, the second request sends a fresh image request
    upstream for the dog's, and the two responses differ. *)
Lemma same_prompt_other_history_is_not_shared :
  responseCache Sample.after_first_pet
    !! generateCacheKey Sample.pet_prompt image = None
  /\ data <$> (responseCache Sample.after_first_pet
                !! generateCacheKey (lit "A cat") image)
     = Some (lit "cGl4A cat")
  /\ call <$> last (upstream
                      (POST Sample.moody_provider
                         (Sample.request Sample.pet_prompt
                            (Some Sample.dog_history))
                         Sample.after_first_pet).2)
     = Some (images_generate (lit "A dog"))
  /\ (POST Sample.moody_provider (Sample.request Sample.pet_prompt None)
        Sample.server).1
     <> (POST Sample.moody_provider
           (Sample.request Sample.pet_prompt (Some Sample.dog_history))
           Sample.after_first_pet).1.
Proof.
  repeat split; try (vm_compute; reflexivity). vm_compute. discriminate.
Qed.

(** ** Further properties of the route *)

Ltac sample_accepted :=
  repeat split; try (vm_compute; reflexivity); vm_compute; discriminate.

(** X1.  The cache key tells the kind and the text it was built from:
    two keys are equal only for the same kind and the same text.  An
    image and a recording of one text never share an entry, and no text
    of one kind can pass for a text of another kind. *)
Theorem generateCacheKey_injective (p1 p2 : jsstring) (t1 t2 : ResponseType) :
  generateCacheKey p1 t1 = generateCacheKey p2 t2 -> t1 = t2 /\ p1 = p2.
Proof.
  unfold generateCacheKey. intros Hkey.
  destruct t1, t2; vm_compute in Hkey; simplify_eq; done.
Qed.

Lemma generateCacheKey_injective_witness :
  image = image /\ lit "a fox" = lit "a fox".
Proof.
  apply (generateCacheKey_injective (lit "a fox") (lit "a fox") image image).
  reflexivity.
Defined.

Lemma answers_bind {A B : Type} (Q : B -> Prop) (m : M A) (f : A -> M B) :
  (forall a, answers Q (f a)) -> answers Q (m ≫= f).
Proof.
  intros Hf σ r σ'. unfold mbind, M_bind.
  destruct (m σ) as [[a|e] σ1]; [apply Hf | done].
Qed.

Lemma answers_try_catch {A : Type} (Q : A -> Prop) (m : M A) (h : thrown -> M A) :
  answers Q m -> (forall e, answers Q (h e)) -> answers Q (try_catch m h).
Proof.
  intros Hm Hh σ r σ'. unfold try_catch.
  destruct (m σ) as [[a|e] σ1] eqn:Hrun; [|apply Hh].
  intros [= <- <-]. eapply Hm, Hrun.
Qed.

Lemma NextResponse_json_answers (b : ResponseBody) init_status :
  match b, init_status with
  | body_envelope _, Some _ => False
  | _, _ => True
  end ->
  answers well_formed_response (NextResponse_json b init_status).
Proof.
  intros Hshape σ r σ'. unfold NextResponse_json. run.
  destruct init_status as [s|]; [destruct b; [done|]|].
  - destruct ((s mod 65536 <? 200) || (599 <? s mod 65536)) eqn:Hrange; [done|].
    destruct (s mod 65536 =? 204) eqn:H204; [done|].
    destruct (s mod 65536 =? 205) eqn:H205; [done|].
    destruct (s mod 65536 =? 304) eqn:H304; [done|].
    intros [= <- <-]. apply orb_false_iff in Hrange as [Hlow Hhigh].
    apply Z.ltb_ge in Hlow, Hhigh. apply Z.eqb_neq in H204, H205, H304.
    unfold well_formed_response, response_status. simpl. repeat split; lia.
  - intros [= <- <-]. unfold well_formed_response, response_status. simpl.
    split; [lia | now destruct b].
Qed.

Lemma POST_catch_answers error : answers well_formed_response (POST_catch error).
Proof.
  unfold POST_catch. apply answers_bind. intros _.
  now apply NextResponse_json_answers.
Qed.

Lemma generation_catch_answers error :
  answers well_formed_response (generation_catch error).
Proof.
  unfold generation_catch. apply answers_bind. intros _.
  repeat case_match; now apply NextResponse_json_answers.
Qed.

(** X2.  The handler answers every request: whatever the request, the
    state of the server and the behaviour of the provider, [POST] returns
    a response and does not throw.  The status of that response lies
    between 200 and 599, and a body that is an envelope comes with status
    200. *)
Theorem POST_always_answers openai req σ :
  exists response σ',
    POST openai req σ = (Return response, σ')
    /\ well_formed_response response.
Proof.
  assert (Hanswers : answers well_formed_response (POST openai req)).
  { unfold POST. apply answers_try_catch; [|apply POST_catch_answers].
    apply answers_bind. intros key. case_match;
      [now apply NextResponse_json_answers|].
    apply answers_bind. intros form.
    repeat case_match; try (now apply NextResponse_json_answers).
    apply answers_bind. intros h.
    apply answers_try_catch; [|apply generation_catch_answers].
    apply answers_bind. intros response. now apply NextResponse_json_answers. }
  destruct (POST openai req σ) as [[r|e] σ'] eqn:Hrun.
  - exists r, σ'. split; [done|]. eapply Hanswers, Hrun.
  - exfalso. unfold POST, try_catch in Hrun.
    repeat match type of Hrun with
    | context [let (_, _) := ?b in _] => destruct b as [[? | ?] ?]
    end; [done|]. now rewrite POST_catch_run in Hrun.
Qed.

Lemma POST_without_credential openai req σ :
  from_option JsString.truthy false (OPENAI_API_KEY σ) = false ->
  POST openai req σ
  = (Return {| status := 500; body := body_error MISSING_API_KEY |}, σ).
Proof. intros Hkey. unfold POST. run. now rewrite Hkey. Qed.

(** X4.  With a credential, a request whose body [formData] cannot
    decode is answered with status 500 and the message of the error that
    was thrown (the processing message when it has none); the error is
    logged under "Chat API Error:" and the server is otherwise left as it
    was. *)
Theorem undecodable_body_is_500 openai req σ error :
  from_option JsString.truthy false (OPENAI_API_KEY σ) = true ->
  formData req = Throw error ->
  POST openai req σ
  = (Return {| status := 500;
               body := body_error (default PROCESSING_ERROR (Error_message error)) |},
     logged (lit "Chat API Error:") error σ).
Proof.
  intros Hkey Hform. unfold POST. run. rewrite Hkey. simpl. rewrite Hform.
  apply POST_catch_run.
Qed.

Lemma undecodable_body_is_500_witness :
  (POST Sample.provider Scenario.broken_request Sample.server).1
  = Return {| status := 500;
              body := body_error (lit "Failed to parse body as FormData.") |}.
Proof.
  rewrite (undecodable_body_is_500 Sample.provider Scenario.broken_request
             Sample.server (Error (lit "Failed to parse body as FormData."))).
  - reflexivity.
  - vm_compute. reflexivity.
  - reflexivity.
Defined.

(** Every request is either turned away before the history is read,
    the server unchanged but for the console, or taken up. *)
Lemma POST_turned_away_or_accepted openai req σ :
  (exists response σ',
      POST openai req σ = (Return response, σ')
      /\ same_but_console σ σ'
      /\ (exists error, body response = body_error error)
      /\ (status response = 400 \/ status response = 500))
  \/ (exists form prompt, accepted σ req form prompt).
Proof.
  destruct (from_option JsString.truthy false (OPENAI_API_KEY σ)) eqn:Hkey.
  2: { left. rewrite POST_without_credential by done.
       do 2 eexists. split; [reflexivity|].
       split; [apply same_but_console_refl|].
       simpl. eauto. }
  destruct (formData req) as [form|error] eqn:Hform.
  2: { left. unfold POST. run. rewrite Hkey. simpl. rewrite Hform.
       rewrite POST_catch_run. do 2 eexists. split; [reflexivity|].
       split; [now unfold same_but_console|]. simpl. eauto. }
  destruct (message form) as [[|prompt]|] eqn:Hmessage.
  3: { left. unfold POST. run. rewrite Hkey. simpl. rewrite Hform. simpl.
       rewrite Hmessage. do 2 eexists. split; [reflexivity|].
       split; [apply same_but_console_refl|]. simpl. eauto. }
  1: { left. unfold POST. run. rewrite Hkey. simpl. rewrite Hform. simpl.
       rewrite Hmessage. do 2 eexists. split; [reflexivity|].
       split; [apply same_but_console_refl|]. simpl. eauto. }
  destruct (JsString.trim prompt) as [|c rest] eqn:Htrim.
  - left. unfold POST. run. rewrite Hkey. simpl. rewrite Hform. simpl.
    rewrite Hmessage. simpl. rewrite Htrim. simpl. rewrite orb_true_r.
    do 2 eexists. split; [reflexivity|].
    split; [apply same_but_console_refl|]. simpl. eauto.
  - right. exists form, prompt. repeat split; try done. now rewrite Htrim.
Qed.

(** X3.  A request the handler does not take up (the credential is
    unset or empty, the body cannot be decoded, or the message is
    missing, a file, or blank) is turned away: the response carries an
    error body with status 400 or 500, no call goes upstream, and the
    server is left as it was but for the console. *)
Theorem request_not_taken_up_is_turned_away
    (openai : Provider) (req : Request) (σ : Server) :
  (forall form prompt, ~ accepted σ req form prompt) ->
  let run := POST openai req σ in
  exists response error,
    run.1 = Return response
    /\ body response = body_error error
    /\ (status response = 400 \/ status response = 500)
    /\ same_but_console σ run.2
    /\ exchanged σ run.2 = [].
Proof.
  intros Hnot. simpl.
  destruct (POST_turned_away_or_accepted openai req σ)
    as [(response & σ' & -> & Hsame & (error & Hbody) & Hstatus)
       | (form & prompt & Haccepted)].
  - exists response, error. simpl. repeat split; try done.
    all: try (destruct Hsame as (? & ? & ? & ?); done).
    unfold exchanged. destruct Hsame as (_ & _ & _ & <-). apply drop_all.
  - now destruct (Hnot form prompt).
Qed.

Lemma request_not_taken_up_is_turned_away_witness :
  exists response error,
    (POST Sample.provider (Sample.request (lit "hello") None)
       Sample.server_with_empty_key).1 = Return response
    /\ body response = body_error error.
Proof.
  destruct (request_not_taken_up_is_turned_away Sample.provider
              (Sample.request (lit "hello") None)
              Sample.server_with_empty_key)
    as (response & error & Hrun & Hbody & _).
  - intros form prompt [Hkey _]. vm_compute in Hkey. discriminate.
  - exists response, error. split; [exact Hrun | exact Hbody].
Defined.

Ltac open_first_request history Hslice :=
  unfold first_request, image_stage_one, audio_stage_one, stage_one,
    text_request in *;
  destruct history as [| | |?s|?items|]; try destruct Hslice; simpl in *;
  unfold generateText, openai_chat_completions_create, flow_catch,
    or_NO_RESPONSE; run.

Lemma generateText_first_reply_throws openai prompt history σ error :
  sliceable history ->
  chat_reply openai (upstream σ) (first_request history prompt) = Throw error ->
  generateText openai prompt history σ
  = let σ1 := sent openai (chat_completions_create (first_request history prompt))
                (Some error) σ in
    if (isImageRequest prompt || isAudioRequest prompt)
       && Error_with_message error REGION_ERROR
    then (Return region_envelope, σ1)
    else if APIError_with_code error unsupported_country_region_territory
    then (Return region_envelope, logged (lit "Text generation error:") error σ1)
    else (Throw error, logged (lit "Text generation error:") error σ1).
Proof.
  intros Hslice Hchat. open_first_request history Hslice.
  all: destruct (isImageRequest prompt); [|destruct (isAudioRequest prompt)];
    simpl in *; rewrite Hchat; simpl;
    try destruct (Error_with_message error REGION_ERROR); simpl;
    destruct (APIError_with_code error unsupported_country_region_territory);
    reflexivity.
Qed.

Lemma generateText_first_reply_empty openai prompt history σ reply :
  sliceable history ->
  chat_reply openai (upstream σ) (first_request history prompt) = Return reply ->
  reply = None \/ reply = Some [] ->
  generateText openai prompt history σ
  = (Throw (Error NO_RESPONSE),
     logged (lit "Text generation error:") (Error NO_RESPONSE)
       (sent openai (chat_completions_create (first_request history prompt))
          None σ)).
Proof.
  intros Hslice Hchat Hreply. open_first_request history Hslice.
  all: destruct (isImageRequest prompt); [|destruct (isAudioRequest prompt)];
    simpl in *; rewrite Hchat; destruct Hreply as [-> | ->]; simpl;
    autorewrite with route; reflexivity.
Qed.

Lemma generateText_text_flow openai prompt history σ c reply :
  sliceable history ->
  isImageRequest prompt = false ->
  isAudioRequest prompt = false ->
  chat_reply openai (upstream σ) (text_request history prompt)
  = Return (Some (c :: reply)) ->
  generateText openai prompt history σ
  = (Return {| type := text; content := c :: reply; url := None |},
     sent openai (chat_completions_create (text_request history prompt)) None σ).
Proof.
  intros Hslice Himage Haudio Hchat. open_first_request history Hslice.
  all: rewrite Himage, Haudio; simpl; now rewrite Hchat.
Qed.

Lemma same_but_console_trans σ1 σ2 σ3 :
  same_but_console σ1 σ2 -> same_but_console σ2 σ3 -> same_but_console σ1 σ3.
Proof.
  unfold same_but_console. intros (? & ? & ? & ?) (? & ? & ? & ?).
  repeat split; congruence.
Qed.

Lemma same_but_console_sym σ1 σ2 :
  same_but_console σ1 σ2 -> same_but_console σ2 σ1.
Proof. unfold same_but_console. intros (? & ? & ? & ?). repeat split; congruence. Qed.

Lemma NextResponse_json_pure b init_status :
  exists r, forall σ, NextResponse_json b init_status σ = (r, σ).
Proof. unfold NextResponse_json. run. cases; eauto. Qed.

(** What the catch clauses answer does not depend on the server. *)
Lemma generation_catch_pure error σ σ' :
  (try_catch (generation_catch error) POST_catch σ).1
  = (try_catch (generation_catch error) POST_catch σ').1.
Proof.
  assert (Hjson : forall b init_status s s',
    (try_catch (NextResponse_json b init_status) POST_catch s).1
    = (try_catch (NextResponse_json b init_status) POST_catch s').1).
  { intros b init_status s s'. unfold try_catch.
    destruct (NextResponse_json_pure b init_status) as ([r|e] & Hr);
      rewrite !Hr; [done|]. now rewrite !POST_catch_run. }
  unfold generation_catch. run.
  destruct error as [status code message|message|]; simpl;
    [destruct (bool_decide (code = Some content_policy_violation))| |];
    first [apply Hjson | reflexivity].
Qed.

(** The response to a request the handler takes up, read off the run of
    [generateText] from the server as the request found it. *)
Lemma POST_accepted_result openai req σ form prompt :
  accepted σ req form prompt ->
  let g := generateText openai prompt (history_value (history form)) σ in
  (POST openai req σ).1
  = match g.1 with
    | Return response =>
        Return {| status := 200; body := body_envelope response |}
    | Throw error => (try_catch (generation_catch error) POST_catch σ).1
    end
  /\ same_but_console g.2 (POST openai req σ).2.
Proof.
  intros Haccepted. simpl.
  destruct (read_history_run (history form) σ) as (σh & Hread & Hσh).
  rewrite (POST_accepted_run _ _ _ _ _ _ _ Haccepted Hread).
  assert (Hsame : same_but_console σh σ)
    by (destruct Hσh as [-> | ->];
        [apply same_but_console_refl | apply same_but_console_logged]).
  destruct (generateText_blind openai prompt (history_value (history form))
              σh σ Hsame) as [Hresult Hstate].
  destruct (generateText openai prompt _ σh) as [[response|error] σ1];
    destruct (generateText openai prompt _ σ) as [r2 σ2];
    simpl in *; subst r2; simpl.
  - split; [reflexivity | now apply same_but_console_sym].
  - split; [apply generation_catch_pure|].
    destruct (generation_catch_run error σ1) as (r & s' & -> & Hs).
    simpl. eapply same_but_console_trans; [|exact Hs].
    now apply same_but_console_sym.
Qed.

Lemma sliceable_or_not (history : json) :
  sliceable history \/ ~ sliceable history.
Proof. destruct history; simpl; tauto. Qed.

Lemma first_request_text history prompt :
  isImageRequest prompt = false -> isAudioRequest prompt = false ->
  first_request history prompt = text_request history prompt.
Proof. unfold first_request. now intros -> ->. Qed.

Lemma generateText_region_any openai prompt history σ :
  let run := generateText openai prompt history σ in
  Exists region_raised (exchanged σ run.2) ->
  run.1 = Return region_envelope.
Proof.
  destruct (isImageRequest prompt || isAudioRequest prompt) eqn:Hintent;
    [now apply generateText_region|].
  apply orb_false_iff in Hintent as [Himage Haudio]. simpl.
  destruct (sliceable_or_not history) as [Hslice | Hslice].
  - destruct (chat_reply openai (upstream σ) (first_request history prompt))
      as [[[|c reply]|]|error] eqn:Hchat.
    + rewrite (generateText_first_reply_empty _ _ _ _ _ Hslice Hchat) by tauto.
      finish_region.
    + rewrite first_request_text in Hchat by done.
      rewrite (generateText_text_flow _ _ _ _ _ _ Hslice Himage Haudio Hchat).
      finish_region.
    + rewrite (generateText_first_reply_empty _ _ _ _ _ Hslice Hchat) by tauto.
      finish_region.
    + rewrite (generateText_first_reply_throws _ _ _ _ _ Hslice Hchat).
      rewrite Himage, Haudio. simpl.
      destruct (APIError_with_code error _) eqn:Hcode; [done|]. finish_region.
  - destruct (generateText_unsliceable openai prompt history σ Hslice)
      as (message & ->). finish_region.
Qed.

Lemma exchanged_same_upstream σ σ1 σ2 :
  same_but_console σ1 σ2 -> exchanged σ σ1 = exchanged σ σ2.
Proof. unfold exchanged. now intros (_ & _ & _ & ->). Qed.



Lemma exchanged_one σ σ' x :
  upstream σ' = upstream σ ++ [x] -> exchanged σ σ' = [x].
Proof. unfold exchanged. intros ->. now rewrite drop_app_length. Qed.

(** X6.  When the first completion of a request the handler takes up
    comes back without content, or with the empty string, for every
    intent: the response is 500 with the no-response message, that
    completion is the only exchange of the request, and the cache is left
    as it was. *)
Theorem empty_completion_is_500
    (openai : Provider) (req : Request) (σ : Server) (form : FormData)
    (prompt : jsstring) (reply : option jsstring) :
  accepted σ req form prompt ->
  sliceable (history_value (history form)) ->
  chat_reply openai (upstream σ)
    (first_request (history_value (history form)) prompt) = Return reply ->
  reply = None \/ reply = Some [] ->
  let run := POST openai req σ in
  run.1 = Return {| status := 500; body := body_error NO_RESPONSE |}
  /\ exchanged σ run.2
     = [{| call := chat_completions_create
                     (first_request (history_value (history form)) prompt);
           raised := None |}]
  /\ responseCache run.2 = responseCache σ.
Proof.
  intros Haccepted Hslice Hchat Hreply. simpl.
  destruct (POST_accepted_result openai req σ form prompt Haccepted)
    as [-> Hsame].
  rewrite <- (exchanged_same_upstream _ _ _ Hsame).
  destruct Hsame as (_ & <- & _ & _).
  rewrite (generateText_first_reply_empty _ _ _ _ _ Hslice Hchat Hreply).
  simpl. split; [reflexivity|]. split; [|reflexivity].
  now apply exchanged_one.
Qed.

Lemma empty_completion_is_500_witness :
  (POST Sample.silent_provider (Sample.request (lit "hello") None)
     Sample.server).1
  = Return {| status := 500; body := body_error NO_RESPONSE |}.
Proof.
  apply (empty_completion_is_500 Sample.silent_provider
           (Sample.request (lit "hello") None) Sample.server
           (Sample.form (lit "hello") None) (lit "hello") None).
  - sample_accepted.
  - exact I.
  - vm_compute. reflexivity.
  - left. reflexivity.
Defined.

(** X7.  When the first completion of a request the handler takes up
    throws an API error that is not about the region: the code
    [content_policy_violation] gives status 400 and the content-policy
    message; otherwise the status 401 gives 401 and the invalid-key
    message, and the status 429 gives 429 and the rate-limit message. *)
Theorem stage_one_api_error_is_mapped
    (openai : Provider) (req : Request) (σ : Server) (form : FormData)
    (prompt : jsstring) (status : option Z) (code : option jsstring)
    (message : jsstring) :
  accepted σ req form prompt ->
  sliceable (history_value (history form)) ->
  chat_reply openai (upstream σ)
    (first_request (history_value (history form)) prompt)
  = Throw (APIError status code message) ->
  code <> Some unsupported_country_region_territory ->
  message <> REGION_ERROR ->
  let response := (POST openai req σ).1 in
  (code = Some content_policy_violation ->
   response = Return {| status := 400; body := body_error CONTENT_POLICY |})
  /\ (code <> Some content_policy_violation -> status = Some 401 ->
      response = Return {| status := 401; body := body_error INVALID_API_KEY |})
  /\ (code <> Some content_policy_violation -> status = Some 429 ->
      response = Return {| status := 429; body := body_error RATE_LIMIT |}).
Proof.
  intros Haccepted Hslice Hchat Hcode Hmessage. simpl.
  destruct (POST_accepted_result openai req σ form prompt Haccepted)
    as [-> _].
  rewrite (generateText_first_reply_throws _ _ _ _ _ Hslice Hchat). cbv zeta.
  assert (Hm : Error_with_message (APIError status code message) REGION_ERROR = false).
  { unfold Error_with_message. simpl. now apply bool_decide_eq_false. }
  assert (Hc : APIError_with_code (APIError status code message)
                 unsupported_country_region_territory = false).
  { destruct code as [c|]; simpl; [|done]. apply bool_decide_eq_false. congruence. }
  rewrite Hm, Hc, andb_false_r. simpl.
  unfold generation_catch. run.
  split; [|split].
  - intros ->. rewrite bool_decide_eq_true_2 by done. reflexivity.
  - intros Hpolicy ->. rewrite !bool_decide_eq_false_2 by done. reflexivity.
  - intros Hpolicy ->. rewrite !bool_decide_eq_false_2 by done. reflexivity.
Qed.

Lemma stage_one_api_error_is_mapped_witness :
  (POST Scenario.unauthorized_provider (Sample.request (lit "hello") None)
     Sample.server).1
  = Return {| status := 401; body := body_error INVALID_API_KEY |}.
Proof.
  apply (stage_one_api_error_is_mapped Scenario.unauthorized_provider
           (Sample.request (lit "hello") None) Sample.server
           (Sample.form (lit "hello") None) (lit "hello")
           (Some 401) (Some (lit "invalid_api_key"))
           (lit "Incorrect API key provided")).
  - sample_accepted.
  - exact I.
  - vm_compute. reflexivity.
  - vm_compute. discriminate.
  - vm_compute. discriminate.
  - vm_compute. discriminate.
  - reflexivity.
Defined.

Lemma first_request_image history prompt :
  isImageRequest prompt = true ->
  first_request history prompt = image_stage_one history prompt.
Proof. unfold first_request. now intros ->. Qed.

Lemma first_request_audio history prompt :
  isImageRequest prompt = false -> isAudioRequest prompt = true ->
  first_request history prompt = audio_stage_one history prompt.
Proof. unfold first_request. now intros -> ->. Qed.

(** X8.  A failure of the media stage is answered 500 with the media
    message, whatever went wrong, and stores nothing.  For an image
    request whose description is not in the cache: the synthesis returns
    no payload or an empty one, or throws anything but an API error of
    the region code.  For an audio request whose text is not in the
    cache: the speech synthesis throws anything but such an error.  The
    message of the error thrown is not passed on. *)
Theorem media_failure_is_500_media_error
    (openai : Provider) (req : Request) (σ : Server) (form : FormData)
    (prompt description : jsstring) :
  accepted σ req form prompt ->
  sliceable (history_value (history form)) ->
  description <> [] ->
  chat_reply openai (upstream σ)
    (first_request (history_value (history form)) prompt)
  = Return (Some description) ->
  let σ1 := sent openai
              (chat_completions_create
                 (first_request (history_value (history form)) prompt))
              None σ in
  let run := POST openai req σ in
  let masked :=
    run.1 = Return {| status := 500; body := body_error MEDIA_ERROR |}
    /\ responseCache run.2 = responseCache σ in
  (isImageRequest prompt = true ->
   miss σ1 (generateCacheKey description image) ->
   match image_reply openai (upstream σ1) description with
   | Return (Some (_ :: _)) => False
   | Return (Some []) | Return None => True
   | Throw error =>
       APIError_with_code error unsupported_country_region_territory = false
   end ->
   masked)
  /\ (isImageRequest prompt = false ->
      isAudioRequest prompt = true ->
      miss σ1 (generateCacheKey description audio) ->
      forall error,
        speech_reply openai (upstream σ1) (voice_for description) description
        = Throw error ->
        APIError_with_code error unsupported_country_region_territory = false ->
        masked).
Proof.
  intros Haccepted Hslice Hne Hchat. simpl.
  destruct (POST_accepted_result openai req σ form prompt Haccepted)
    as [-> Hsame].
  destruct Hsame as (_ & <- & _ & _).
  split.
  - intros Himage Hmiss Hreply.
    rewrite first_request_image in * by done.
    rewrite (generateText_image_flow _ _ _ _ _ Hslice Hne Himage Hchat).
    rewrite (generateImage_miss _ _ _ Hmiss). simpl.
    destruct (image_reply openai _ description) as [[[|c s]|]|error];
      simpl; try done; rewrite ?Hreply;
      rewrite MEDIA_ERROR_not_REGION_ERROR; simpl; split; reflexivity.
  - intros Himage Haudio Hmiss error Hreply Hcode.
    rewrite first_request_audio in * by done.
    rewrite (generateText_audio_flow _ _ _ _ _ Hslice Hne Himage Haudio Hchat).
    rewrite (generateAudio_miss _ _ _ Hmiss). simpl. rewrite Hreply, Hcode.
    rewrite MEDIA_ERROR_not_REGION_ERROR; simpl; split; reflexivity.
Qed.

Lemma media_failure_is_500_media_error_witness :
  (POST Scenario.failing_media_provider
     (Sample.request Scenario.fox_prompt None) Sample.server).1
  = Return {| status := 500; body := body_error MEDIA_ERROR |}
  /\ (POST Scenario.failing_media_provider
        (Sample.request Scenario.voice_prompt None) Sample.server).1
     = Return {| status := 500; body := body_error MEDIA_ERROR |}.
Proof.
  split.
  - destruct (media_failure_is_500_media_error Scenario.failing_media_provider
                (Sample.request Scenario.fox_prompt None) Sample.server
                (Sample.form Scenario.fox_prompt None) Scenario.fox_prompt
                (lit "A red fox!")) as [Himage _].
    + sample_accepted.
    + exact I.
    + vm_compute. discriminate.
    + vm_compute. reflexivity.
    + apply Himage.
      * vm_compute. reflexivity.
      * vm_compute. exact I.
      * vm_compute. exact I.
  - destruct (media_failure_is_500_media_error Scenario.failing_media_provider
                (Sample.request Scenario.voice_prompt None) Sample.server
                (Sample.form Scenario.voice_prompt None) Scenario.voice_prompt
                (lit "A red fox!")) as [_ Haudio].
    + sample_accepted.
    + exact I.
    + vm_compute. discriminate.
    + vm_compute. reflexivity.
    + apply Haudio with (error := Error (lit "socket hang up")).
      * vm_compute. reflexivity.
      * vm_compute. reflexivity.
      * vm_compute. exact I.
      * vm_compute. reflexivity.
      * vm_compute. reflexivity.
Defined.

(** X9.  A request of neither image nor audio intent never touches the
    cache.  When its history is an array or a string, it makes exactly
    one call upstream, a completion over the last entries of the history
    and the prompt, with no system message, and a completion with content
    is returned as it came, in a text envelope with status 200.  When its
    history is any other JSON value ([null], a boolean, a number, an
    object), [slice] throws: no call goes upstream and the answer is an
    error body with status 500. *)
Theorem text_intent_makes_one_completion_or_none
    (openai : Provider) (req : Request) (σ : Server) (form : FormData)
    (prompt : jsstring) :
  accepted σ req form prompt ->
  isImageRequest prompt = false ->
  isAudioRequest prompt = false ->
  let history := history_value (history form) in
  let request := text_request history prompt in
  let answer := chat_reply openai (upstream σ) request in
  let run := POST openai req σ in
  responseCache run.2 = responseCache σ
  /\ (sliceable history ->
      exchanged σ run.2
      = [{| call := chat_completions_create request;
            raised := raised_by answer |}]
      /\ (forall c reply,
            answer = Return (Some (c :: reply)) ->
            run.1 = Return {| status := 200;
                              body := body_envelope
                                        {| type := text; content := c :: reply;
                                           url := None |} |}))
  /\ (~ sliceable history ->
      exchanged σ run.2 = []
      /\ exists message,
           run.1 = Return {| status := 500; body := body_error message |}).
Proof.
  intros Haccepted Himage Haudio. simpl.
  destruct (POST_accepted_result openai req σ form prompt Haccepted)
    as [-> Hsame].
  rewrite <- (exchanged_same_upstream _ _ _ Hsame).
  destruct Hsame as (_ & <- & _ & _).
  pose proof (first_request_text (history_value (history form)) prompt
                Himage Haudio) as Hfirst.
  destruct (sliceable_or_not (history_value (history form)))
    as [Hslice | Hslice].
  2: { destruct (generateText_unsliceable openai prompt _ σ Hslice)
         as (message & ->). simpl.
       split; [reflexivity|]. split; [done|]. intros _.
       split; [unfold exchanged; simpl; apply drop_all|].
       exists message. reflexivity. }
  assert (forall P Q R : Prop, P -> Q -> P /\ (sliceable (history_value (history form)) -> Q) /\ (~ sliceable (history_value (history form)) -> R)) as Hcut
    by (intros P Q R HP HQ; split; [done|]; split; [done|]; intros []; done).
  destruct (chat_reply openai (upstream σ)
              (text_request (history_value (history form)) prompt))
    as [[[|c reply]|]|error] eqn:Hchat; rewrite <- Hfirst in Hchat.
  - rewrite (generateText_first_reply_empty _ _ _ _ _ Hslice Hchat) by tauto.
    rewrite Hfirst. simpl. apply Hcut; [done|].
    split; [now apply exchanged_one | done].
  - rewrite Hfirst in Hchat.
    rewrite (generateText_text_flow _ _ _ _ _ _ Hslice Himage Haudio Hchat).
    simpl. apply Hcut; [done|]. split; [now apply exchanged_one|].
    now intros ? ? [= <- <-].
  - rewrite (generateText_first_reply_empty _ _ _ _ _ Hslice Hchat) by tauto.
    rewrite Hfirst. simpl. apply Hcut; [done|].
    split; [now apply exchanged_one | done].
  - rewrite (generateText_first_reply_throws _ _ _ _ _ Hslice Hchat).
    rewrite Himage, Haudio, Hfirst. simpl.
    destruct (APIError_with_code error _); simpl;
      (apply Hcut; [done|]); (split; [now apply exchanged_one | done]).
Qed.

Lemma text_intent_makes_one_completion_or_none_witness :
  (POST Sample.provider (Sample.request (lit "hello") None) Sample.server).1
  = Return {| status := 200;
              body := body_envelope
                        {| type := text; content := lit "A red fox!";
                           url := None |} |}
  /\ exchanged Sample.server
       (POST Sample.provider (Sample.request (lit "hello") (Some (lit "42")))
          Sample.server).2 = [].
Proof.
  split.
  - destruct (text_intent_makes_one_completion_or_none Sample.provider
                (Sample.request (lit "hello") None) Sample.server
                (Sample.form (lit "hello") None) (lit "hello"))
      as (_ & Harray & _).
    + sample_accepted.
    + vm_compute. reflexivity.
    + vm_compute. reflexivity.
    + destruct (Harray I) as [_ Hreply].
      apply (Hreply 65%N (lit " red fox!")). vm_compute. reflexivity.
  - destruct (text_intent_makes_one_completion_or_none Sample.provider
                (Sample.request (lit "hello") (Some (lit "42"))) Sample.server
                (Sample.form (lit "hello") (Some (lit "42"))) (lit "hello"))
      as (_ & _ & Hother).
    + sample_accepted.
    + vm_compute. reflexivity.
    + vm_compute. reflexivity.
    + apply Hother. vm_compute. tauto.
Defined.

Lemma exchanged_two σ σ' x y :
  upstream σ' = (upstream σ ++ [x]) ++ [y] -> exchanged σ σ' = [x; y].
Proof.
  unfold exchanged. intros ->. rewrite <- app_assoc. now rewrite drop_app_length.
Qed.

Ltac shape :=
  simpl;
  first
    [ right; left; eexists; split; [apply exchanged_one; reflexivity | exact I]
    | right; right; do 2 eexists; split;
      [apply exchanged_two; reflexivity | repeat split] ].

Ltac written kind :=
  first
    [ left; reflexivity
    | right; exists kind; do 3 eexists;
      split; [auto|]; split; [reflexivity|]; split; [reflexivity|];
      split; reflexivity ].

Lemma generateText_shape openai prompt history σ :
  let run := generateText openai prompt history σ in
  one_or_two_exchanges (exchanged σ run.2) /\ cache_written σ run.2 run.1.
Proof.
  simpl. unfold one_or_two_exchanges, cache_written.
  destruct (sliceable_or_not history) as [Hslice | Hslice].
  2: { destruct (generateText_unsliceable openai prompt history σ Hslice)
         as (message & ->). simpl. split; [left|left; reflexivity].
       unfold exchanged. simpl. apply drop_all. }
  destruct (chat_reply openai (upstream σ) (first_request history prompt))
    as [[[|c d]|]|error] eqn:Hchat.
  - rewrite (generateText_first_reply_empty _ _ _ _ _ Hslice Hchat) by tauto.
    split; [shape | written image].
  - destruct (isImageRequest prompt) eqn:Himage;
      [|destruct (isAudioRequest prompt) eqn:Haudio].
    + rewrite first_request_image in Hchat by done.
      rewrite (generateText_image_flow _ _ _ _ (c :: d) Hslice) by done.
      media_cases; simpl; autorewrite with route; simpl;
        repeat case_match; (split; [shape | written image]).
    + rewrite first_request_audio in Hchat by done.
      rewrite (generateText_audio_flow _ _ _ _ (c :: d) Hslice) by done.
      media_cases; simpl; autorewrite with route; simpl;
        repeat case_match; (split; [shape | written audio]).
    + rewrite first_request_text in Hchat by done.
      rewrite (generateText_text_flow _ _ _ _ _ _ Hslice Himage Haudio Hchat).
      split; [shape | written image].
  - rewrite (generateText_first_reply_empty _ _ _ _ _ Hslice Hchat) by tauto.
    split; [shape | written image].
  - rewrite (generateText_first_reply_throws _ _ _ _ _ Hslice Hchat).
    cbv zeta. repeat case_match; (split; [shape | written image]).
Qed.

(** X10.  A request makes no call upstream, or one completion, or one
    completion that did not throw followed by one image or speech
    synthesis; never more, and never a synthesis without a completion
    before it. *)
Theorem request_makes_at_most_two_calls openai req σ :
  one_or_two_exchanges (exchanged σ (POST openai req σ).2).
Proof.
  destruct (POST_turned_away_or_accepted openai req σ)
    as [(response & σ' & -> & Hsame & _) | (form & prompt & Haccepted)].
  - left. simpl. unfold exchanged. destruct Hsame as (_ & _ & _ & <-).
    apply drop_all.
  - destruct (POST_accepted_result openai req σ form prompt Haccepted)
      as [_ Hsame].
    rewrite <- (exchanged_same_upstream _ _ _ Hsame).
    apply generateText_shape.
Qed.

(** X11.  A request leaves the cache as it found it, or writes exactly
    one entry: under a key of kind image or audio, dated with the clock at
    the end of the request, holding the payload of the data URL that the
    response, of status 200 and of that kind, carries.  No request
    removes an entry, and no failed request writes one. *)
Theorem cache_changes_only_with_a_media_reply openai req σ :
  let run := POST openai req σ in
  responseCache run.2 = responseCache σ
  \/ exists kind key_text payload response,
       (kind = image \/ kind = audio)
       /\ responseCache run.2
          = <[generateCacheKey key_text kind
              := {| data := payload; timestamp := clock run.2 |}]>
              (responseCache σ)
       /\ run.1 = Return {| status := 200; body := body_envelope response |}
       /\ type response = kind
       /\ url response = Some (data_url kind payload).
Proof.
  simpl.
  destruct (POST_turned_away_or_accepted openai req σ)
    as [(response & σ' & -> & Hsame & _) | (form & prompt & Haccepted)].
  - left. simpl. now destruct Hsame as (_ & <- & _ & _).
  - destruct (POST_accepted_result openai req σ form prompt Haccepted)
      as [-> Hsame].
    destruct Hsame as (_ & <- & <- & _).
    destruct (generateText_shape openai prompt (history_value (history form)) σ)
      as [_ [Hsame | (kind & key_text & payload & response & Hkind & Hcache
                       & Hresult & Htype & Hurl)]].
    + now left.
    + right. exists kind, key_text, payload, response.
      rewrite Hresult. repeat split; assumption.
Qed.

(** X12.  The same image request twice, with any time in between.  The
    first request is drawn afresh.  The second arrives on a server that
    still holds the entry of the first (other requests may have been
    served meanwhile), and its completion returns the same description.
    The age of the entry at the lookup is the time from the end of the
    first request to the end of the second completion, idle time
    included.  Under 300000 ms the second response is the first one, the
    second request makes the completion call only, and the cache is left
    as it is; from 300000 ms on the image is drawn again, a completion and
    a synthesis going upstream. *)
Theorem repeated_image_request_is_served_from_cache
    (openai : Provider) (req : Request) (σ : Server) (form : FormData)
    (prompt description : jsstring) (c : N) (payload : jsstring)
    (σ2 : Server) :
  accepted σ req form prompt ->
  sliceable (history_value (history form)) ->
  isImageRequest prompt = true ->
  description <> [] ->
  let request := image_stage_one (history_value (history form)) prompt in
  let key := generateCacheKey description image in
  let σ1 := sent openai (chat_completions_create request) None σ in
  chat_reply openai (upstream σ) request = Return (Some description) ->
  miss σ1 key ->
  image_reply openai (upstream σ1) description = Return (Some (c :: payload)) ->
  let first := POST openai req σ in
  OPENAI_API_KEY σ2 = OPENAI_API_KEY first.2 ->
  responseCache σ2 !! key = responseCache first.2 !! key ->
  chat_reply openai (upstream σ2) request = Return (Some description) ->
  let σ3 := sent openai (chat_completions_create request) None σ2 in
  let age := clock σ3 - clock first.2 in
  let second := POST openai req σ2 in
  first.1
  = Return {| status := 200;
              body := body_envelope
                        {| type := image;
                           content := lit "Here's the generated image based on your request.";
                           url := Some (data_url image (c :: payload)) |} |}
  /\ (age < 300000 ->
      second.1 = first.1
      /\ exchanged σ2 second.2
         = [{| call := chat_completions_create request; raised := None |}]
      /\ responseCache second.2 = responseCache σ2)
  /\ (300000 <= age ->
      exchanged σ2 second.2
      = [{| call := chat_completions_create request; raised := None |};
         {| call := images_generate description;
            raised := raised_by (image_reply openai (upstream σ3)
                                   description) |}]).
Proof.
  intros Haccepted Hslice Himage Hne. simpl.
  intros Hchat Hmiss Hreply.
  destruct (POST_accepted_result openai req σ form prompt Haccepted)
    as [Hfirst Hsame].
  rewrite (generateText_image_flow _ _ _ _ _ Hslice Hne Himage Hchat)
    in Hfirst, Hsame.
  rewrite (generateImage_miss _ _ _ Hmiss) in Hfirst, Hsame.
  simpl in Hfirst, Hsame. rewrite Hreply in Hfirst, Hsame.
  simpl in Hfirst, Hsame.
  set (σ' := (POST openai req σ).2) in *.
  destruct Hsame as (Hkey & Hcache & Hclock & Hup). simpl in *.
  intros Hkey2 Hentry Hchat'.
  assert (Hstored : responseCache σ2 !! generateCacheKey description image
                    = Some {| data := c :: payload; timestamp := clock σ' |}).
  { rewrite Hentry, <- Hcache, <- Hclock. apply lookup_insert_eq. }
  assert (Haccepted' : accepted σ2 req form prompt).
  { destruct Haccepted as (Hk & ? & ? & ?). repeat split; try done.
    now rewrite Hkey2, <- Hkey. }
  destruct (POST_accepted_result openai req σ2 form prompt Haccepted')
    as [Hsecond Hsame'].
  rewrite (generateText_image_flow _ _ _ _ _ Hslice Hne Himage Hchat')
    in Hsecond, Hsame'.
  split; [exact Hfirst|]. split.
  - intros Hage.
    erewrite generateImage_hit in Hsecond, Hsame'.
    2,4: exact Hstored.
    2,3: unfold fresh, CACHE_TTL; simpl; apply Z.ltb_lt; exact Hage.
    simpl in *. rewrite Hfirst, Hsecond. repeat split.
    + rewrite <- (exchanged_same_upstream _ _ _ Hsame'). now apply exchanged_one.
    + now destruct Hsame' as (_ & <- & _ & _).
  - intros Hage.
    rewrite <- (exchanged_same_upstream _ _ _ Hsame').
    rewrite generateImage_miss.
    2: { unfold miss. simpl. rewrite Hstored. unfold fresh, CACHE_TTL. simpl.
         now apply Z.ltb_ge. }
    simpl.
    match goal with
    | |- context [raised_by ?answer] => destruct answer as [[[|? ?]|]|error]
    end; simpl; autorewrite with route; repeat case_match; simpl;
      apply exchanged_two; reflexivity.
Qed.

Lemma repeated_image_request_is_served_from_cache_witness :
  let req := Sample.request Scenario.fox_prompt None in
  let first := POST Sample.provider req Sample.server in
  (POST Sample.provider req (after_idle 299749 first.2)).1 = first.1
  /\ length (exchanged (after_idle 299749 first.2)
               (POST Sample.provider req (after_idle 299749 first.2)).2)
     = 1%nat
  /\ length (exchanged (after_idle 299750 first.2)
               (POST Sample.provider req (after_idle 299750 first.2)).2)
     = 2%nat.
Proof.
  cbv zeta.
  destruct (repeated_image_request_is_served_from_cache Sample.provider
              (Sample.request Scenario.fox_prompt None) Sample.server
              (Sample.form Scenario.fox_prompt None) Scenario.fox_prompt
              (lit "A red fox!") 81%N (lit "UJD")
              (after_idle 299749
                 (POST Sample.provider
                    (Sample.request Scenario.fox_prompt None)
                    Sample.server).2))
    as (_ & Hfresh & _).
  1: sample_accepted.
  1: exact I.
  1-8: vm_compute; first [reflexivity | discriminate | exact I].
  destruct (repeated_image_request_is_served_from_cache Sample.provider
              (Sample.request Scenario.fox_prompt None) Sample.server
              (Sample.form Scenario.fox_prompt None) Scenario.fox_prompt
              (lit "A red fox!") 81%N (lit "UJD")
              (after_idle 299750
                 (POST Sample.provider
                    (Sample.request Scenario.fox_prompt None)
                    Sample.server).2))
    as (_ & _ & Hstale).
  1: sample_accepted.
  1: exact I.
  1-8: vm_compute; first [reflexivity | discriminate | exact I].
  destruct Hfresh as (Hsame & Hone & _); [vm_compute; reflexivity|].
  split; [exact Hsame|]. split.
  - rewrite Hone. reflexivity.
  - rewrite Hstale; [reflexivity|]. vm_compute. discriminate.
Defined.

(** ** The intent classifier *)

Lemma matches_at_spec (pat s : jsstring) :
  JsString.matches_at pat s = true
  <-> exists mid after, s = mid ++ after /\ same_letters pat mid.
Proof.
  revert s. induction pat as [|p pat IH]; intros s; simpl.
  - split; [intros _; exists [], s; split; [done | constructor]|done].
  - destruct s as [|c s].
    + split; [done|]. intros (mid & after & Hs & Hsame).
      inversion Hsame; subst. discriminate.
    + rewrite andb_true_iff, N.eqb_eq, IH. split.
      * intros (Hc & mid & after & -> & Hsame).
        exists (c :: mid), after. split; [done | now constructor].
      * intros (mid & after & Hs & Hsame).
        inversion Hsame as [|? y ? mid' Hy Hrest]; subst.
        injection Hs as <- ->. eauto.
Qed.

Lemma regex_test_spec (alternatives : list jsstring) (s : jsstring) :
  JsString.regex_test alternatives s = true
  <-> exists word, word ∈ alternatives /\ occurs word s.
Proof.
  unfold occurs. induction s as [|c s IH]; simpl.
  - rewrite orb_false_r, existsb_exists. split.
    + intros (word & Hin & (mid & after & Hs & Hsame)%matches_at_spec).
      exists word. split; [now apply list_elem_of_In|].
      exists [], mid, after. split; [exact Hs | exact Hsame].
    + intros (word & Hin & before & mid & after & Hs & Hsame).
      exists word. split; [now apply list_elem_of_In|].
      apply matches_at_spec. destruct before; [|done]. simpl in Hs. eauto.
  - rewrite orb_true_iff, existsb_exists, IH. split.
    + intros [(word & Hin & (mid & after & Hs & Hsame)%matches_at_spec)
             | (word & Hin & before & mid & after & Hs & Hsame)].
      * exists word. split; [now apply list_elem_of_In|].
        exists [], mid, after. split; [exact Hs | exact Hsame].
      * exists word. split; [done|]. exists (c :: before), mid, after.
        split; [simpl; now rewrite Hs | exact Hsame].
    + intros (word & Hin & before & mid & after & Hs & Hsame).
      destruct before as [|b before]; simpl in Hs.
      * left. exists word. split; [now apply list_elem_of_In|].
        apply matches_at_spec. eauto.
      * injection Hs as <- ->. right. exists word. split; [done|].
        exists before, mid, after. now split.
Qed.

(** X13.  A prompt is an image request exactly when one of the image
    action words and one of the image subject words each stand somewhere
    in it, letter case apart; an audio request exactly when one of the
    audio action words and one of the audio subject words do.  The words
    need not be whole words of the prompt, nor in any order. *)
Theorem request_kind_by_words (prompt : jsstring) :
  (isImageRequest prompt = true
   <-> (exists word, word ∈ image_action /\ occurs word prompt)
       /\ (exists word, word ∈ image_subject /\ occurs word prompt))
  /\ (isAudioRequest prompt = true
      <-> (exists word, word ∈ audio_action /\ occurs word prompt)
          /\ (exists word, word ∈ audio_subject /\ occurs word prompt)).
Proof.
  unfold isImageRequest, isAudioRequest.
  now rewrite !andb_true_iff, !regex_test_spec.
Qed.

Lemma occurs_context word before s after :
  occurs word s -> occurs word (before ++ s ++ after).
Proof.
  intros (b & mid & a & -> & Hword).
  exists (before ++ b), mid, (a ++ after). split; [|done].
  now rewrite <- !app_assoc.
Qed.

Lemma first_request_intent history prompt :
  first_request history prompt
  = match intent prompt with
    | image => image_stage_one history prompt
    | audio => audio_stage_one history prompt
    | text => text_request history prompt
    end.
Proof.
  unfold first_request, intent.
  now destruct (isImageRequest prompt), (isAudioRequest prompt).
Qed.

(** On a history that [slice] takes, a run opens with the completion
    request of the flow. *)
Lemma generateText_opens openai prompt history σ :
  sliceable history ->
  exists rest,
    exchanged σ (generateText openai prompt history σ).2
    = {| call := chat_completions_create (first_request history prompt);
         raised := raised_by (chat_reply openai (upstream σ)
                                (first_request history prompt)) |} :: rest.
Proof.
  intros Hslice.
  destruct (chat_reply openai (upstream σ) (first_request history prompt))
    as [[[|c d]|]|error] eqn:Hchat.
  - rewrite (generateText_first_reply_empty _ _ _ _ _ Hslice Hchat) by tauto.
    eexists. now apply exchanged_one.
  - destruct (isImageRequest prompt) eqn:Himage;
      [|destruct (isAudioRequest prompt) eqn:Haudio].
    + rewrite first_request_image in * by done.
      rewrite (generateText_image_flow _ _ _ _ (c :: d) Hslice) by done.
      media_cases; simpl; autorewrite with route; simpl;
        repeat case_match; eexists; norm_exchanged; reflexivity.
    + rewrite first_request_audio in * by done.
      rewrite (generateText_audio_flow _ _ _ _ (c :: d) Hslice) by done.
      media_cases; simpl; autorewrite with route; simpl;
        repeat case_match; eexists; norm_exchanged; reflexivity.
    + rewrite first_request_text in * by done.
      rewrite (generateText_text_flow _ _ _ _ _ _ Hslice Himage Haudio Hchat).
      eexists. now apply exchanged_one.
  - rewrite (generateText_first_reply_empty _ _ _ _ _ Hslice Hchat) by tauto.
    eexists. now apply exchanged_one.
  - rewrite (generateText_first_reply_throws _ _ _ _ _ Hslice Hchat).
    cbv zeta. repeat case_match; eexists; now apply exchanged_one.
Qed.

(** A prompt of media intent opens with the stage-one request of its
    flow, never with the request of the text flow. *)
Lemma media_intent_opens openai prompt history σ :
  intent prompt <> text ->
  sliceable history ->
  let request := if isImageRequest prompt
                 then image_stage_one history prompt
                 else audio_stage_one history prompt in
  exists rest,
    exchanged σ (generateText openai prompt history σ).2
    = {| call := chat_completions_create request;
         raised := raised_by (chat_reply openai (upstream σ) request) |}
      :: rest.
Proof.
  intros Hintent Hslice. simpl.
  destruct (generateText_opens openai prompt history σ Hslice) as [rest Hrest].
  exists rest. rewrite Hrest. unfold first_request, intent in *.
  destruct (isImageRequest prompt); [reflexivity|].
  now destruct (isAudioRequest prompt).
Qed.

Lemma canonicalize_ascii c : (c < 128 -> JsString.canonicalize c < 128)%N.
Proof.
  unfold JsString.canonicalize. intros Hc.
  destruct ((97 <=? c)%N && (c <=? 122)%N); lia.
Qed.

Lemma canonicalize_beyond_ascii c : (128 <= c -> JsString.canonicalize c = c)%N.
Proof.
  unfold JsString.canonicalize. intros Hc.
  destruct (N.leb_spec c 122); [lia|]. now rewrite andb_false_r.
Qed.

Lemma matches_at_same_ascii_letters pat p q :
  Forall (fun c => (c < 128)%N) pat ->
  same_ascii_letters p q ->
  JsString.matches_at pat p = JsString.matches_at pat q.
Proof.
  intros Hpat Hpq. revert pat Hpat.
  induction Hpq as [|x y p q Hxy Hpq IH]; intros [|c pat] Hpat; try reflexivity.
  apply Forall_cons in Hpat as [Hc Hpat]. cbn [JsString.matches_at].
  rewrite (IH pat Hpat). f_equal.
  destruct Hxy as [-> | [Hx Hy]]; [reflexivity|].
  rewrite (canonicalize_beyond_ascii x), (canonicalize_beyond_ascii y) by done.
  apply canonicalize_ascii in Hc.
  destruct (N.eqb_spec (JsString.canonicalize c) x),
    (N.eqb_spec (JsString.canonicalize c) y); try reflexivity; lia.
Qed.

Lemma regex_test_same_ascii_letters alternatives p q :
  Forall (Forall (fun c => (c < 128)%N)) alternatives ->
  same_ascii_letters p q ->
  JsString.regex_test alternatives p = JsString.regex_test alternatives q.
Proof.
  intros Halt Hpq.
  assert (Hhere : forall p q, same_ascii_letters p q ->
    existsb (fun pat => JsString.matches_at pat p) alternatives
    = existsb (fun pat => JsString.matches_at pat q) alternatives).
  { intros p' q' Hpq'. induction Halt as [|pat alts Hpat _ IH]; simpl.
    - reflexivity.
    - now rewrite (matches_at_same_ascii_letters pat p' q'), IH. }
  induction Hpq as [|x y p q Hxy Hpq IH].
  - reflexivity.
  - cbn [JsString.regex_test]. rewrite IH. f_equal.
    apply Hhere. now constructor.
Qed.

Lemma patterns_are_ascii :
  Forall (Forall (fun c => (c < 128)%N))
    (image_action ++ image_subject ++ audio_action ++ audio_subject).
Proof.
  apply Forall_forall. intros word Hword. apply Forall_forall. intros c Hc.
  apply N.ltb_lt.
  assert (forallb (forallb (fun c => (c <? 128)%N))
            (image_action ++ image_subject ++ audio_action ++ audio_subject)
          = true) as Hall by (vm_compute; reflexivity).
  rewrite forallb_forall in Hall. apply list_elem_of_In in Hword.
  specialize (Hall word Hword). rewrite forallb_forall in Hall.
  apply Hall. now apply list_elem_of_In.
Qed.

(** X14.  The classifier looks at ASCII only.  Two prompts that are
    equal but for the case of the ASCII letters a to z, and that may hold
    any code units outside ASCII at the places where they differ
    otherwise, pass the same tests and are served by the same flow.
    Case pairs that cross the border of ASCII (the long s and S, the
    Kelvin sign and k) are not of this kind. *)
Theorem request_kind_ignores_ascii_case (p q : jsstring) :
  same_ascii_letters p q ->
  isImageRequest p = isImageRequest q
  /\ isAudioRequest p = isAudioRequest q
  /\ intent p = intent q.
Proof.
  intros Hpq.
  pose proof patterns_are_ascii as Hascii.
  rewrite !Forall_app in Hascii.
  destruct Hascii as (Hia & His & Haa & Has).
  assert (isImageRequest p = isImageRequest q) as Himage.
  { unfold isImageRequest.
    now rewrite (regex_test_same_ascii_letters _ p q Hia Hpq),
      (regex_test_same_ascii_letters _ p q His Hpq). }
  assert (isAudioRequest p = isAudioRequest q) as Haudio.
  { unfold isAudioRequest.
    now rewrite (regex_test_same_ascii_letters _ p q Haa Hpq),
      (regex_test_same_ascii_letters _ p q Has Hpq). }
  unfold intent. now rewrite Himage, Haudio.
Qed.

Lemma request_kind_ignores_ascii_case_witness :
  intent Scenario.shouted_prompt = intent Scenario.quiet_prompt.
Proof.
  apply (request_kind_ignores_ascii_case Scenario.shouted_prompt
           Scenario.quiet_prompt).
  vm_compute.
  repeat (constructor;
          [first [left; reflexivity | right; split; discriminate]|]).
  constructor.
Defined.

(** X15.  Text added before and after a prompt never turns a media
    request into a plain text request.  A prompt served by the image flow
    is still served by the image flow.  A prompt served by the audio flow
    is served by the audio flow unless the longer prompt passes the image
    tests, which come first: then it is served by the image flow.  On a
    history [slice] takes, the run on the longer prompt opens with the
    stage-one request of that media flow. *)
Theorem added_text_keeps_a_media_request (p before after : jsstring) :
  let longer := before ++ p ++ after in
  (intent p = image -> intent longer = image)
  /\ (intent p = audio ->
      intent longer = if isImageRequest longer then image else audio)
  /\ (intent p <> text ->
      intent longer <> text
      /\ forall openai history σ,
           sliceable history ->
           let request := if isImageRequest longer
                          then image_stage_one history longer
                          else audio_stage_one history longer in
           exists rest,
             exchanged σ (generateText openai longer history σ).2
             = {| call := chat_completions_create request;
                  raised := raised_by
                              (chat_reply openai (upstream σ) request) |}
               :: rest).
Proof.
  simpl.
  assert (Himage : isImageRequest p = true ->
                   isImageRequest (before ++ p ++ after) = true).
  { unfold isImageRequest. rewrite !andb_true_iff, !regex_test_spec.
    intros [(w1 & H1 & O1) (w2 & H2 & O2)];
      split; eexists; (split; [eassumption | now apply occurs_context]). }
  assert (Haudio : isAudioRequest p = true ->
                   isAudioRequest (before ++ p ++ after) = true).
  { unfold isAudioRequest. rewrite !andb_true_iff, !regex_test_spec.
    intros [(w1 & H1 & O1) (w2 & H2 & O2)];
      split; eexists; (split; [eassumption | now apply occurs_context]). }
  assert (Hkept : intent p <> text -> intent (before ++ p ++ after) <> text).
  { unfold intent. destruct (isImageRequest p).
    - now rewrite Himage.
    - destruct (isAudioRequest p); [|done]. rewrite Haudio by done.
      now destruct (isImageRequest (before ++ p ++ after)). }
  split; [|split].
  - unfold intent. destruct (isImageRequest p); [now rewrite Himage|].
    now destruct (isAudioRequest p).
  - unfold intent. destruct (isImageRequest p); [done|].
    destruct (isAudioRequest p); [|done]. now rewrite Haudio.
  - intros Hmedia. split; [now apply Hkept|].
    intros openai history σ Hslice.
    now apply media_intent_opens; [apply Hkept|].
Qed.

Lemma added_text_keeps_a_media_request_witness :
  intent Scenario.voice_prompt = audio
  /\ intent (lit "Please " ++ Scenario.voice_prompt ++ lit ", thanks") = audio
  /\ intent (lit "draw a picture and " ++ Scenario.voice_prompt ++ []) = image.
Proof.
  split; [vm_compute; reflexivity|]. split.
  - rewrite (proj1 (proj2 (added_text_keeps_a_media_request
               Scenario.voice_prompt (lit "Please ") (lit ", thanks"))));
      vm_compute; reflexivity.
  - rewrite (proj1 (proj2 (added_text_keeps_a_media_request
               Scenario.voice_prompt (lit "draw a picture and ") [])));
      vm_compute; reflexivity.
Defined.

(** X16.  The word "speak" is both an audio action and an audio
    subject: a prompt in which it stands, in any ASCII letter case and
    inside any word, passes the audio tests without any other word.  It
    is served by the audio flow unless it passes the image tests too,
    which come first: then it is served by the image flow.  It is never
    served as plain text: on a history [slice] takes, the run opens with
    the stage-one request of the audio flow, or of the image flow. *)
Theorem speak_is_audio_unless_image (prompt : jsstring) :
  occurs (lit "speak") prompt ->
  isAudioRequest prompt = true
  /\ intent prompt = (if isImageRequest prompt then image else audio)
  /\ forall openai history σ,
       sliceable history ->
       let request := if isImageRequest prompt
                      then image_stage_one history prompt
                      else audio_stage_one history prompt in
       exists rest,
         exchanged σ (generateText openai prompt history σ).2
         = {| call := chat_completions_create request;
              raised := raised_by
                          (chat_reply openai (upstream σ) request) |}
           :: rest.
Proof.
  intros Hocc.
  assert (Haudio : isAudioRequest prompt = true).
  { unfold isAudioRequest. rewrite andb_true_iff, !regex_test_spec.
    split; exists (lit "speak"); (split; [|done]);
      unfold audio_action, audio_subject; set_solver. }
  assert (Hintent : intent prompt
                    = if isImageRequest prompt then image else audio)
    by (unfold intent; now rewrite Haudio).
  split; [exact Haudio|]. split; [exact Hintent|].
  intros openai history σ Hslice. apply media_intent_opens; [|done].
  rewrite Hintent. now destruct (isImageRequest prompt).
Qed.

Lemma speak_is_audio_unless_image_witness :
  intent Scenario.speak_prompt = audio
  /\ intent Scenario.photo_prompt = image.
Proof.
  split.
  - destruct (speak_is_audio_unless_image Scenario.speak_prompt)
      as (_ & Hintent & _).
    + exists (lit "Do you "), (lit "speak"), (lit " French?").
      split; [vm_compute; reflexivity | vm_compute; repeat constructor].
    + rewrite Hintent. vm_compute. reflexivity.
  - destruct (speak_is_audio_unless_image Scenario.photo_prompt)
      as (_ & Hintent & _).
    + exists (lit "show me a photo of people who "), (lit "speak"),
        (lit " French").
      split; [vm_compute; reflexivity | vm_compute; repeat constructor].
    + rewrite Hintent. vm_compute. reflexivity.
Defined.

(** ** The message view *)

Import ChatMessage.

Lemma starts_with_prefix (p s : jsstring) :
  starts_with p s = true <-> p `prefix_of` s.
Proof.
  revert s. induction p as [|x p IH]; intros [|c s]; simpl.
  - split; [intros _; apply prefix_nil | done].
  - split; [intros _; apply prefix_nil | done].
  - split; [done | intros [k Hk]; discriminate].
  - rewrite andb_true_iff, N.eqb_eq, IH. split.
    + intros [-> Hp]. now apply prefix_cons.
    + intros [k Hk]. injection Hk as -> ->. split; [done | now exists k].
Qed.

Lemma starts_with_app (p s : jsstring) : starts_with p (p ++ s) = true.
Proof. apply starts_with_prefix. now exists s. Qed.

Lemma ends_with_app (p s : jsstring) : ends_with p (s ++ p) = true.
Proof.
  unfold ends_with, JsString.slice_last.
  rewrite andb_true_iff, Nat.leb_le, bool_decide_eq_true, length_app.
  split; [lia|].
  replace (length s + length p - length p)%nat with (length s) by lia.
  now rewrite drop_app_length.
Qed.

Lemma starts_with_fence_cons c s :
  c <> backtick -> starts_with fence (c :: s) = false.
Proof.
  intros Hc. unfold fence. cbn [starts_with].
  destruct (N.eqb_spec backtick c) as [Heq|Hne]; [congruence | reflexivity].
Qed.

Lemma starts_with_fence_plain s :
  Forall (fun c => c <> backtick) s -> starts_with fence s = false.
Proof.
  intros [|c s' Hc _]; [done | now apply starts_with_fence_cons].
Qed.

Lemma drop_fence s : drop 3 (fence ++ s) = s.
Proof. reflexivity. Qed.

Lemma length_fence : length fence = 3%nat.
Proof. reflexivity. Qed.

Lemma fence_backticks c : c ∈ fence -> c = backtick.
Proof.
  intros Hin. unfold fence in Hin.
  repeat (apply elem_of_cons in Hin as [->|Hin]; [done|]).
  now apply elem_of_nil in Hin.
Qed.

Opaque fence.

Lemma find_fence_eq s :
  find_fence s
  = if starts_with fence s then Some ([], drop 3 s)
    else match s with
         | [] => None
         | c :: s' => prod_map (cons c) id <$> find_fence s'
         end.
Proof. now destruct s. Qed.

Lemma find_fence_spec s before after :
  find_fence s = Some (before, after) -> s = before ++ fence ++ after.
Proof.
  revert before after. induction s as [|c s IH]; intros before after.
  - simpl. discriminate.
  - rewrite find_fence_eq.
    destruct (starts_with fence (c :: s)) eqn:Hstart.
    + apply starts_with_prefix in Hstart as [k Hk]. rewrite Hk.
      now intros [= <- <-].
    + destruct (find_fence s) as [[b a]|] eqn:Hfind; [|discriminate].
      intros [= <- <-]. simpl. f_equal. now apply IH.
Qed.

Lemma find_fence_None s :
  find_fence s = None -> forall before after, s <> before ++ fence ++ after.
Proof.
  induction s as [|c s IH]; intros Hfind before after Hs.
  - destruct before; discriminate.
  - rewrite find_fence_eq in Hfind.
    destruct (starts_with fence (c :: s)) eqn:Hstart; [done|].
    destruct before as [|b before].
    + rewrite Hs in Hstart. simpl app in Hstart.
      now rewrite starts_with_app in Hstart.
    + injection Hs as _ Hs.
      destruct (find_fence s) eqn:Hrest; [done|]. now apply (IH eq_refl before after).
Qed.

Lemma fenced_here_spec s matched rest :
  fenced_here s = Some (matched, rest) ->
  s = matched ++ rest /\ exists inner, matched = fence ++ inner ++ fence.
Proof.
  unfold fenced_here. destruct (starts_with fence s) eqn:Hstart; [|done].
  apply starts_with_prefix in Hstart as [k ->].
  rewrite drop_fence.
  destruct (find_fence k) as [[inner after]|] eqn:Hfind; [|done].
  intros [= <- <-]. apply find_fence_spec in Hfind as ->.
  split; [|eauto]. now rewrite <- !app_assoc.
Qed.

Lemma fenced_here_shorter s matched rest :
  fenced_here s = Some (matched, rest) -> (length rest < length s)%nat.
Proof.
  intros (-> & inner & ->)%fenced_here_spec.
  rewrite !length_app, length_fence. lia.
Qed.

Lemma split_loop_enough fuel fuel' pending s :
  (length s < fuel)%nat -> (length s < fuel')%nat ->
  split_loop fuel pending s = split_loop fuel' pending s.
Proof.
  revert fuel' pending s.
  induction fuel as [|fuel IH]; intros [|fuel'] pending s Hf Hf'; try lia.
  simpl. destruct (fenced_here s) as [[matched rest]|] eqn:Hhere.
  - apply fenced_here_shorter in Hhere.
    do 2 f_equal. apply IH; lia.
  - destruct s as [|c s]; [done|]. simpl in Hf, Hf'. apply IH; lia.
Qed.

(** The loop, one round at a time. *)
Lemma split_from_eq pending s :
  split_from pending s
  = match fenced_here s with
    | Some (matched, rest) => pending :: matched :: split_from [] rest
    | None =>
        match s with
        | [] => [pending]
        | c :: s' => split_from (pending ++ [c]) s'
        end
    end.
Proof.
  unfold split_from at 1. cbn [split_loop].
  destruct (fenced_here s) as [[matched rest]|] eqn:Hhere.
  - apply fenced_here_shorter in Hhere.
    do 2 f_equal. apply split_loop_enough; lia.
  - destruct s as [|c s]; [done|]. apply split_loop_enough; simpl; lia.
Qed.

(** Induction on the rounds of the loop. *)
Lemma split_from_ind (P : jsstring -> jsstring -> list jsstring -> Prop) :
  (forall pending, P pending [] [pending]) ->
  (forall pending c s,
     fenced_here (c :: s) = None ->
     P (pending ++ [c]) s (split_from (pending ++ [c]) s) ->
     P pending (c :: s) (split_from (pending ++ [c]) s)) ->
  (forall pending s matched rest,
     fenced_here s = Some (matched, rest) ->
     P [] rest (split_from [] rest) ->
     P pending s (pending :: matched :: split_from [] rest)) ->
  forall pending s, P pending s (split_from pending s).
Proof.
  intros Hend Hstep Hmatch pending s.
  remember (length s) as n eqn:Hn. revert pending s Hn.
  induction n as [n IH] using lt_wf_ind. intros pending s ->.
  rewrite split_from_eq.
  destruct (fenced_here s) as [[matched rest]|] eqn:Hhere.
  - apply Hmatch; [done|]. eapply IH; [|reflexivity].
    now apply fenced_here_shorter in Hhere.
  - destruct s as [|c s]; [apply Hend|].
    apply Hstep; [done|]. eapply IH; [|reflexivity]. simpl. lia.
Qed.

Lemma format_part_fenced inner :
  is_code (format_part (fence ++ inner ++ fence)).
Proof.
  unfold format_part.
  rewrite starts_with_app, (app_assoc fence inner fence), ends_with_app.
  exact I.
Qed.

Lemma split_from_join pending s : mjoin (split_from pending s) = pending ++ s.
Proof.
  apply (split_from_ind (fun pending s parts => mjoin parts = pending ++ s)).
  - intros p. simpl. now rewrite app_nil_r.
  - intros p c s' _ ->. now rewrite <- app_assoc.
  - intros p s' matched rest (-> & _)%fenced_here_spec Hrest. simpl.
    rewrite Hrest. reflexivity.
Qed.

Lemma split_from_alternating pending s :
  alternating (format_part <$> split_from pending s).
Proof.
  apply (split_from_ind
           (fun pending s parts => alternating (format_part <$> parts))).
  - intros p. exact I.
  - intros p c s' _ H. exact H.
  - intros p s' matched rest (_ & inner & ->)%fenced_here_spec Hrest.
    simpl. split; [apply format_part_fenced | exact Hrest].
Qed.

(** X17.  The parts [formatMessageContent] renders are the content cut
    in pieces, nothing lost and nothing added: joined in order they give
    the content back.  There is an odd number of elements, and every
    second one is a code block. *)
Theorem parts_make_up_the_content (content : jsstring) :
  mjoin (split_fences content) = content
  /\ alternating (formatMessageContent content).
Proof.
  split; [apply split_from_join | apply split_from_alternating].
Qed.

Lemma split_from_plain pending before s :
  Forall (fun c => c <> backtick) before ->
  split_from pending (before ++ s) = split_from (pending ++ before) s.
Proof.
  intros Hplain. revert pending.
  induction Hplain as [|c before Hc _ IH]; intros pending.
  - now rewrite app_nil_r.
  - rewrite split_from_eq. simpl app. unfold fenced_here.
    rewrite starts_with_fence_cons by done.
    rewrite IH, <- app_assoc. reflexivity.
Qed.

Lemma find_fence_plain inner after :
  Forall (fun c => c <> backtick) inner ->
  find_fence (inner ++ fence ++ after) = Some (inner, after).
Proof.
  induction 1 as [|c inner Hc _ IH].
  - reflexivity.
  - simpl app. rewrite find_fence_eq, starts_with_fence_cons by done.
    simpl app in IH. rewrite IH. reflexivity.
Qed.

Lemma split_fences_fenced before inner after :
  Forall (fun c => c <> backtick) before ->
  Forall (fun c => c <> backtick) inner ->
  split_fences (before ++ fence ++ inner ++ fence ++ after)
  = before :: (fence ++ inner ++ fence) :: split_fences after.
Proof.
  intros Hbefore Hinner. unfold split_fences.
  rewrite split_from_plain by done. rewrite split_from_eq.
  unfold fenced_here. rewrite starts_with_app.
  rewrite drop_fence.
  rewrite find_fence_plain by done. reflexivity.
Qed.

Lemma split_fences_plain content :
  (forall before after, content <> before ++ fence ++ after) ->
  split_fences content = [content].
Proof.
  unfold split_fences. intros Hplain.
  change [content] with [[] ++ content]. generalize (@nil N) as pending.
  induction content as [|c content IH]; intros pending.
  - now rewrite app_nil_r.
  - rewrite split_from_eq.
    destruct (fenced_here (c :: content)) as [[matched rest]|] eqn:Hhere.
    + apply fenced_here_spec in Hhere as (Hs & inner & ->).
      exfalso. apply (Hplain [] (inner ++ fence ++ rest)).
      rewrite Hs, <- !app_assoc. reflexivity.
    + rewrite IH, <- app_assoc; [done|].
      intros before after ->. now apply (Hplain (c :: before) after).
Qed.

(** X18.  A content in which no fence (three grave accents) stands is
    rendered as one paragraph holding the content as it is. *)
Theorem plain_text_is_one_paragraph (content : jsstring) :
  (forall before after, content <> before ++ fence ++ after) ->
  formatMessageContent content = [Paragraph content].
Proof.
  intros Hplain. unfold formatMessageContent.
  rewrite split_fences_plain by done. simpl. unfold format_part.
  destruct (starts_with fence content) eqn:Hstart; [|done].
  apply starts_with_prefix in Hstart as [k ->].
  now destruct (Hplain [] k).
Qed.

Lemma plain_text_is_one_paragraph_witness :
  formatMessageContent (dq "Use `npm test`, it's quick.")
  = [Paragraph (dq "Use `npm test`, it's quick.")].
Proof.
  apply (plain_text_is_one_paragraph (dq "Use `npm test`, it's quick.")).
  apply find_fence_None. vm_compute. reflexivity.
Defined.

Lemma word_run_word language rest :
  Forall (fun c => is_word c = true) language ->
  match rest with c :: _ => is_word c = false | [] => True end ->
  word_run (language ++ rest) = (language, rest).
Proof.
  intros Hword Hrest.
  induction Hword as [|c language Hc _ IH]; cbn [word_run app].
  - destruct rest as [|c rest]; [done|]. cbn [word_run]. now rewrite Hrest.
  - now rewrite Hc, IH.
Qed.

Lemma format_part_plain text :
  Forall (fun c => c <> backtick) text -> format_part text = Paragraph text.
Proof.
  intros Hplain. unfold format_part.
  now rewrite starts_with_fence_plain.
Qed.

Lemma slice_fenced inner : slice_3_minus_3 (fence ++ inner ++ fence) = inner.
Proof.
  unfold slice_3_minus_3.
  rewrite (app_assoc fence inner fence), length_app.
  replace (length (fence ++ inner) + length fence - 3)%nat
    with (length (fence ++ inner)) by (rewrite length_fence; lia).
  now rewrite take_app_length.
Qed.

Lemma match_block_fenced language body :
  Forall (fun c => is_word c = true) language ->
  match_block (fence ++ language ++ [10%N] ++ body ++ fence)
  = Some (if JsString.truthy language then Some language else None, body).
Proof.
  intros Hword. unfold match_block. rewrite starts_with_app.
  rewrite drop_fence.
  rewrite word_run_word by done. cbn [app].
  rewrite ends_with_app, length_app.
  replace (length body + length fence - 3)%nat with (length body)
    by (rewrite length_fence; lia).
  now rewrite take_app_length.
Qed.

(** X19.  A fenced block with a language line: when the text before
    the block and the code hold no grave accent, the language is made of
    word characters (possibly none) and the code is not empty, the
    content is rendered as the paragraph of the text before, the code
    block of the code with that language (no language when the line is
    empty), and the rendering of what follows the closing fence. *)
Theorem fenced_code_becomes_a_code_block
    (before language code after : jsstring) :
  Forall (fun c => c <> backtick) before ->
  Forall (fun c => is_word c = true) language ->
  Forall (fun c => c <> backtick) code ->
  code <> [] ->
  formatMessageContent
    (before ++ fence ++ language ++ [10%N] ++ code ++ fence ++ after)
  = Paragraph before
    :: CodeBlock code (if JsString.truthy language then Some language
                       else None)
    :: formatMessageContent after.
Proof.
  intros Hbefore Hword Hcode Hsome. unfold formatMessageContent.
  replace (before ++ fence ++ language ++ [10%N] ++ code ++ fence ++ after)
    with (before ++ fence ++ (language ++ [10%N] ++ code) ++ fence ++ after)
    by now rewrite <- !app_assoc.
  rewrite split_fences_fenced; [|done|].
  2: { apply Forall_app. split.
       - eapply Forall_impl; [exact Hword|]. intros c Hc ->. discriminate.
       - apply Forall_cons. split; [discriminate | done]. }
  rewrite !fmap_cons, format_part_plain by done. do 2 f_equal.
  unfold format_part.
  rewrite starts_with_app,
    (app_assoc fence (language ++ [10%N] ++ code) fence), ends_with_app.
  rewrite <- (app_assoc fence (language ++ [10%N] ++ code) fence).
  rewrite slice_fenced. rewrite <- !app_assoc.
  rewrite match_block_fenced by done. simpl.
  destruct code; [done | reflexivity].
Qed.

Lemma fenced_code_becomes_a_code_block_witness :
  formatMessageContent
    (lit "Try this:" ++ newline ++ lit "```js" ++ newline
     ++ lit "let x = 1" ++ newline ++ lit "```" ++ newline ++ lit "Done.")
  = [Paragraph (lit "Try this:" ++ newline);
     CodeBlock (lit "let x = 1" ++ newline) (Some (lit "js"));
     Paragraph (newline ++ lit "Done.")].
Proof.
  pose proof (fenced_code_becomes_a_code_block (lit "Try this:" ++ newline)
                (lit "js") (lit "let x = 1" ++ newline)
                (newline ++ lit "Done.")) as Hblock.
  vm_compute. vm_compute in Hblock. apply Hblock.
  - repeat constructor; discriminate.
  - repeat constructor.
  - repeat constructor; discriminate.
  - discriminate.
Defined.

(** X20.  A fenced block with a language line and no code is rendered
    as a code block whose code is the language line itself, line feed
    included: the empty capture is falsy, so the slice of the part is
    taken instead. *)
Theorem empty_fence_shows_its_language_line
    (before language after : jsstring) :
  Forall (fun c => c <> backtick) before ->
  Forall (fun c => is_word c = true) language ->
  formatMessageContent (before ++ fence ++ language ++ [10%N] ++ fence ++ after)
  = Paragraph before
    :: CodeBlock (language ++ [10%N])
                 (if JsString.truthy language then Some language else None)
    :: formatMessageContent after.
Proof.
  intros Hbefore Hword. unfold formatMessageContent.
  replace (before ++ fence ++ language ++ [10%N] ++ fence ++ after)
    with (before ++ fence ++ (language ++ [10%N]) ++ fence ++ after)
    by now rewrite <- !app_assoc.
  rewrite split_fences_fenced; [|done|].
  2: { apply Forall_app. split.
       - eapply Forall_impl; [exact Hword|]. intros c Hc ->. discriminate.
       - apply Forall_cons. split; [discriminate | done]. }
  rewrite !fmap_cons, format_part_plain by done. do 2 f_equal.
  unfold format_part.
  rewrite starts_with_app,
    (app_assoc fence (language ++ [10%N]) fence), ends_with_app.
  rewrite <- (app_assoc fence (language ++ [10%N]) fence).
  rewrite slice_fenced. rewrite <- !app_assoc.
  pose proof (match_block_fenced language [] Hword) as Hmatch.
  simpl app in Hmatch |- *. rewrite Hmatch. reflexivity.
Qed.

Lemma empty_fence_shows_its_language_line_witness :
  formatMessageContent (lit "```js" ++ newline ++ lit "```")
  = [Paragraph []; CodeBlock (lit "js" ++ newline) (Some (lit "js"));
     Paragraph []].
Proof.
  pose proof (empty_fence_shows_its_language_line [] (lit "js") [])
    as Hblock.
  vm_compute. vm_compute in Hblock. apply Hblock.
  - constructor.
  - repeat constructor.
Defined.

Lemma word_run_rest s :
  exists word, s = word ++ (word_run s).2
               /\ match (word_run s).2 with
                  | c :: _ => is_word c = false
                  | [] => True
                  end.
Proof.
  induction s as [|c s (word & Hs & Hrest)]; cbn [word_run].
  - now exists [].
  - destruct (is_word c) eqn:Hc.
    + destruct (word_run s) as [w r]. simpl in *. exists (c :: word).
      split; [now rewrite Hs at 1 | done].
    + exists []. now split.
Qed.

(** X21.  A fence on one line: when the text between two fences holds
    no grave accent and no line feed, it is rendered as a code block of
    that text, with no language, even when it opens with a word. *)
Theorem one_line_fence_is_code_without_language
    (before inner after : jsstring) :
  Forall (fun c => c <> backtick) before ->
  Forall (fun c => c <> backtick /\ c <> 10%N) inner ->
  formatMessageContent (before ++ fence ++ inner ++ fence ++ after)
  = Paragraph before :: CodeBlock inner None :: formatMessageContent after.
Proof.
  intros Hbefore Hinner. unfold formatMessageContent.
  rewrite split_fences_fenced; [|done|].
  2: { eapply Forall_impl; [exact Hinner|]. now intros c [? ?]. }
  rewrite !fmap_cons, format_part_plain by done. do 2 f_equal.
  unfold format_part.
  rewrite starts_with_app, (app_assoc fence inner fence), ends_with_app.
  rewrite <- (app_assoc fence inner fence), slice_fenced.
  assert (match_block (fence ++ inner ++ fence) = None) as ->; [|done].
  unfold match_block. rewrite starts_with_app.
  rewrite drop_fence.
  destruct (word_run_rest (inner ++ fence)) as (word & Hs & Hrest).
  destruct (word_run (inner ++ fence)) as [w rest]. simpl in Hs, Hrest.
  destruct rest as [|c rest]; [done|].
  destruct (N.eqb_spec c 10) as [->|Hc].
  2: { destruct c as [|p]; [done|].
       do 4 (try destruct p as [p|p|]; try done). }
  exfalso.
  assert (10%N ∈ inner ++ fence) as Hin
    by (rewrite Hs; set_solver).
  apply elem_of_app in Hin as [Hin|Hin].
  - rewrite Forall_forall in Hinner. now destruct (Hinner _ Hin).
  - now apply fence_backticks in Hin.
Qed.

Lemma one_line_fence_is_code_without_language_witness :
  formatMessageContent (lit "Run ```npm test``` first")
  = [Paragraph (lit "Run "); CodeBlock (lit "npm test") None;
     Paragraph (lit " first")].
Proof.
  pose proof (one_line_fence_is_code_without_language (lit "Run ")
                (lit "npm test") (lit " first")) as Hblock.
  vm_compute. vm_compute in Hblock. apply Hblock.
  - repeat constructor; discriminate.
  - repeat constructor; discriminate.
Defined.

(** ** The input form *)

Import ChatInput.

Lemma handle_media event s :
  from_option within_limit_or_recording True (mediaFile s) ->
  from_option within_limit_or_recording True
    (mediaFile (handle event s).1)
  /\ forall message file,
       onSend message (Some file) ∈ (handle event s).2 ->
       within_limit_or_recording file.
Proof.
  intros Hs.
  assert (forall isLoading,
    from_option within_limit_or_recording True
      (mediaFile (handleSubmit isLoading s).1)
    /\ forall message file,
         onSend message (Some file) ∈ (handleSubmit isLoading s).2 ->
         within_limit_or_recording file) as Hsubmit.
  { intros isLoading. unfold handleSubmit. case_match; simpl.
    - split; [done|]. intros message file [= _ Hfile]%list_elem_of_singleton.
      now rewrite <- Hfile in Hs.
    - split; [done|]. now intros message file ?%elem_of_nil. }
  destruct event; simpl; try (split; [done | now intros ? ? ?%elem_of_nil]).
  - apply Hsubmit.
  - unfold handleKeyDown. case_match; [apply Hsubmit|].
    split; [done | now intros ? ? ?%elem_of_nil].
  - unfold handleFileChange. destruct files as [|file files]; simpl.
    { split; [done | now intros ? ? ?%elem_of_nil]. }
    destruct (N.ltb_spec (5 * 1024 * 1024) (size file)); simpl.
    + split; [done|]. now intros ? ? [=]%list_elem_of_singleton.
    + split; [left; lia|]. case_match.
      * now intros ? ? [=]%list_elem_of_singleton.
      * now intros ? ? ?%elem_of_nil.
  - unfold startRecording. destruct attempt; simpl;
      (split; [done | now intros ? ? [=]%list_elem_of_singleton]).
  - unfold stopRecording. case_match; simpl; split; try done.
    + now intros ? ? [=]%list_elem_of_singleton.
    + now intros ? ? ?%elem_of_nil.
  - split; [now right | now intros ? ? ?%elem_of_nil].
  - split; [done | now intros ? ? [=]%list_elem_of_singleton].
Qed.

(** X22.  Whatever happens to the form, in whatever order, a file
    handed to [onSend] is at most 5 MiB (5242880 bytes) large, or it is a
    recording, of type audio/webm: the limit holds for picked files
    only. *)
Theorem sent_files_are_within_the_limit_or_recordings
    (events : list Event) (message : jsstring) (file : Blob) :
  onSend message (Some file) ∈ (run events initial).2 ->
  within_limit_or_recording file.
Proof.
  assert (from_option within_limit_or_recording True (mediaFile initial))
    as Hinitial by exact I.
  revert Hinitial. generalize initial as s.
  induction events as [|event events IH]; intros s Hs.
  - now intros ?%elem_of_nil.
  - simpl. destruct (handle_media event s Hs) as [Hnext Hsent].
    destruct (handle event s) as [s' effects].
    specialize (IH s' Hnext).
    destruct (run events s') as [s'' effects']. simpl in *.
    intros [Hin|Hin]%elem_of_app; eauto.
Qed.

Lemma sent_files_are_within_the_limit_or_recordings_witness :
  within_limit_or_recording sample_photo.
Proof.
  apply (sent_files_are_within_the_limit_or_recordings
           [FileChange [sample_photo]; Submit false]
           [] sample_photo).
  vm_compute. apply list_elem_of_further, list_elem_of_here.
Defined.

(** X23.  [handleSubmit] sends exactly when the send button is enabled:
    then it hands the input and the media as they are to [onSend], once,
    and leaves a state in which
    the button is disabled whatever [isLoading] is; when the button is
    disabled it sends nothing and changes nothing. *)
Theorem submit_sends_when_the_send_button_is_enabled
    (isLoading : bool) (s : State) :
  (handleSubmit isLoading s).2
  = (if send_disabled isLoading s then []
     else [onSend (input s) (mediaFile s)])
  /\ (send_disabled isLoading s = false ->
      forall later,
        send_disabled later (handleSubmit isLoading s).1 = true)
  /\ (send_disabled isLoading s = true ->
      (handleSubmit isLoading s).1 = s).
Proof.
  unfold handleSubmit, send_disabled.
  destruct isLoading, (JsString.truthy (JsString.trim (input s))),
    (bool_decide (is_Some (mediaFile s))); simpl;
    repeat split; try done; intros _ later; now rewrite orb_true_r.
Qed.

Lemma submit_sends_when_the_send_button_is_enabled_witness :
  (handleSubmit false sample_draft).2
  = [onSend (lit "hi") None]
  /\ send_disabled false
       (handleSubmit false sample_draft).1 = true.
Proof.
  destruct (submit_sends_when_the_send_button_is_enabled false
              sample_draft) as (Hsent & Hafter & _).
  split.
  - rewrite Hsent. vm_compute. reflexivity.
  - apply Hafter. vm_compute. reflexivity.
Defined.
